(** * Spectral Divide-and-Conquer Schur decomposition: partition selection,
      randomized sign-function split and the recursive driver

    Shallow embedding of [include/elemental/lapack-like/Schur/SDC.hpp]
    (namespace [elem::schur]).

    Conventions of the embedding.
    - [Int] is modelled as [Z]; every index expression of the source stays far
      from the limits of a machine integer, so no wrap-around is written.
    - The template parameter [F] and its base field [BASE(F)] are a type class
      of operations ([Scalar], [RealOps]).  The operations are whatever the
      instance makes them: binary64 with its rounding and its NaN
      ([Float_RealOps]) is one instance, the rationals ([Qc_RealOps]) are
      another.  A statement that needs the laws of exact arithmetic says so
      by asking for [RealLaws], which binary64 does not obey.
    - A [std::vector] is a list with checked access: an index outside the
      vector is the fault [OutOfRange] (undefined behaviour in the source).
    - Routines of the library that are called but not defined in this header
      (norms, QR, Gemm, the sign iteration, the random generator, ...) are
      the operations of the interface [LinAlg].

    The file has three parts: the program, routine by routine in the order
    of the header and with its line numbers; the vocabulary of the
    statements; the facts and theorems. *)

From Stdlib Require Import ZArith Lia Ring QArith Qcanon Floats
  FunctionalExtensionality.
From stdpp Require Import base list numbers relations.

Local Open Scope Z_scope.

(** ** Scalars *)

(** The operations of [BASE(F)] used by the header. *)
Class RealOps (Real : Type) : Type := {
  rzero : Real;
  rone : Real;
  radd : Real → Real → Real;
  rmul : Real → Real → Real;
  rsub : Real → Real → Real;
  ropp : Real → Real;
  rdiv : Real → Real → Real;
  rabs : Real → Real;
  rltb : Real → Real → bool;
  rleb : Real → Real → bool;
  reqb : Real → Real → bool;
  rofInt : Z → Real;
  (** [Real(0.001)] *)
  rmilli : Real;
  (** [lapack::MachineEpsilon<Real>()] *)
  MachineEpsilon : Real;
  Pi : Real;
  Cos : Real → Real;
  Sin : Real → Real
}.

Declare Scope real_scope.
Delimit Scope real_scope with real.
Infix "⊕" := radd (at level 50, left associativity) : real_scope.
Infix "⊖" := rsub (at level 50, left associativity) : real_scope.
Infix "⊗" := rmul (at level 40, left associativity) : real_scope.
Infix "⊘" := rdiv (at level 40, left associativity) : real_scope.
Local Open Scope real_scope.

(** Exact arithmetic: [Real] is a commutative ring and [<] a strict weak
    order (irreflexive, transitive, with a transitive complement).  The
    rationals obey these laws; binary64 does not (its addition rounds and
    is not associative), so what is proved under them speaks of the
    algorithm in exact arithmetic and not of a run in floating point. *)
Class RealLaws (Real : Type) `{RealOps Real} : Prop := {
  real_ring : ring_theory rzero rone radd rmul rsub ropp (@eq Real);
  rltb_irrefl : ∀ a, rltb a a = false;
  rltb_trans : ∀ a b c, rltb a b = true → rltb b c = true → rltb a c = true;
  rltb_ntrans : ∀ a b c, rltb a b = false → rltb b c = false → rltb a c = false
}.

(** The operations of the field [F] of the matrix entries, with [Abs] into
    its base field. *)
Class Scalar (F Real : Type) : Type := {
  fzero : F;
  fone : F;
  fadd : F → F → F;
  fmul : F → F → F;
  fopp : F → F;
  fdiv : F → F → F;
  fofInt : Z → F;
  Abs : F → Real
}.

(** [F = Real]: a real field is its own base. *)
#[export] Instance Real_Scalar {Real} `{RealOps Real} : Scalar Real Real := {|
  fzero := rzero; fone := rone; fadd := radd; fmul := rmul; fopp := ropp;
  fdiv := rdiv; fofInt := rofInt; Abs := rabs
|}.

(** [Complex<Real>], with the usual arithmetic on pairs. *)
Record Complex (Real : Type) : Type := mkComplex { re : Real; im : Real }.
Arguments mkComplex {Real} _ _.
Arguments re {Real} _.
Arguments im {Real} _.

Section ComplexScalar.
Context {Real : Type} `{RealOps Real}.
(** The modulus is the library's [Abs] on complex numbers. *)
Variable cabs : Complex Real → Real.

Definition cadd (x y : Complex Real) : Complex Real :=
  mkComplex (re x ⊕ re y) (im x ⊕ im y).
Definition cmul (x y : Complex Real) : Complex Real :=
  mkComplex (re x ⊗ re y ⊖ im x ⊗ im y) (re x ⊗ im y ⊕ im x ⊗ re y).
Definition copp (x : Complex Real) : Complex Real :=
  mkComplex (ropp (re x)) (ropp (im x)).
Definition cdiv (x y : Complex Real) : Complex Real :=
  let d := re y ⊗ re y ⊕ im y ⊗ im y in
  mkComplex ((re x ⊗ re y ⊕ im x ⊗ im y) ⊘ d)
            ((im x ⊗ re y ⊖ re x ⊗ im y) ⊘ d).

Definition Complex_Scalar : Scalar (Complex Real) Real := {|
  fzero := mkComplex rzero rzero; fone := mkComplex rone rzero;
  fadd := cadd; fmul := cmul; fopp := copp; fdiv := cdiv;
  fofInt := λ k, mkComplex (rofInt k) rzero; Abs := cabs
|}.
End ComplexScalar.

(** ** Results and faults *)

Inductive fault : Type :=
  | OutOfRange       (** an index outside a vector or a matrix *)
  | ReturnsNoValue   (** [return;] in a function that returns a value *)
  | Uninitialized    (** a variable read before it was given a value *)
  | NoFuel.          (** not a behaviour of the code: the recursion budget of
                         the model is used up *)

Inductive Result (A : Type) : Type :=
  | Ok (a : A)
  | Fault (e : fault).
Arguments Ok {A} _.
Arguments Fault {A} _.

#[export] Instance Result_ret : MRet Result := λ A a, Ok a.
#[export] Instance Result_bind : MBind Result := λ A B f m,
  match m with Ok a => f a | Fault e => Fault e end.

(** ** Counted loops *)

(** [for( Int i=lo; i<hi; ++i ) body] on a loop state [S]. *)
Fixpoint for_loop {S : Type} (count : nat) (i : Z)
    (body : Z → S → Result S) (s : S) : Result S :=
  match count with
  | O => Ok s
  | Datatypes.S c => s' ← body i s; for_loop c (i + 1) body s'
  end.

Definition for_range {S : Type} (lo hi : Z)
    (body : Z → S → Result S) (s : S) : Result S :=
  for_loop (Z.to_nat (hi - lo)) lo body s.

(** ** Matrices and vectors *)

Record Matrix (F : Type) : Type := mkMatrix {
  Height : Z;
  Width : Z;
  entry : Z → Z → F
}.
Arguments mkMatrix {F} _ _ _.
Arguments Height {F} _.
Arguments Width {F} _.
Arguments entry {F} _ _ _.

(** [A.Get(i,j)] *)
Definition Get {F} (A : Matrix F) (i j : Z) : Result F :=
  if (0 <=? i) && (i <? Height A) && (0 <=? j) && (j <? Width A)
  then Ok (entry A i j) else Fault OutOfRange.

Record ValueInt (Real : Type) : Type := mkValueInt { value : Real; index : Z }.
Arguments mkValueInt {Real} _ _.
Arguments value {Real} _.
Arguments index {Real} _.

Section Vectors.
Context {Real : Type} `{RealOps Real}.

(** [v[j]] read *)
Definition vget (v : list Real) (j : Z) : Result Real :=
  if 0 <=? j then
    match v !! Z.to_nat j with Some x => Ok x | None => Fault OutOfRange end
  else Fault OutOfRange.

(** [v[j] = x] *)
Definition vset (v : list Real) (j : Z) (x : Real) : Result (list Real) :=
  if (0 <=? j) && (j <? Z.of_nat (length v))
  then Ok (<[Z.to_nat j := x]> v) else Fault OutOfRange.

(** [v[j] += x] *)
Definition vadd (v : list Real) (j : Z) (x : Real) : Result (list Real) :=
  c ← vget v j; vset v j (c ⊕ x).
End Vectors.

(** ** PartitionSelector: [ComputePartition] *)

Section ComputePartition.
Context {F Real : Type} `{RealOps Real} `{Scalar F Real}.

(** The sentinel of an empty matrix: [part.value = -1; part.index = -1]. *)
Definition sentinel : ValueInt Real := mkValueInt (rofInt (-1)) (-1).

(** Lines 54-57: sums below the diagonal, by column. *)
Definition colSums_seq (A : Matrix F) (n : Z) (colSums : list Real)
    : Result (list Real) :=
  for_range 0 (n - 1) (λ j colSums,
    for_range (j + 1) n (λ i colSums,
      a ← Get A i j; vadd colSums j (Abs a)) colSums) colSums.

(** Lines 58-60: sums left of the diagonal, by row. *)
Definition rowSums_seq (A : Matrix F) (n : Z) (rowSums : list Real)
    : Result (list Real) :=
  for_range 1 (n - 1) (λ i rowSums,
    for_range 0 i (λ j rowSums,
      a ← Get A i j; vadd rowSums (i - 1) (Abs a)) rowSums) rowSums.

(** One pass of the loop of lines 68-76 (and 137-145). *)
Definition scan_step (colSums rowSums : list Real) (j : Z)
    (st : list Real * ValueInt Real) : Result (list Real * ValueInt Real) :=
  let '(norms, part) := st in
  prev ← vget norms (j - 1);
  c ← vget colSums j;
  r ← vget rowSums (j - 1);
  norms ← vset norms j (prev ⊕ c ⊖ r);
  nj ← vget norms j;
  if rltb nj (value part)
  then Ok (norms, mkValueInt nj (j + 1))
  else Ok (norms, part).

(** Lines 63-76 (and 132-145): the list of norms and its minimum. *)
Definition scan (n : Z) (colSums rowSums : list Real)
    : Result (list Real * ValueInt Real) :=
  let norms := replicate (Z.to_nat (n - 1)) rzero in
  c0 ← vget colSums 0;
  norms ← vset norms 0 c0;
  n0 ← vget norms 0;
  for_range 1 (n - 1) (scan_step colSums rowSums) (norms, mkValueInt n0 1).

(** The sequential overload, with the list of norms it builds. *)
Definition ComputePartition_norms (A : Matrix F)
    : Result (list Real * ValueInt Real) :=
  let n := Height A in
  if n =? 0 then Fault ReturnsNoValue
  else
    let zeros := replicate (Z.to_nat (n - 1)) rzero in
    colSums ← colSums_seq A n zeros;
    rowSums ← rowSums_seq A n zeros;
    scan n colSums rowSums.

(** [ComputePartition( Matrix<F>& A )], lines 36-79. *)
Definition ComputePartition (A : Matrix F) : Result (ValueInt Real) :=
  r ← ComputePartition_norms A; Ok r.2.
End ComputePartition.

(** ** The distributed overload of [ComputePartition] *)

(** Modelled from the spec: the distributed dense-matrix storage and the
    collective primitives are external collaborators of this header.  A
    [DistMatrix<F>] is its global matrix spread element-cyclically over an
    [r x c] process grid: the process with shifts [(colShift, rowShift)]
    stores the global entries [(colShift + iLoc*colStride,
    rowShift + jLoc*rowStride)], which is how lines 113 and 118 of the header
    recover the global indices, with [colStride = r] and [rowStride = c]. *)
Record DistMatrix (F : Type) : Type := mkDistMatrix {
  Global : Matrix F;
  GridHeight : Z;
  GridWidth : Z
}.
Arguments mkDistMatrix {F} _ _ _.
Arguments Global {F} _.
Arguments GridHeight {F} _.
Arguments GridWidth {F} _.

(** A process of the grid, named by its pair of shifts. *)
Record Process : Type := mkProcess { ColShift : Z; RowShift : Z }.

(** Modelled from the spec: the number of indices [shift + k*stride] below
    [n], the local length of a cyclically distributed dimension. *)
Definition Length (n shift stride : Z) : Z :=
  if shift <? n then (n - shift - 1) / stride + 1 else 0.

Section DistMatrixOps.
Context {F : Type}.

Definition ColStride (D : DistMatrix F) : Z := GridHeight D.
Definition RowStride (D : DistMatrix F) : Z := GridWidth D.
Definition LocalHeight (D : DistMatrix F) (p : Process) : Z :=
  Length (Height (Global D)) (ColShift p) (ColStride D).
Definition LocalWidth (D : DistMatrix F) (p : Process) : Z :=
  Length (Width (Global D)) (RowShift p) (RowStride D).

(** [A.GetLocal(iLoc,jLoc)] on process [p]. *)
Definition GetLocal (D : DistMatrix F) (p : Process) (iLoc jLoc : Z) : Result F :=
  if (0 <=? iLoc) && (iLoc <? LocalHeight D p)
     && (0 <=? jLoc) && (jLoc <? LocalWidth D p)
  then Ok (entry (Global D) (ColShift p + iLoc * ColStride D)
                            (RowShift p + jLoc * RowStride D))
  else Fault OutOfRange.

(** The processes of the grid, in the column-major order of [VCComm]. *)
Definition processes (D : DistMatrix F) : list Process :=
  q ← seqZ 0 (GridWidth D); p ← seqZ 0 (GridHeight D); [mkProcess p q].
End DistMatrixOps.

Section ComputePartitionDist.
Context {F Real : Type} `{RealOps Real} `{Scalar F Real}.

(** Lines 104-126 on process [p]: the local part of the sums. *)
Definition localSums (D : DistMatrix F) (p : Process) (n : Z)
    (sums : list Real * list Real) : Result (list Real * list Real) :=
  let mLocal := LocalHeight D p in
  let nLocal := LocalWidth D p in
  let rowShift := RowShift p in
  let colShift := ColShift p in
  let rowStride := RowStride D in
  let colStride := ColStride D in
  for_range 0 nLocal (λ jLoc sums,
    let j := rowShift + jLoc * rowStride in
    if j <? n - 1 then
      for_range 0 mLocal (λ iLoc sums,
        let i := colShift + iLoc * colStride in
        if i >? j then
          a ← GetLocal D p iLoc jLoc;
          colSums ← vadd sums.1 j (Abs a);
          a' ← GetLocal D p iLoc jLoc;
          rowSums ← vadd sums.2 (i - 1) (Abs a');
          Ok (colSums, rowSums)
        else Ok sums) sums
    else Ok sums) sums.

(** The local sums of every process of a list. *)
Fixpoint allLocalSums (D : DistMatrix F) (n : Z) (ps : list Process)
    : Result (list (list Real * list Real)) :=
  match ps with
  | [] => Ok []
  | p :: ps =>
      let zeros := replicate (Z.to_nat (n - 1)) rzero in
      s ← localSums D p n (zeros, zeros);
      ss ← allLocalSums D n ps;
      Ok (s :: ss)
  end.

Definition lsum (l : list Real) : Real := foldr radd rzero l.

(** Modelled from the spec: [mpi::AllReduce( buf, count, comm )], the
    all-reduce-sum of a buffer across the process group: entry [k] of every
    process becomes the sum of the entries [k] of all of them. *)
Definition AllReduce (bufs : list (list Real)) (count : Z) : list Real :=
  (λ k, lsum ((λ buf, default rzero (buf !! k)) <$> bufs))
    <$> seq 0 (Z.to_nat count).

(** [ComputePartition( DistMatrix<F>& A )], lines 85-148: the value every
    process returns. *)
Definition ComputePartition_Dist (D : DistMatrix F) : Result (ValueInt Real) :=
  let n := Height (Global D) in
  if n =? 0 then Ok sentinel
  else
    locals ← allLocalSums D n (processes D);
    let colSums := AllReduce (locals.*1) (n - 1) in
    let rowSums := AllReduce (locals.*2) (n - 1) in
    r ← scan n colSums rowSums; Ok r.2.
End ComputePartitionDist.

(** ** The library interface *)

Inductive LeftOrRight : Type := LEFT | RIGHT.
Inductive Orientation : Type := NORMAL | TRANSPOSE | ADJOINT.
Inductive UpperOrLower : Type := LOWER | UPPER.
Inductive VerticalOrHorizontal : Type := VERTICAL | HORIZONTAL.
Inductive Conjugation : Type := UNCONJUGATED | CONJUGATED.

(** The routines of the library that the header calls and does not define.
    An argument that the routine only overwrites is a result here:
    [elemQR G] is [elem::QR( G, t )] and returns the factored [G] and [t];
    [Gemm oA oB alpha A B] is the [C] that [Gemm( oA, oB, alpha, A, B, C )]
    leaves; [ImplicitHaar n g] is [ImplicitHaar( V, t, n )], drawing from the
    state [g] of the random generator. *)
Class LinAlg (F Real : Type) : Type := {
  RNG : Type;
  Trace : Matrix F → F;
  InfinityNorm : Matrix F → Real;
  OneNorm : Matrix F → Real;
  Sign : Matrix F → Matrix F;
  elemQR : Matrix F → Matrix F * Matrix F;
  pivotedQR : Matrix F → Matrix F * Matrix F * Matrix Z;
  ApplyQ : LeftOrRight → Orientation → Matrix F → Matrix F → Matrix F → Matrix F;
  ExpandPackedReflectors :
    UpperOrLower → VerticalOrHorizontal → Conjugation → Z →
    Matrix F → Matrix F → Matrix F;
  Gemm : Orientation → Orientation → F → Matrix F → Matrix F → Matrix F;
  ImplicitHaar : Z → RNG → Matrix F * Matrix F * RNG;
  SampleBall : F → Real → RNG → F * RNG;
  Uniform : Real → Real → RNG → Real * RNG;
  (** [schur::QR( A, w )]: the Schur form left in [A] *)
  schurQR : Matrix F → Matrix F;
  (** [schur::QR( A, Q, w, formATR )]: the Schur form and the vectors *)
  schurQR_vectors : Matrix F → bool → Matrix F * Matrix F
}.

(** Which overload of [SpectralDivide] the field selects: the overloads on
    [Matrix<Complex<Real>>] draw a rotation [F(Cos(angle),Sin(angle))], those
    on [Matrix<Real>] do not. *)
Class Overload (F Real : Type) : Type := {
  rotation : option (Real → Real → F)
}.

#[export] Instance Real_Overload {Real} : Overload Real Real :=
  {| rotation := None |}.
#[export] Instance Complex_Overload {Real} : Overload (Complex Real) Real :=
  {| rotation := Some mkComplex |}.

(** ** Effects: the random generator and the record of library calls *)

Inductive call : Type :=
  | CallTrace | CallInfinityNorm | CallOneNorm | CallSign | CallQR
  | CallPivotedQR | CallApplyQ | CallExpandPackedReflectors | CallGemm
  | CallImplicitHaar | CallSampleBall | CallUniform | CallSchurQR
  | CallComputePartition.

#[export] Instance call_eq_dec : EqDecision call.
Proof. solve_decision. Defined.

Record World (G : Type) : Type := mkWorld { rng : G; calls : list call }.
Arguments mkWorld {G} _ _.
Arguments rng {G} _.
Arguments calls {G} _.

(** A computation reads and advances the generator, records the library
    calls it makes in their order, and returns or faults. *)
Definition M (G : Type) (A : Type) : Type := World G → Result A * World G.

#[export] Instance M_ret {G} : MRet (M G) := λ A a w, (Ok a, w).
#[export] Instance M_bind {G} : MBind (M G) := λ A B f m w,
  match m w with
  | (Ok a, w') => f a w'
  | (Fault e, w') => (Fault e, w')
  end.

Section Effects.
Context {G : Type}.

Definition record (c : call) (w : World G) : World G :=
  mkWorld (rng w) (calls w ++ [c]).

(** A deterministic library routine. *)
Definition kernel {A} (c : call) (x : A) : M G A := λ w, (Ok x, record c w).

(** A routine that draws from the generator. *)
Definition draw {A} (c : call) (f : G → A * G) : M G A := λ w,
  let '(x, g) := f (rng w) in (Ok x, mkWorld g (calls w ++ [c])).

(** A routine of this header that returns or faults. *)
Definition lift {A} (c : call) (r : Result A) : M G A := λ w, (r, record c w).

Definition raise {A} (e : fault) : M G A := λ w, (Fault e, w).
End Effects.

(** ** Matrix helpers *)

(** Modelled from the spec: the diagonal accessors, the scaling and the
    views of the dense-matrix collaborator, by their documented meaning
    (diagonal get/set, partition into contiguous ranges as aliasing views). *)
Section MatrixHelpers.
Context {F Real : Type} `{Scalar F Real}.

Definition emptyMatrix : Matrix F := mkMatrix 0 0 (λ _ _, fzero).

(** [A.GetDiagonal( d )] *)
Definition GetDiagonal (A : Matrix F) : Matrix F :=
  mkMatrix (Z.min (Height A) (Width A)) 1 (λ k _, entry A k k).

(** [SetDiagonal( A, alpha )] *)
Definition SetDiagonal (A : Matrix F) (alpha : F) : Matrix F :=
  mkMatrix (Height A) (Width A) (λ i j, if i =? j then alpha else entry A i j).

(** [A.SetDiagonal( d )] *)
Definition SetDiagonalFrom (A d : Matrix F) : Matrix F :=
  mkMatrix (Height A) (Width A) (λ i j, if i =? j then entry d i 0 else entry A i j).

(** [UpdateDiagonal( A, alpha )] *)
Definition UpdateDiagonal (A : Matrix F) (alpha : F) : Matrix F :=
  mkMatrix (Height A) (Width A)
    (λ i j, if i =? j then fadd (entry A i j) alpha else entry A i j).

(** [Scale( alpha, A )] *)
Definition Scale (alpha : F) (A : Matrix F) : Matrix F :=
  mkMatrix (Height A) (Width A) (λ i j, fmul alpha (entry A i j)).

Definition View (A : Matrix F) (i j h w : Z) : Matrix F :=
  mkMatrix h w (λ a b, entry A (i + a) (j + b)).

(** [PartitionDownDiagonal( A, ATL, ATR, ABL, ABR, k )] *)
Definition PartitionDownDiagonal (A : Matrix F) (k : Z)
    : Matrix F * Matrix F * Matrix F * Matrix F :=
  (View A 0 0 k k, View A 0 k k (Width A - k),
   View A k 0 (Height A - k) k, View A k k (Height A - k) (Width A - k)).

(** [PartitionRight( Q, QL, QR, k )] *)
Definition PartitionRight (Q : Matrix F) (k : Z) : Matrix F * Matrix F :=
  (View Q 0 0 (Height Q) k, View Q 0 k (Height Q) (Width Q - k)).

(** The matrix whose quadrants are the four views. *)
Definition Merge2x2 (ATL ATR ABL ABR : Matrix F) : Matrix F :=
  mkMatrix (Height ATL + Height ABL) (Width ATL + Width ATR)
    (λ i j,
       if i <? Height ATL
       then (if j <? Width ATL then entry ATL i j else entry ATR i (j - Width ATL))
       else (if j <? Width ATL then entry ABL (i - Height ATL) j
             else entry ABR (i - Height ATL) (j - Width ATL))).

(** The matrix whose column blocks are the two views. *)
Definition Merge1x2 (QL QR : Matrix F) : Matrix F :=
  mkMatrix (Height QL) (Width QL + Width QR)
    (λ i j, if j <? Width QL then entry QL i j else entry QR i (j - Width QL)).
End MatrixHelpers.

(** ** Sequential and distributed storage *)

(** The overloads on [Matrix<F>] and on [DistMatrix<F>] of the routines below
    differ in the overload of [ComputePartition] they reach (and in
    broadcasts that leave the global contents as they are); a distributed
    matrix is followed through its global contents. *)
Inductive Storage : Type :=
  | Sequential
  | Distributed (gridHeight gridWidth : Z).

Section Core.
Context {F Real : Type} `{RealOps Real} `{Scalar F Real}
        `{LinAlg F Real} `{Overload F Real}.

Local Abbreviation Comp := (M RNG).

Definition ComputePartitionOn (s : Storage) (A : Matrix F)
    : Result (ValueInt Real) :=
  match s with
  | Sequential => ComputePartition A
  | Distributed r c => ComputePartition_Dist (mkDistMatrix A r c)
  end.

(** [A := Q^H A Q], lines 175-186 and 272-282: the transformed [A] and what
    is left in [G] and [B]. *)
Definition similarity (returnQ : bool) (A G t B : Matrix F)
    : Comp (Matrix F * Matrix F * Matrix F) :=
  if returnQ then
    G ← kernel CallExpandPackedReflectors
          (ExpandPackedReflectors LOWER VERTICAL UNCONJUGATED 0 G t);
    B ← kernel CallGemm (Gemm ADJOINT NORMAL fone G A);
    A ← kernel CallGemm (Gemm NORMAL NORMAL fone B G);
    mret (A, G, B)
  else
    A ← kernel CallApplyQ (ApplyQ LEFT ADJOINT G t A);
    A ← kernel CallApplyQ (ApplyQ RIGHT NORMAL G t A);
    mret (A, G, B).

(** [G := 1/2 ( sgn(G) + I )], lines 164-166 and 254-257. *)
Definition projector (G : Matrix F) : Comp (Matrix F) :=
  S ← kernel CallSign (Sign G);
  mret (Scale (fdiv fone (fofInt 2)) (UpdateDiagonal S fone)).

(** [SignDivide( A, G, returnQ )], lines 152-192 (and 194-235). *)
Definition SignDivide (s : Storage) (A G : Matrix F) (returnQ : bool)
    : Comp (ValueInt Real * Matrix F * Matrix F) :=
  G ← projector G;
  '(G, t, p) ← kernel CallPivotedQR (pivotedQR G);
  oneA ← kernel CallOneNorm (OneNorm A);
  '(A, G, _) ← similarity returnQ A G t emptyMatrix;
  part ← lift CallComputePartition (ComputePartitionOn s A);
  mret (mkValueInt (value part ⊘ oneA) (index part), A, G).

(** The variables of the loop of [RandomizedSignDivide]. *)
Record RSDState : Type := mkRSD {
  rs_it : Z;
  rs_A : Matrix F;
  rs_G : Matrix F;
  rs_V : Matrix F;
  rs_B : Matrix F;
  rs_t : Matrix F;
  rs_part : option (ValueInt Real)
}.

Section Loop.
Variables (s : Storage) (S : Matrix F) (n : Z) (oneA : Real)
          (returnQ : bool) (maxIts : Z) (relTol : Real).

(** One attempt, lines 263-286. *)
Definition RSD_attempt (st : RSDState) : Comp RSDState :=
  let G := S in
  '(V, t) ← draw CallImplicitHaar (ImplicitHaar n);
  G ← kernel CallApplyQ (ApplyQ RIGHT NORMAL V t G);
  '(G, t) ← kernel CallQR (elemQR G);
  let V := rs_A st in
  '(A, G, B) ← similarity returnQ (rs_A st) G t (rs_B st);
  part ← lift CallComputePartition (ComputePartitionOn s A);
  let part := mkValueInt (value part ⊘ oneA) (index part) in
  mret (mkRSD (rs_it st) A G V B t (Some part)).

(** The test of line 288. *)
Definition RSD_stop (st : RSDState) : bool :=
  match rs_part st with
  | Some part => rleb (value part) relTol || (rs_it st =? maxIts - 1)
  | None => false
  end.

(** Line 291 and the increment of the loop: [A = V; ++it]. *)
Definition RSD_retry (st : RSDState) : RSDState :=
  mkRSD (rs_it st + 1) (rs_V st) (rs_G st) (rs_V st) (rs_B st) (rs_t st)
        (rs_part st).

(** The loop of lines 261-292, from the state [st].  The source bounds it
    by its counter [it] alone; [fuel] is the number of turns the model may
    take, and a loop that would take more is the fault [NoFuel]. *)
Fixpoint RSD_loop (fuel : nat) (st : RSDState) : Comp RSDState :=
  match fuel with
  | O => raise NoFuel
  | Datatypes.S fuel =>
      if rs_it st <? maxIts then
        st ← RSD_attempt st;
        if RSD_stop st then mret st else RSD_loop fuel (RSD_retry st)
      else mret st
  end.
End Loop.

(** The tolerance of lines 249-250. *)
Definition effectiveTol (n : Z) (relTol : Real) : Real :=
  if reqb relTol rzero then rofInt (50 * n) ⊗ MachineEpsilon else relTol.

(** [RandomizedSignDivide( A, G, returnQ, maxIts, relTol )], lines 237-294
    (and 296-355), up to the end of its loop.  The loop is given one turn
    for each value of [it] below [maxIts] and one for the test that ends
    it. *)
Definition RandomizedSignDivide_loop (s : Storage) (A G : Matrix F)
    (returnQ : bool) (maxIts : Z) (relTol : Real) : Comp RSDState :=
  let n := Height A in
  oneA ← kernel CallOneNorm (OneNorm A);
  let relTol := effectiveTol n relTol in
  S ← projector G;
  RSD_loop s S n oneA returnQ maxIts relTol (Datatypes.S (Z.to_nat maxIts))
    (mkRSD 0 A G emptyMatrix emptyMatrix emptyMatrix None).

(** [part] is not initialized before the loop: returning it without an
    attempt is reading an indeterminate value. *)
Definition RandomizedSignDivide (s : Storage) (A G : Matrix F)
    (returnQ : bool) (maxIts : Z) (relTol : Real)
    : Comp (ValueInt Real * Matrix F * Matrix F) :=
  st ← RandomizedSignDivide_loop s A G returnQ maxIts relTol;
  match rs_part st with
  | Some part => mret (part, rs_A st, rs_G st)
  | None => raise Uninitialized
  end.

(** The default arguments [maxIts=10], [relTol=0]. *)
Definition default_maxIts : Z := 10.
Definition default_relTol : Real := rzero.

(** The generator of the split, lines 364-376 (and 394-410, 427-439, ...):
    the matrix [A] as it is when the generator is formed, the shift and the
    generator. *)
Definition generator (A : Matrix F) : Comp (Matrix F * Matrix F) :=
  let n := Height A in
  tr ← kernel CallTrace (Trace A);
  let gershCenter := fdiv tr (fofInt n) in
  let d := GetDiagonal A in
  let A := SetDiagonal A fzero in
  offDiagInf ← kernel CallInfinityNorm (InfinityNorm A);
  let A := SetDiagonalFrom A d in
  shift ← draw CallSampleBall (SampleBall (fopp gershCenter) (rmilli ⊗ offDiagInf));
  match rotation with
  | None => mret (A, UpdateDiagonal A shift)
  | Some F_of =>
      angle ← draw CallUniform (Uniform rzero (rofInt 2 ⊗ Pi));
      let gamma := F_of (Cos angle) (Sin angle) in
      mret (A, Scale gamma (UpdateDiagonal A shift))
  end.

(** [SpectralDivide( A )], lines 357-418 (and 483-547). *)
Definition SpectralDivide (s : Storage) (A : Matrix F)
    : Comp (ValueInt Real * Matrix F) :=
  '(A, G) ← generator A;
  '(part, A, _) ← RandomizedSignDivide s A G false default_maxIts default_relTol;
  mret (part, A).

(** [SpectralDivide( A, Q )], lines 420-481 (and 549-613): the generator
    is built in [Q]. *)
Definition SpectralDivide_vectors (s : Storage) (A Q : Matrix F)
    : Comp (ValueInt Real * Matrix F * Matrix F) :=
  '(A, Q) ← generator A;
  RandomizedSignDivide s A Q true default_maxIts default_relTol.

(** [SDC( A, cutoff )], lines 615-642 (and 686-717). *)
Fixpoint SDC (s : Storage) (fuel : nat) (A : Matrix F) (cutoff : Z)
    : Comp (Matrix F) :=
  match fuel with
  | O => raise NoFuel
  | Datatypes.S fuel =>
      let n := Height A in
      if n <=? cutoff then kernel CallSchurQR (schurQR A)
      else
        '(part, A) ← SpectralDivide s A;
        let '(ATL, ATR, ABL, ABR) := PartitionDownDiagonal A (index part) in
        ATL ← SDC s fuel ATL cutoff;
        ABR ← SDC s fuel ABR cutoff;
        mret (Merge2x2 ATL ATR ABL ABR)
  end.

(** [SDC( Matrix<F>& A, Matrix<F>& Q, formATR, cutoff )], lines 644-684. *)
Fixpoint SDC_vectors (fuel : nat) (A Q : Matrix F) (formATR : bool) (cutoff : Z)
    : Comp (Matrix F * Matrix F) :=
  match fuel with
  | O => raise NoFuel
  | Datatypes.S fuel =>
      let n := Height A in
      if n <=? cutoff then kernel CallSchurQR (schurQR_vectors A formATR)
      else
        '(part, A, Q) ← SpectralDivide_vectors Sequential A Q;
        let '(ATL, ATR, ABL, ABR) := PartitionDownDiagonal A (index part) in
        let '(QL, QR) := PartitionRight Q (index part) in
        let Z := emptyMatrix in
        '(ATL, Z) ← SDC_vectors fuel ATL Z formATR cutoff;
        let G := QL in
        QL ← kernel CallGemm (Gemm NORMAL NORMAL fone G Z);
        G ← (if formATR then kernel CallGemm (Gemm ADJOINT NORMAL fone Z ATR)
             else mret G);
        '(ABR, Z) ← SDC_vectors fuel ABR Z formATR cutoff;
        ATR ← (if formATR then kernel CallGemm (Gemm NORMAL NORMAL fone G Z)
               else mret ATR);
        let G := QR in
        QR ← kernel CallGemm (Gemm NORMAL NORMAL fone G Z);
        mret (Merge2x2 ATL ATR ABL ABR, Merge1x2 QL QR)
  end.

(** [SDC( DistMatrix<F>& A, DistMatrix<F>& Q, formATR, cutoff )],
    lines 719-768, on the global contents. *)
Fixpoint SDC_vectors_Dist (r c : Z) (fuel : nat) (A Q : Matrix F)
    (formATR : bool) (cutoff : Z) : Comp (Matrix F * Matrix F) :=
  match fuel with
  | O => raise NoFuel
  | Datatypes.S fuel =>
      let n := Height A in
      if n <=? cutoff then kernel CallSchurQR (schurQR_vectors A formATR)
      else
        '(part, A, Q) ← SpectralDivide_vectors (Distributed r c) A Q;
        let '(ATL, ATR, ABL, ABR) := PartitionDownDiagonal A (index part) in
        let '(QL, QR) := PartitionRight Q (index part) in
        '(ATL, ZT) ← SDC_vectors_Dist r c fuel ATL emptyMatrix formATR cutoff;
        '(ABR, ZB) ← SDC_vectors_Dist r c fuel ABR emptyMatrix formATR cutoff;
        let G := QL in
        QL ← kernel CallGemm (Gemm NORMAL NORMAL fone G ZT);
        let G := QR in
        QR ← kernel CallGemm (Gemm NORMAL NORMAL fone G ZB);
        ATR ← (if formATR then
                 G ← kernel CallGemm (Gemm ADJOINT NORMAL fone ZT ATR);
                 kernel CallGemm (Gemm NORMAL NORMAL fone G ZB)
               else mret ATR);
        mret (Merge2x2 ATL ATR ABL ABR, Merge1x2 QL QR)
  end.
End Core.

Arguments RSDState : clear implicits.

(** * The vocabulary of the statements

    None of the definitions below is code of the header: they name the
    quantities and the properties that the theorems speak of. *)

(** ** Finite sums, minima and vectors *)

Section SumsDef.
Context {Real : Type} `{RealOps Real}.

(** [rsum lo hi f] is the sum of [f k] for [lo <= k < hi], accumulated in
    increasing [k] the way a loop [acc += f(k)] does. *)
Fixpoint rsum_n (n : nat) (lo : Z) (f : Z → Real) : Real :=
  match n with
  | O => rzero
  | Datatypes.S m => rsum_n m lo f ⊕ f (lo + Z.of_nat m)
  end.

Definition rsum (lo hi : Z) (f : Z → Real) : Real :=
  rsum_n (Z.to_nat (hi - lo)) lo f.

(** [part] holds the first minimum of [N 0], ..., [N (m-1)]: its index is
    one more than the position, no entry is smaller than its value, and
    every earlier entry is larger. *)
Definition is_first_min (N : Z → Real) (m : Z) (part : ValueInt Real) : Prop :=
  1 ≤ index part ≤ m
  ∧ value part = N (index part - 1)
  ∧ (∀ k, 0 ≤ k < m → rltb (N k) (value part) = false)
  ∧ (∀ k, 0 ≤ k < index part - 1 → rltb (value part) (N k) = true).

(** [v] has [m] entries, entry [k] being [e k]. *)
Definition vec_is (m : Z) (v : list Real) (e : Z → Real) : Prop :=
  length v = Z.to_nat m ∧ ∀ k, 0 ≤ k < m → v !! Z.to_nat k = Some (e k).

(** The values [N 0], ..., [N (m-1)] compare consistently: among them [<]
    is irreflexive and transitive, and so is its complement.  Exact
    arithmetic has this for all values; binary64 has it for values none of
    which is a NaN. *)
Definition ordered_below (N : Z → Real) (m : Z) : Prop :=
  (∀ a, 0 ≤ a < m → rltb (N a) (N a) = false)
  ∧ (∀ a b c, 0 ≤ a < m → 0 ≤ b < m → 0 ≤ c < m →
       rltb (N a) (N b) = true → rltb (N b) (N c) = true →
       rltb (N a) (N c) = true)
  ∧ (∀ a b c, 0 ≤ a < m → 0 ≤ b < m → 0 ≤ c < m →
       rltb (N a) (N b) = false → rltb (N b) (N c) = false →
       rltb (N a) (N c) = false).

(** Sums and differences of zeros are zero, and zero is not below itself:
    all that the selector needs of the arithmetic on a matrix without
    entries below its diagonal.  Binary64 has these three. *)
Definition zero_sums : Prop :=
  rzero ⊕ rzero = rzero ∧ rzero ⊖ rzero = rzero ∧ rltb rzero rzero = false.
End SumsDef.

Arguments zero_sums Real {_}.

(** The reading of C4 with the range of the spec: the value returned is the
    minimum of the block sums of the positions [j] in [[0, m)] and the index
    is one of their minimizers. *)
Definition minimum_below {Real : Type} `{RealOps Real}
    (N : Z → Real) (m : Z) (part : ValueInt Real) : Prop :=
  ∃ j, 0 ≤ j < m ∧ index part = j + 1 ∧ value part = N j
     ∧ ∀ k, 0 ≤ k < m → rltb (N k) (value part) = false.

(** ** The sums that [ComputePartition] accumulates *)

Section PartitionSumsDef.
Context {F Real : Type} `{RealOps Real} `{Scalar F Real}.

(** Step 1 of the selector: magnitudes strictly below the diagonal in
    column [j]. *)
Definition colSum (A : Matrix F) (n j : Z) : Real :=
  rsum (j + 1) n (λ i, Abs (entry A i j)).

(** Step 2: magnitudes strictly left of the diagonal in row [i]. *)
Definition rowSum (A : Matrix F) (i : Z) : Real :=
  rsum 0 i (λ j, Abs (entry A i j)).

(** The bottom-left block cut off by a split at [j+1]: rows [i >= j+1],
    columns [k <= j]. *)
Definition blockSum (A : Matrix F) (n j : Z) : Real :=
  rsum (j + 1) n (λ i, rsum 0 (j + 1) (λ k, Abs (entry A i k))).

(** The running score of line 70 as the code computes it: the recurrence
    [norms[j] = norms[j-1] + colSums[j] - rowSums[j-1]] from
    [norms[0] = colSums[0]], each operation being that of [Real]. *)
Fixpoint score_n (A : Matrix F) (n : Z) (j : nat) : Real :=
  match j with
  | O => colSum A n 0
  | Datatypes.S k =>
      score_n A n k ⊕ colSum A n (Z.of_nat (Datatypes.S k))
                   ⊖ rowSum A (Z.of_nat (Datatypes.S k))
  end.

Definition score (A : Matrix F) (n j : Z) : Real := score_n A n (Z.to_nat j).
End PartitionSumsDef.

Definition block_sums_up_to {F Real : Type} `{RealOps Real} `{Scalar F Real}
    (m : Z) (A : Matrix F) (n : Z) : Prop :=
  ∃ norms part,
    ComputePartition_norms A = Ok (norms, part)
    ∧ ComputePartition A = Ok part
    ∧ (∀ j, 0 ≤ j < m → norms !! Z.to_nat j = Some (blockSum A n j))
    ∧ minimum_below (blockSum A n) m part.

(** C4 with the range of the code and the scores as they are computed: for
    every [j] in [[0, n-1)] the entry [norms[j]] is the running score; when
    the scores compare consistently the value returned is their minimum and
    the index is one more than the first position where it is attained;
    and in exact arithmetic the running score is the block sum. *)
Definition scores_minimized {F Real : Type} `{RealOps Real} `{Scalar F Real}
    (A : Matrix F) (n : Z) : Prop :=
  ∃ norms part,
    ComputePartition_norms A = Ok (norms, part)
    ∧ ComputePartition A = Ok part
    ∧ (∀ j, 0 ≤ j < n - 1 → norms !! Z.to_nat j = Some (score A n j))
    ∧ (ordered_below (score A n) (n - 1) → is_first_min (score A n) (n - 1) part)
    ∧ (RealLaws Real → ∀ j, 0 ≤ j < n - 1 → score A n j = blockSum A n j).

Section LocalSumsDef.
Context {F Real : Type} `{RealOps Real} `{Scalar F Real}.
Variables (D : DistMatrix F) (n : Z).

(** What the global entry [(i,j)] adds to [colSums[k]] and to
    [rowSums[k]] under the guards of lines 114 and 119. *)
Definition dC (k i j : Z) : Real :=
  if (j <? n - 1) && (j <? i)
  then (if k =? j then Abs (entry (Global D) i j) else rzero) else rzero.

Definition dR (k i j : Z) : Real :=
  if (j <? n - 1) && (j <? i)
  then (if k =? i - 1 then Abs (entry (Global D) i j) else rzero) else rzero.

Definition locInner (d : Z → Z → Z → Real) (p : Process) (k jLoc : Z) : Real :=
  rsum 0 (LocalHeight D p) (λ iLoc,
    d k (ColShift p + iLoc * ColStride D) (RowShift p + jLoc * RowStride D)).

Definition locSum (d : Z → Z → Z → Real) (p : Process) (k : Z) : Real :=
  rsum 0 (LocalWidth D p) (locInner d p k).
End LocalSumsDef.

(** ** Computations and the record of calls *)

Section AppendsDef.
Context {G : Type}.

(** A computation only adds to the record of calls. *)
Definition appends {A} (m : M G A) : Prop :=
  ∀ w, ∃ l, calls (m w).2 = calls w ++ l.
End AppendsDef.

(** ** Shapes *)

(** The shapes that the library routines leave: the in-place routines keep
    the shape of the matrix they overwrite, and [Gemm] sizes its result. *)
Class LinAlgShapes (F Real : Type) `{LinAlg F Real} : Prop := {
  Sign_shape : ∀ G, Height (Sign G) = Height G ∧ Width (Sign G) = Width G;
  elemQR_shape : ∀ G,
    Height (elemQR G).1 = Height G ∧ Width (elemQR G).1 = Width G;
  ApplyQ_shape : ∀ side o X t B,
    Height (ApplyQ side o X t B) = Height B ∧ Width (ApplyQ side o X t B) = Width B;
  Expand_shape : ∀ u v c o G t,
    Height (ExpandPackedReflectors u v c o G t) = Height G
    ∧ Width (ExpandPackedReflectors u v c o G t) = Width G;
  Gemm_Height : ∀ oA oB alpha A B,
    Height (Gemm oA oB alpha A B) =
      match oA with NORMAL => Height A | _ => Width A end;
  Gemm_Width : ∀ oA oB alpha A B,
    Width (Gemm oA oB alpha A B) =
      match oB with NORMAL => Width B | _ => Height B end
}.

Definition square {F} (n : Z) (A : Matrix F) : Prop := Height A = n ∧ Width A = n.

(** A distributed matrix lives on a grid with at least one process. *)
Definition Storage_ok (s : Storage) : Prop :=
  match s with
  | Sequential => True
  | Distributed r c => 1 ≤ r ∧ 1 ≤ c
  end.

(** ** The randomized split *)

Section SplitDef.
Context {F Real : Type} `{RealOps Real} `{Scalar F Real}
        `{LinAlg F Real} `{Overload F Real}.

(** The explicitly formed unitary matrix of a factorization [(G, t)]. *)
Definition explicitQ (G t : Matrix F) : Matrix F :=
  ExpandPackedReflectors LOWER VERTICAL UNCONJUGATED 0 G t.

(** [Q^H A Q] as the two branches of the source compute it. *)
Definition transformed (returnQ : bool) (A G t : Matrix F) : Matrix F :=
  if returnQ
  then Gemm NORMAL NORMAL fone (Gemm ADJOINT NORMAL fone (explicitQ G t) A)
            (explicitQ G t)
  else ApplyQ RIGHT NORMAL G t (ApplyQ LEFT ADJOINT G t A).

Definition similarity_calls (returnQ : bool) : list call :=
  if returnQ then [CallExpandPackedReflectors; CallGemm; CallGemm]
  else [CallApplyQ; CallApplyQ].

(** The factorization of an attempt: the randomized projector, factored. *)
Definition attempt_factor (S : Matrix F) (n : Z) (g : RNG) : Matrix F * Matrix F :=
  let '(V, t, _) := ImplicitHaar n g in elemQR (ApplyQ RIGHT NORMAL V t S).

Definition attempt_calls (returnQ : bool) : list call :=
  [CallImplicitHaar; CallApplyQ; CallQR] ++ similarity_calls returnQ
  ++ [CallComputePartition].

Section RetryDef.
Variables (s : Storage) (S : Matrix F) (n : Z) (oneA : Real)
          (returnQ : bool) (maxIts : Z) (relTol : Real).

Local Abbreviation attempt := (RSD_attempt s S n oneA returnQ).

(** One turn of the loop that goes on: an attempt that returns, whose
    value exceeds the tolerance and which is not the [maxIts]-th, then
    [A = V] and [++it]. *)
Definition RSD_step (x y : RSDState F Real * World RNG) : Prop :=
  rs_it x.1 < maxIts
  ∧ ∃ st1 part,
      attempt x.1 x.2 = (Ok st1, y.2)
      ∧ rs_part st1 = Some part
      ∧ rleb (value part) relTol = false
      ∧ rs_it st1 ≠ maxIts - 1
      ∧ y.1 = RSD_retry st1.

(** The same turn as a function: the state after it, and whether the
    loop goes on. *)
Definition RSD_next (x : RSDState F Real * World RNG)
    : RSDState F Real * World RNG :=
  match attempt x.1 x.2 with
  | (Ok st1, w1) => (RSD_retry st1, w1)
  | (Fault _, w1) => (x.1, w1)
  end.

Definition RSD_goes_on (x : RSDState F Real * World RNG) : bool :=
  (rs_it x.1 <? maxIts)
  && match attempt x.1 x.2 with
     | (Ok st1, _) => negb (RSD_stop maxIts relTol st1)
     | (Fault _, _) => false
     end.
End RetryDef.

(** [1/2 ( sgn(G) + I )] *)
Definition projected (G : Matrix F) : Matrix F :=
  Scale (fdiv fone (fofInt 2)) (UpdateDiagonal (Sign G) fone).

(** The state and the world in which the loop starts. *)
Definition RSD_entry (A G : Matrix F) : RSDState F Real :=
  mkRSD 0 A G emptyMatrix emptyMatrix emptyMatrix None.

Definition RSD_entry_world (w : World RNG) : World RNG :=
  record CallSign (record CallOneNorm w).

(** What a call of [RandomizedSignDivide] has done when it returns: [k]
    attempts failed the tolerance and were rolled back, attempt [k+1]
    ended the loop, and its result is what is returned. *)
Definition RSD_outcome (s : Storage) (A G : Matrix F) (returnQ : bool)
    (maxIts : Z) (relTol : Real) (w : World RNG) : Prop :=
  let n := Height A in
  let tol := effectiveTol n relTol in
  let S := projected G in
  let oneA := OneNorm A in
  ∃ (k : nat) stb wb st w' part,
    nsteps (RSD_step s S n oneA returnQ maxIts tol) k
      (RSD_entry A G, RSD_entry_world w) (stb, wb)
    ∧ RSD_attempt s S n oneA returnQ stb wb = (Ok st, w')
    ∧ rs_part st = Some part
    ∧ Z.of_nat k + 1 ≤ maxIts
    ∧ (rleb (value part) tol = true ∨ Z.of_nat k + 1 = maxIts)
    ∧ RandomizedSignDivide s A G returnQ maxIts relTol w
      = (Ok (part, rs_A st, rs_G st), w')
    ∧ calls w' = calls w ++ [CallOneNorm; CallSign]
                 ++ concat (replicate (Datatypes.S k) (attempt_calls returnQ)).

(** What C5 says of the attempt after [k] failed ones, from [y] to [z]:
    it restores [A] from the copy [V] saved in that attempt, which is the
    [A] the attempt started from and the [A] of the entry state [x]; and
    the loop goes on from [z]. *)
Definition restores_entry_A (s : Storage) (S : Matrix F) (n : Z) (oneA : Real)
    (returnQ : bool) (maxIts : Z) (relTol : Real) (k : nat)
    (x y z : RSDState F Real * World RNG) : Prop :=
  (∃ st1, RSD_attempt s S n oneA returnQ y.1 y.2 = (Ok st1, z.2)
        ∧ rs_V st1 = rs_A y.1 ∧ rs_A z.1 = rs_V st1)
  ∧ rs_A y.1 = rs_A x.1
  ∧ rs_A z.1 = rs_A x.1
  ∧ ∀ fuel, RSD_loop s S n oneA returnQ maxIts relTol
              (Datatypes.S k + fuel) x.1 x.2
            = RSD_loop s S n oneA returnQ maxIts relTol fuel z.1 z.2.

(** ** The generator of [SpectralDivide] *)

(** The center and the radius of the ball of the shift, and the draw. *)
Definition gershCenter (A : Matrix F) : F := fdiv (Trace A) (fofInt (Height A)).

Definition offDiagInf (A : Matrix F) : Real := InfinityNorm (SetDiagonal A fzero).

Definition drawn_shift (A : Matrix F) (g : RNG) : F * RNG :=
  SampleBall (fopp (gershCenter A)) (rmilli ⊗ offDiagInf A) g.

(** The rotation of the complex overloads, drawn after the shift. *)
Definition drawn_rotation (g : RNG) : option F * RNG :=
  match rotation with
  | None => (None, g)
  | Some F_of =>
      let '(angle, g') := Uniform rzero (rofInt 2 ⊗ Pi) g in
      (Some (F_of (Cos angle) (Sin angle)), g')
  end.

Definition generator_of (A : Matrix F) (g : RNG) : Matrix F :=
  let G := UpdateDiagonal A (drawn_shift A g).1 in
  match (drawn_rotation (drawn_shift A g).2).1 with
  | None => G
  | Some gamma => Scale gamma G
  end.

Definition generator_calls : list call :=
  [CallTrace; CallInfinityNorm; CallSampleBall]
  ++ match rotation with None => [] | Some _ => [CallUniform] end.

(** What C10 says of [SpectralDivide( A, Q )]: the result does not depend
    on [Q], and the [Q] returned is the explicitly formed unitary matrix of
    the factorization of the last attempt. *)
Definition vectors_outcome (s : Storage) (A Q : Matrix F) (w : World RNG) : Prop :=
  let G := generator_of A (rng w) in
  let S := projected G in
  let n := Height A in
  let w1 := mkWorld (drawn_rotation (drawn_shift A (rng w)).2).2
                    (calls w ++ generator_calls) in
  (∀ Q0, SpectralDivide_vectors s A Q0 w = SpectralDivide_vectors s A Q w)
  ∧ ∃ (k : nat) stb wb st w' part,
      SpectralDivide_vectors s A Q w = (Ok (part, rs_A st, rs_G st), w')
      ∧ nsteps (RSD_step s S n (OneNorm A) true default_maxIts
                  (effectiveTol n default_relTol)) k
          (RSD_entry A G, RSD_entry_world w1) (stb, wb)
      ∧ RSD_attempt s S n (OneNorm A) true stb wb = (Ok st, w')
      ∧ rs_G st = explicitQ (attempt_factor S n (rng wb)).1
                            (attempt_factor S n (rng wb)).2.

(** ** The driver *)

(** A computation fails fast from [w]: it reports a fault and has called
    no library routine and drawn no random number. *)
Definition fails_fast {X} (m : M RNG X) (w : World RNG) : Prop :=
  (∃ e, (m w).1 = Fault e) ∧ (m w).2 = w.

Definition logged (l : list call) : M RNG unit :=
  λ w, (Ok tt, mkWorld (rng w) (calls w ++ l)).

(** The stitch in the words of the spec: [Q_left := Q_left Z_TL],
    [Q_right := Q_right Z_BR] and, when the off-diagonal block is asked
    for, [ATR := Z_TL^H ATR Z_BR]. *)
Definition stitch (formATR : bool) (QL QR ATR Z_TL Z_BR : Matrix F)
    : Matrix F * Matrix F * Matrix F :=
  (Gemm NORMAL NORMAL fone QL Z_TL,
   Gemm NORMAL NORMAL fone QR Z_BR,
   if formATR
   then Gemm NORMAL NORMAL fone (Gemm ADJOINT NORMAL fone Z_TL ATR) Z_BR
   else ATR).

(** One level of the recursion as the spec tells it: split, recurse on the
    two diagonal quadrants, stitch.  [between] and [after] are the library
    calls recorded between and after the two recursive calls. *)
Definition stitched_level
    (split : M RNG (ValueInt Real * Matrix F * Matrix F))
    (recurseTL : Matrix F → M RNG (Matrix F * Matrix F))
    (recurseBR : Matrix F → Matrix F → M RNG (Matrix F * Matrix F))
    (formATR : bool) (between after : list call) : M RNG (Matrix F * Matrix F) :=
  '(part, A, Q) ← split;
  let '(ATL, ATR, ABL, ABR) := PartitionDownDiagonal A (index part) in
  let '(QL, QR) := PartitionRight Q (index part) in
  '(ATL', Z_TL) ← recurseTL ATL;
  _ ← logged between;
  '(ABR', Z_BR) ← recurseBR ABR Z_TL;
  _ ← logged after;
  let '(QL', QR', ATR') := stitch formATR QL QR ATR Z_TL Z_BR in
  mret (Merge2x2 ATL' ATR' ABL ABR', Merge1x2 QL' QR').

Definition gemms (k : nat) : list call := replicate k CallGemm.

(** What C6 says of one level of [SDC] with vectors, for the overload on
    [Matrix] and for the one on [DistMatrix]. *)
Definition stitches (r c : Z) (fuel : nat) (A Q : Matrix F) (formATR : bool)
    (cutoff : Z) (w : World RNG) : Prop :=
  SDC_vectors (Datatypes.S fuel) A Q formATR cutoff w =
    stitched_level (SpectralDivide_vectors Sequential A Q)
      (λ ATL, SDC_vectors fuel ATL emptyMatrix formATR cutoff)
      (λ ABR Z, SDC_vectors fuel ABR Z formATR cutoff)
      formATR (gemms (if formATR then 2 else 1)) (gemms (if formATR then 2 else 1)) w
  ∧ SDC_vectors_Dist r c (Datatypes.S fuel) A Q formATR cutoff w =
    stitched_level (SpectralDivide_vectors (Distributed r c) A Q)
      (λ ATL, SDC_vectors_Dist r c fuel ATL emptyMatrix formATR cutoff)
      (λ ABR _, SDC_vectors_Dist r c fuel ABR emptyMatrix formATR cutoff)
      formATR [] (gemms (if formATR then 4 else 2)) w.
End SplitDef.

(** ** What the selector reads *)

Section SelectorDef.
Context {F Real : Type} `{RealOps Real} `{Scalar F Real}.

(** Two matrices of one shape whose entries strictly below the diagonal
    have the same magnitudes. *)
Definition same_below_diagonal (A B : Matrix F) : Prop :=
  Height A = Height B ∧ Width A = Width B
  ∧ ∀ i j, j < i → Abs (entry A i j) = Abs (entry B i j).

(** No magnitude strictly below the diagonal: an upper triangular matrix. *)
Definition upper_triangular (A : Matrix F) : Prop :=
  ∀ i j, j < i → Abs (entry A i j) = rzero.

(** No magnitude off the diagonal: a diagonal matrix. *)
Definition off_diagonal_zero (A : Matrix F) : Prop :=
  ∀ i j, i ≠ j → Abs (entry A i j) = rzero.
End SelectorDef.

(** ** What a call of the randomized split leaves *)

Section SplitResultDef.
Context {F Real : Type} `{RealOps Real} `{Scalar F Real}
        `{LinAlg F Real} `{Overload F Real}.

(** The state of the generator after [k] attempts on matrices of size [n]:
    an attempt draws one implicit Haar matrix and nothing else. *)
Definition after_attempts (n : Z) (k : nat) (g : RNG) : RNG :=
  Nat.iter k (λ g, (ImplicitHaar n g).2) g.

(** What [RandomizedSignDivide] returns when its attempt number [k+1] is
    the last: the similarity transform of the [A] of the entry by the
    factor of that attempt alone, the partition of this matrix with its
    value divided by the one-norm of the [A] of the entry, and in [G] the
    factor, explicit or packed. *)
Definition RSD_result (s : Storage) (A G : Matrix F) (returnQ : bool) (k : nat)
    (g : RNG) : Result (ValueInt Real * Matrix F * Matrix F) :=
  let n := Height A in
  let Gt := attempt_factor (projected G) n (after_attempts n k g) in
  let A' := transformed returnQ A Gt.1 Gt.2 in
  part ← ComputePartitionOn s A';
  Ok (mkValueInt (value part ⊘ OneNorm A) (index part), A',
      if returnQ then explicitQ Gt.1 Gt.2 else Gt.1).
End SplitResultDef.

(** ** The split of a matrix without off-diagonal part *)

Section DegenerateDef.
Context {F Real : Type} `{RealOps Real} `{Scalar F Real}
        `{LinAlg F Real} `{Overload F Real}.

(** The state of the generator when [SpectralDivide( A )] enters the loop
    of [RandomizedSignDivide], and [Q^H A Q] for the [Q] of its first
    attempt. *)
Definition split_rng (A : Matrix F) (g : RNG) : RNG :=
  (drawn_rotation (drawn_shift A g).2).2.

Definition first_transformed (A : Matrix F) (g : RNG) : Matrix F :=
  let Gt := attempt_factor (projected (generator_of A g)) (Height A)
              (split_rng A g) in
  transformed false A Gt.1 Gt.2.

(** C9 in two parts: the split returns before the sign function is
    computed; and it returns a value that is near zero, which is read as
    within the tolerance [50*n*MachineEpsilon] that the split itself
    accepts. *)
Definition returns_early (s : Storage) (A : Matrix F) (w : World RNG) : Prop :=
  CallSign ∉ calls (SpectralDivide s A w).2.

Definition near_zero_split (s : Storage) (A : Matrix F) (w : World RNG) : Prop :=
  ∃ part A' w',
    SpectralDivide s A w = (Ok (part, A'), w')
    ∧ rleb (value part) (effectiveTol (Height A) default_relTol) = true.

(** The split that ends with its first attempt: after the generator, the
    one-norm and the sign function, one complete attempt and nothing else;
    the value is 0 divided by the one-norm of [A], at the first split. *)
Definition splits_at_first_attempt (s : Storage) (A : Matrix F) (w : World RNG)
    : Prop :=
  SpectralDivide s A w
  = (Ok (mkValueInt (rzero ⊘ OneNorm A) 1, first_transformed A (rng w)),
     mkWorld (ImplicitHaar (Height A) (split_rng A (rng w))).2
       (calls w ++ generator_calls ++ [CallOneNorm; CallSign]
        ++ attempt_calls false)).
End DegenerateDef.

(** ** Shapes left by the solvers *)

(** The pivoted QR factorization overwrites [G] in place, and the dense
    Schur solver leaves the Schur form in [A] and, when asked for them, the
    Schur vectors in a square matrix of the size of [A]. *)
Class SolverShapes (F Real : Type) `{LinAlg F Real} : Prop := {
  pivotedQR_shape : ∀ G,
    Height (pivotedQR G).1.1 = Height G ∧ Width (pivotedQR G).1.1 = Width G;
  schurQR_shape : ∀ A,
    Height (schurQR A) = Height A ∧ Width (schurQR A) = Width A;
  schurQR_vectors_shape : ∀ A formATR,
    (Height (schurQR_vectors A formATR).1 = Height A
     ∧ Width (schurQR_vectors A formATR).1 = Width A)
    ∧ (Height (schurQR_vectors A formATR).2 = Height A
       ∧ Width (schurQR_vectors A formATR).2 = Height A)
}.

Section SignDivideDef.
Context {F Real : Type} `{RealOps Real} `{Scalar F Real}
        `{LinAlg F Real} `{Overload F Real}.

(** What [SignDivide] returns: the similarity transform of [A] by the [Q]
    of the pivoted factorization of the projector, the partition of this
    matrix with its value divided by the one-norm of the [A] of the entry,
    and in [G] the factor, explicit or packed. *)
Definition SignDivide_result (s : Storage) (A G : Matrix F) (returnQ : bool)
    : Result (ValueInt Real * Matrix F * Matrix F) :=
  let Gt := (pivotedQR (projected G)).1 in
  let A' := transformed returnQ A Gt.1 Gt.2 in
  part ← ComputePartitionOn s A';
  Ok (mkValueInt (value part ⊘ OneNorm A) (index part), A',
      if returnQ then explicitQ Gt.1 Gt.2 else Gt.1).
End SignDivideDef.

(** ** The driver with vectors, by storage *)

Section DriverDispatch.
Context {F Real : Type} `{RealOps Real} `{Scalar F Real}
        `{LinAlg F Real} `{Overload F Real}.

(** The overload of [SDC( A, Q, formATR, cutoff )] that the storage of its
    arguments selects. *)
Definition SDC_vectors_on (s : Storage) (fuel : nat) (A Q : Matrix F)
    (formATR : bool) (cutoff : Z) : M RNG (Matrix F * Matrix F) :=
  match s with
  | Sequential => SDC_vectors fuel A Q formATR cutoff
  | Distributed r c => SDC_vectors_Dist r c fuel A Q formATR cutoff
  end.
End DriverDispatch.

(** ** Scalars and reference kernels for evaluation *)

#[export] Instance Qc_RealOps : RealOps Qc := {|
  rzero := Q2Qc 0; rone := Q2Qc 1;
  radd := Qcplus; rmul := Qcmult; rsub := Qcminus; ropp := Qcopp;
  rdiv := Qcdiv;
  rabs := λ a, if bool_decide (a < Q2Qc 0)%Qc then Qcopp a else a;
  rltb := λ a b, bool_decide (a < b)%Qc;
  rleb := λ a b, bool_decide (a <= b)%Qc;
  reqb := λ a b, bool_decide (a = b);
  rofInt := λ k, Q2Qc (inject_Z k);
  rmilli := Q2Qc (1 # 1000);
  MachineEpsilon := Q2Qc (1 # 4503599627370496);
  Pi := Q2Qc (355 # 113);
  Cos := λ _, Q2Qc 1;
  Sin := λ _, Q2Qc 0
|}.

(** A matrix of integers, by rows. *)
Definition ofRows (rows : list (list Z)) (h w : Z) : Matrix Qc :=
  mkMatrix h w
    (λ i j, Q2Qc (inject_Z (nth (Z.to_nat j) (nth (Z.to_nat i) rows []) 0%Z))).

Definition eye (h w : Z) : Matrix Qc :=
  mkMatrix h w (λ i j, if i =? j then Q2Qc 1 else Q2Qc 0).

Definition identityMatrix (n : Z) : Matrix Qc := eye n n.

(** Kernels that transform nothing: every factorization has [Q = I], the
    sign of a matrix is the matrix, and a random draw is its center. *)
#[export] Instance Idle_LinAlg : LinAlg Qc Qc := {|
  RNG := nat;
  Trace := λ A, rsum 0 (Height A) (λ i, entry A i i);
  InfinityNorm := λ A,
    foldr (λ i m, let x := rsum 0 (Width A) (λ j, rabs (entry A i j)) in
                  if rltb m x then x else m) rzero (seqZ 0 (Height A));
  OneNorm := λ A,
    foldr (λ j m, let x := rsum 0 (Height A) (λ i, rabs (entry A i j)) in
                  if rltb m x then x else m) rzero (seqZ 0 (Width A));
  Sign := λ G, G;
  elemQR := λ G, (G, emptyMatrix);
  pivotedQR := λ G, (G, emptyMatrix, mkMatrix 0 0 (λ _ _, 0%Z));
  ApplyQ := λ _ _ _ _ B, B;
  ExpandPackedReflectors := λ _ _ _ _ G _, eye (Height G) (Width G);
  Gemm := λ oA oB alpha A B,
    let opA i k := match oA with NORMAL => entry A i k | _ => entry A k i end in
    let opB k j := match oB with NORMAL => entry B k j | _ => entry B j k end in
    mkMatrix (match oA with NORMAL => Height A | _ => Width A end)
             (match oB with NORMAL => Width B | _ => Height B end)
             (λ i j, alpha ⊗ rsum 0 (match oA with NORMAL => Width A | _ => Height A end)
                                 (λ k, opA i k ⊗ opB k j));
  ImplicitHaar := λ n g, (identityMatrix n, emptyMatrix, Datatypes.S g);
  SampleBall := λ center _ g, (center, Datatypes.S g);
  Uniform := λ a _ g, (a, Datatypes.S g);
  schurQR := λ A, A;
  schurQR_vectors := λ A _, (A, identityMatrix (Height A))
|}.

Definition world0 : World (@RNG Qc Qc Idle_LinAlg) := mkWorld O [].

(** A matrix whose split by the idle kernels misses every tolerance, and
    one without off-diagonal part. *)
Definition coupled2 : Matrix Qc := ofRows [[1;0];[3;2]] 2 2.

Definition diagonal2 : Matrix Qc := ofRows [[1;0];[0;2]] 2 2.

(** A 3 x 3 matrix whose best split is the last one, and a 4 x 4 matrix
    with entries below and above the diagonal. *)
Definition late3 : Matrix Qc := ofRows [[0;0;0];[1;0;0];[0;0;0]] 3 3.

Definition coupled4 : Matrix Qc :=
  ofRows [[0;0;0;1];[1;0;0;1];[2;1;0;3];[4;0;0;5]] 4 4.

(** What an evaluation shows of a partition: its index and its value as a
    fraction. *)
Definition shown (r : Result (ValueInt Qc)) : Result (Z * Q) :=
  p ← r; Ok (index p, Qcanon.this (value p)).

(** A matrix with one entry, and a matrix with three rows and one column. *)
Definition single5 : Matrix Qc := ofRows [[5]] 1 1.

Definition tall3 : Matrix Qc := ofRows [[1];[2];[3]] 3 1.

(** *** Binary64 *)

(** [Real(k)] for a machine integer [k]. *)
Definition float_ofZ (k : Z) : float :=
  match k with
  | Z0 => PrimFloat.zero
  | Zpos p => PrimFloat.of_uint63 (Uint63.of_Z (Zpos p))
  | Zneg p => PrimFloat.opp (PrimFloat.of_uint63 (Uint63.of_Z (Zpos p)))
  end.

(** [Real = double]: the operations of IEEE 754 binary64, rounding to
    nearest, with [MachineEpsilon = 2^-53]. *)
#[export] Instance Float_RealOps : RealOps float | 10 := {|
  rzero := PrimFloat.zero; rone := PrimFloat.one;
  radd := PrimFloat.add; rmul := PrimFloat.mul; rsub := PrimFloat.sub;
  ropp := PrimFloat.opp; rdiv := PrimFloat.div; rabs := PrimFloat.abs;
  rltb := PrimFloat.ltb; rleb := PrimFloat.leb; reqb := PrimFloat.eqb;
  rofInt := float_ofZ;
  rmilli := PrimFloat.div PrimFloat.one (float_ofZ 1000);
  MachineEpsilon := 0x1p-53%float;
  Pi := 0x1.921fb54442d18p+1%float;
  Cos := λ _, PrimFloat.one;
  Sin := λ _, PrimFloat.zero
|}.

(** *** Matrices over any scalars *)

(** A matrix of integers, by rows. *)
Definition ofRowsIn (Real : Type) `{RealOps Real} (rows : list (list Z)) (h w : Z)
    : Matrix Real :=
  mkMatrix h w (λ i j, rofInt (nth (Z.to_nat j) (nth (Z.to_nat i) rows []) 0%Z)).

(** The diagonal matrix of 1, 2, ..., [n], and the zero matrix. *)
Definition diagonalOf (Real : Type) `{RealOps Real} (n : Z) : Matrix Real :=
  mkMatrix n n (λ i j, if i =? j then rofInt (i + 1) else rzero).

Definition zeroOf (Real : Type) `{RealOps Real} (n : Z) : Matrix Real :=
  mkMatrix n n (λ _ _, rzero).

(** A 3 x 3 matrix whose block sums are both [2^53 + 1]. *)
Definition big3_rows : list (list Z) :=
  [[0;0;0];[1;0;0];[9007199254740992;1;0]].

Definition big3 : Matrix float := ofRowsIn float big3_rows 3 3.

(** A 4 x 4 matrix whose first column holds 1, [2^53] and 1 below the
    diagonal: its sum depends on the order of the additions. *)
Definition uneven4 : Matrix float :=
  ofRowsIn float [[0;0;0;0];[1;0;0;0];[9007199254740992;0;0;0];[1;0;0;0]] 4 4.

(** *** The reference kernels over any scalars *)

Section ReferenceKernels.
Context {Real : Type} `{RealOps Real}.

(** The kernels of [Idle_LinAlg], with the application of the [Q] of a
    factorization left open: [applyQ LEFT B] stands for [Q^H B] and
    [applyQ RIGHT B] for [B Q]. *)
Definition Reference_LinAlg (applyQ : LeftOrRight → Matrix Real → Matrix Real)
    : LinAlg Real Real := {|
  RNG := nat;
  Trace := λ A, rsum 0 (Height A) (λ i, entry A i i);
  InfinityNorm := λ A,
    foldr (λ i m, let x := rsum 0 (Width A) (λ j, rabs (entry A i j)) in
                  if rltb m x then x else m) rzero (seqZ 0 (Height A));
  OneNorm := λ A,
    foldr (λ j m, let x := rsum 0 (Height A) (λ i, rabs (entry A i j)) in
                  if rltb m x then x else m) rzero (seqZ 0 (Width A));
  Sign := λ G, G;
  elemQR := λ G, (G, emptyMatrix);
  pivotedQR := λ G, (G, emptyMatrix, mkMatrix 0 0 (λ _ _, 0%Z));
  ApplyQ := λ side _ _ _ B, applyQ side B;
  ExpandPackedReflectors := λ _ _ _ _ G _,
    mkMatrix (Height G) (Width G) (λ i j, if i =? j then rone else rzero);
  Gemm := λ oA oB alpha A B,
    let opA i k := match oA with NORMAL => entry A i k | _ => entry A k i end in
    let opB k j := match oB with NORMAL => entry B k j | _ => entry B j k end in
    mkMatrix (match oA with NORMAL => Height A | _ => Width A end)
             (match oB with NORMAL => Width B | _ => Height B end)
             (λ i j, alpha ⊗ rsum 0 (match oA with NORMAL => Width A | _ => Height A end)
                                 (λ k, opA i k ⊗ opB k j));
  ImplicitHaar := λ n g,
    (mkMatrix n n (λ i j, if i =? j then rone else rzero), emptyMatrix,
     Datatypes.S g);
  SampleBall := λ center _ g, (center, Datatypes.S g);
  Uniform := λ a _ g, (a, Datatypes.S g);
  schurQR := λ A, A;
  schurQR_vectors := λ A _,
    (A, mkMatrix (Height A) (Height A) (λ i j, if i =? j then rone else rzero))
|}.
End ReferenceKernels.

(** The idle kernels on binary64. *)
#[export] Instance Float_LinAlg : LinAlg float float | 10 :=
  Reference_LinAlg (λ _ B, B).

Definition worldF : World (@RNG float float Float_LinAlg) := mkWorld O [].

(** Kernels whose factorizations all have the same [Q], whatever they
    factor: the rotation of the plane by the angle of the 3-4-5 triangle.
    A unitary [Q], and not one that separates anything. *)
Definition rot345 : Matrix Qc :=
  mkMatrix 2 2 (λ i j, if i =? j then Q2Qc (3 # 5)
                       else if i <? j then Q2Qc (-4 # 5) else Q2Qc (4 # 5)).

Definition turn (side : LeftOrRight) (B : Matrix Qc) : Matrix Qc :=
  match side with
  | LEFT => Gemm ADJOINT NORMAL rone rot345 B
  | RIGHT => Gemm NORMAL NORMAL rone B rot345
  end.

Definition Turn_LinAlg : LinAlg Qc Qc := Reference_LinAlg turn.

(** * Facts and theorems *)

(** ** Basic facts on results, loops and vectors *)

Lemma bind_Ok {A B} (f : A → Result B) (a : A) : (Ok a ≫= f) = f a.
Proof. reflexivity. Qed.

Lemma bind_Fault {A B} (f : A → Result B) (e : fault) : (Fault e ≫= f) = Fault e.
Proof. reflexivity. Qed.

Lemma bind_Ok_inv {A B} (f : A → Result B) (m : Result A) (b : B) :
  (m ≫= f) = Ok b → ∃ a, m = Ok a ∧ f a = Ok b.
Proof. destruct m as [a|e]; [eauto | discriminate]. Qed.

Section Loops.
Context {S : Type}.
Implicit Types (body : Z → S → Result S) (s : S).

Lemma for_range_ge lo hi body s : hi ≤ lo → for_range lo hi body s = Ok s.
Proof.
  intros Hle. unfold for_range.
  replace (Z.to_nat (hi - lo)) with O by lia. reflexivity.
Qed.

Lemma for_range_step lo hi body s :
  lo < hi →
  for_range lo hi body s = (s' ← body lo s; for_range (lo + 1) hi body s').
Proof.
  intros Hlt. unfold for_range.
  replace (Z.to_nat (hi - lo)) with (Datatypes.S (Z.to_nat (hi - (lo + 1)))) by lia.
  reflexivity.
Qed.

(** The invariant rule of a counted loop, for total correctness. *)
Lemma for_range_inv (Inv : Z → S → Prop) lo hi body s :
  lo ≤ hi →
  Inv lo s →
  (∀ i s, lo ≤ i < hi → Inv i s → ∃ s', body i s = Ok s' ∧ Inv (i + 1) s') →
  ∃ s', for_range lo hi body s = Ok s' ∧ Inv hi s'.
Proof.
  intros Hle Hinit Hstep.
  remember (Z.to_nat (hi - lo)) as k eqn:Hk.
  revert lo s Hle Hinit Hstep Hk.
  induction k as [|k IH]; intros lo s Hle Hinit Hstep Hk.
  - assert (lo = hi) as -> by lia.
    exists s. split; [apply for_range_ge; lia | exact Hinit].
  - assert (lo < hi) as Hlt by lia.
    destruct (Hstep lo s ltac:(lia) Hinit) as (s1 & Hb & Hi1).
    destruct (IH (lo + 1) s1) as (s2 & Hr & Hi2); try lia; try assumption.
    { intros i s0 Hi. apply Hstep. lia. }
    exists s2. split; [|exact Hi2].
    rewrite for_range_step by exact Hlt. rewrite Hb. exact Hr.
Qed.

(** Two loops with bodies that agree on the range do the same. *)
Lemma for_range_ext lo hi body1 body2 s :
  (∀ i s, lo ≤ i < hi → body1 i s = body2 i s) →
  for_range lo hi body1 s = for_range lo hi body2 s.
Proof.
  intros Hext. unfold for_range.
  remember (Z.to_nat (hi - lo)) as k eqn:Hk.
  revert lo s Hext Hk. induction k as [|k IH]; intros lo s Hext Hk; [reflexivity|].
  simpl. rewrite Hext by lia. destruct (body2 lo s) as [s1|e]; [|reflexivity].
  simpl. apply IH; [|lia]. intros i s0 Hi. apply Hext. lia.
Qed.
End Loops.

Section VectorFacts.
Context {Real : Type} `{RealOps Real}.
Implicit Types (v : list Real) (j k : Z) (x c : Real).

Lemma vget_lookup v j x :
  0 ≤ j → v !! Z.to_nat j = Some x → vget v j = Ok x.
Proof.
  intros Hj Hl. unfold vget.
  destruct (Z.leb_spec 0 j); [|lia]. rewrite Hl. reflexivity.
Qed.

Lemma vget_out v j : Z.of_nat (length v) ≤ j → vget v j = Fault OutOfRange.
Proof.
  intros Hj. unfold vget. destruct (0 <=? j); [|reflexivity].
  rewrite lookup_ge_None_2 by lia. reflexivity.
Qed.

Lemma vset_lookup v j x :
  0 ≤ j < Z.of_nat (length v) → vset v j x = Ok (<[Z.to_nat j := x]> v).
Proof.
  intros Hj. unfold vset.
  destruct (Z.leb_spec 0 j); [|lia].
  destruct (Z.ltb_spec j (Z.of_nat (length v))); [|lia]. reflexivity.
Qed.

Lemma vadd_lookup v j c x :
  0 ≤ j → v !! Z.to_nat j = Some c →
  vadd v j x = Ok (<[Z.to_nat j := c ⊕ x]> v).
Proof.
  intros Hj Hl. unfold vadd. rewrite (vget_lookup v j c Hj Hl), bind_Ok.
  apply vset_lookup. apply lookup_lt_Some in Hl. lia.
Qed.

Lemma lookup_insert_same v j x :
  0 ≤ j < Z.of_nat (length v) → <[Z.to_nat j := x]> v !! Z.to_nat j = Some x.
Proof. intros Hj. apply list_lookup_insert_eq. lia. Qed.

Lemma lookup_insert_other v j k x :
  0 ≤ j → 0 ≤ k → j ≠ k → <[Z.to_nat j := x]> v !! Z.to_nat k = v !! Z.to_nat k.
Proof. intros Hj Hk Hne. apply list_lookup_insert_ne. lia. Qed.

Lemma lookup_zeros (n : nat) k :
  0 ≤ k < Z.of_nat n → replicate n rzero !! Z.to_nat k = Some rzero.
Proof. intros Hk. apply lookup_replicate_2. lia. Qed.
End VectorFacts.

(** ** Finite sums, whatever the arithmetic *)

Section SumsAnyArithmetic.
Context {Real : Type} `{RealOps Real}.
Implicit Types (f g : Z → Real).

Lemma rsum_empty lo hi f : hi ≤ lo → rsum lo hi f = rzero.
Proof.
  intros Hle. unfold rsum. replace (Z.to_nat (hi - lo)) with O by lia.
  reflexivity.
Qed.

Lemma rsum_snoc lo hi f :
  lo ≤ hi → rsum lo (hi + 1) f = rsum lo hi f ⊕ f hi.
Proof.
  intros Hle. unfold rsum.
  replace (Z.to_nat (hi + 1 - lo)) with (Datatypes.S (Z.to_nat (hi - lo))) by lia.
  simpl. do 2 f_equal. lia.
Qed.

Lemma rsum_n_ext n lo f g :
  (∀ k, lo ≤ k < lo + Z.of_nat n → f k = g k) → rsum_n n lo f = rsum_n n lo g.
Proof.
  induction n as [|n IH]; intros Hfg; [reflexivity|].
  simpl. rewrite IH, Hfg; [reflexivity | lia |].
  intros k Hk. apply Hfg. lia.
Qed.

Lemma rsum_ext lo hi f g :
  (∀ k, lo ≤ k < hi → f k = g k) → rsum lo hi f = rsum lo hi g.
Proof. intros Hfg. apply rsum_n_ext. intros k Hk. apply Hfg. lia. Qed.

Lemma rsum_n_shift n lo f :
  rsum_n n (lo + 1) f = rsum_n n lo (λ k, f (k + 1)).
Proof.
  induction n as [|n IH]; [reflexivity|].
  simpl. rewrite IH. do 2 f_equal. lia.
Qed.

(** A sum of zeros. *)
Lemma rsum_zeros lo hi f :
  rzero ⊕ rzero = rzero → (∀ k, lo ≤ k < hi → f k = rzero) →
  rsum lo hi f = rzero.
Proof.
  intros Hz. unfold rsum.
  assert (∀ m, (∀ k, lo ≤ k < lo + Z.of_nat m → f k = rzero) →
               rsum_n m lo f = rzero) as Hall.
  { induction m as [|m IH]; intros Hf; [reflexivity|].
    simpl. rewrite IH, Hf; [exact Hz | lia |].
    intros k Hk. apply Hf. lia. }
  intros Hf. apply Hall. intros k Hk. apply Hf. lia.
Qed.
End SumsAnyArithmetic.

(** ** Finite sums in exact arithmetic *)

Section Sums.
Context {Real : Type} `{RealLaws Real}.

Add Ring RealRing : real_ring.

Lemma rsum_n_cons n lo f :
  rsum_n (Datatypes.S n) lo f = f lo ⊕ rsum_n n (lo + 1) f.
Proof.
  induction n as [|n IH].
  - simpl. replace (lo + Z.of_nat 0) with lo by lia. ring.
  - change (rsum_n (Datatypes.S (Datatypes.S n)) lo f)
      with (rsum_n (Datatypes.S n) lo f ⊕ f (lo + Z.of_nat (Datatypes.S n))).
    rewrite IH. simpl.
    replace (lo + 1 + Z.of_nat n) with (lo + Z.of_nat (Datatypes.S n)) by lia.
    ring.
Qed.

Lemma rsum_cons lo hi f :
  lo < hi → rsum lo hi f = f lo ⊕ rsum (lo + 1) hi f.
Proof.
  intros Hlt. unfold rsum.
  replace (Z.to_nat (hi - lo)) with (Datatypes.S (Z.to_nat (hi - (lo + 1)))) by lia.
  apply rsum_n_cons.
Qed.

Lemma rsum_zero lo hi : rsum lo hi (λ _, rzero) = rzero.
Proof.
  unfold rsum. induction (Z.to_nat (hi - lo)) as [|n IH]; [reflexivity|].
  simpl. rewrite IH. ring.
Qed.

Lemma rsum_add lo hi f g :
  rsum lo hi (λ k, f k ⊕ g k) = rsum lo hi f ⊕ rsum lo hi g.
Proof.
  unfold rsum. induction (Z.to_nat (hi - lo)) as [|n IH]; simpl.
  - ring.
  - rewrite IH. ring.
Qed.

Lemma rsum_split lo mid hi f :
  lo ≤ mid → mid ≤ hi → rsum lo hi f = rsum lo mid f ⊕ rsum mid hi f.
Proof.
  intros Hlo Hhi.
  remember (Z.to_nat (hi - mid)) as k eqn:Hk.
  revert hi Hhi Hk. induction k as [|k IH]; intros hi Hhi Hk.
  - assert (hi = mid) as -> by lia. rewrite (rsum_empty mid mid) by lia. ring.
  - replace hi with (hi - 1 + 1) by lia.
    rewrite !rsum_snoc by lia. rewrite (IH (hi - 1)) by lia. ring.
Qed.

Lemma rsum_swap lo1 hi1 lo2 hi2 (f : Z → Z → Real) :
  rsum lo1 hi1 (λ i, rsum lo2 hi2 (λ j, f i j)) =
  rsum lo2 hi2 (λ j, rsum lo1 hi1 (λ i, f i j)).
Proof.
  unfold rsum at 1 4.
  induction (Z.to_nat (hi1 - lo1)) as [|n IH]; simpl.
  - symmetry. apply rsum_zero.
  - rewrite IH. symmetry. apply rsum_add.
Qed.

(** A sum with a single selected index. *)
Lemma rsum_single lo hi m (f : Z → Real) :
  lo ≤ m < hi → rsum lo hi (λ k, if k =? m then f k else rzero) = f m.
Proof.
  intros Hm.
  rewrite (rsum_split lo m hi) by lia.
  rewrite (rsum_cons m hi) by lia.
  rewrite Z.eqb_refl.
  rewrite (rsum_ext lo m _ (λ _, rzero)), rsum_zero.
  2:{ intros k Hk. destruct (Z.eqb_spec k m); [lia | reflexivity]. }
  rewrite (rsum_ext (m + 1) hi _ (λ _, rzero)), rsum_zero.
  2:{ intros k Hk. destruct (Z.eqb_spec k m); [lia | reflexivity]. }
  ring.
Qed.

Lemma rsum_none lo hi m (f : Z → Real) :
  ¬ (lo ≤ m < hi) → rsum lo hi (λ k, if k =? m then f k else rzero) = rzero.
Proof.
  intros Hm. rewrite (rsum_ext lo hi _ (λ _, rzero)), rsum_zero; [reflexivity|].
  intros k Hk. destruct (Z.eqb_spec k m); [lia | reflexivity].
Qed.
End Sums.

(** ** What [ComputePartition] computes *)

Ltac zcases :=
  repeat match goal with
    | |- context [?a <? ?b] => destruct (Z.ltb_spec a b)
    | |- context [?a =? ?b] => destruct (Z.eqb_spec a b)
    | |- context [?a <=? ?b] => destruct (Z.leb_spec a b)
    end; try lia; try reflexivity.

Lemma Get_in {F} (A : Matrix F) (i j : Z) :
  0 ≤ i < Height A → 0 ≤ j < Width A → Get A i j = Ok (entry A i j).
Proof. intros Hi Hj. unfold Get. zcases. Qed.

Section Loops_empty.
Context {S : Type}.

(** The invariant rule, also for an empty range. *)
Lemma for_range_inv_max (Inv : Z → S → Prop) lo hi
    (body : Z → S → Result S) (s : S) :
  Inv lo s →
  (∀ i s, lo ≤ i < hi → Inv i s → ∃ s', body i s = Ok s' ∧ Inv (i + 1) s') →
  ∃ s', for_range lo hi body s = Ok s' ∧ Inv (Z.max lo hi) s'.
Proof.
  intros Hinit Hstep. destruct (Z.le_gt_cases lo hi) as [Hle|Hgt].
  - rewrite Z.max_r by lia. apply for_range_inv; assumption.
  - rewrite Z.max_l by lia. exists s. split; [apply for_range_ge; lia | exact Hinit].
Qed.
End Loops_empty.

(** The two accumulations use no law of the arithmetic: [colSums[j]] and
    [rowSums[i-1]] are the sums in the order of the loops. *)
Section PartitionSums.
Context {F Real : Type} `{RealOps Real} `{Scalar F Real}.

Lemma colSums_seq_spec (A : Matrix F) (n : Z) :
  Height A = n → n - 1 ≤ Width A →
  ∃ cs, colSums_seq A n (replicate (Z.to_nat (n - 1)) rzero) = Ok cs
      ∧ length cs = Z.to_nat (n - 1)
      ∧ ∀ j, 0 ≤ j < n - 1 → cs !! Z.to_nat j = Some (colSum A n j).
Proof.
  intros Hh Hw. unfold colSums_seq.
  destruct (for_range_inv_max
    (λ j cs, length cs = Z.to_nat (n - 1)
           ∧ ∀ k, 0 ≤ k < n - 1 →
               cs !! Z.to_nat k = Some (if k <? j then colSum A n k else rzero))
    0 (n - 1)
    (λ j colSums, for_range (j + 1) n (λ i colSums,
       a ← Get A i j; vadd colSums j (Abs a)) colSums)
    (replicate (Z.to_nat (n - 1)) rzero)) as (cs & Hrun & Hlen & Hcs).
  - split; [apply length_replicate|].
    intros k Hk. rewrite lookup_zeros by lia. zcases.
  - intros j cs Hj [Hlen Hcs].
    destruct (for_range_inv
      (λ i cs', length cs' = Z.to_nat (n - 1)
         ∧ ∀ k, 0 ≤ k < n - 1 →
             cs' !! Z.to_nat k =
               Some (if k <? j then colSum A n k
                     else if k =? j then rsum (j + 1) i (λ i, Abs (entry A i j))
                     else rzero))
      (j + 1) n
      (λ i colSums, a ← Get A i j; vadd colSums j (Abs a)) cs)
      as (cs' & Hrun' & Hlen' & Hcs').
    + lia.
    + split; [exact Hlen|]. intros k Hk. rewrite Hcs by lia. zcases.
      subst k. rewrite rsum_empty by lia. reflexivity.
    + intros i c Hi [Hl Hc].
      rewrite Get_in by lia. rewrite bind_Ok.
      erewrite vadd_lookup; [|lia|].
      2:{ rewrite Hc by lia. zcases. }
      eexists. split; [reflexivity|]. split; [rewrite length_insert; exact Hl|].
      intros k Hk. destruct (Z.eq_dec k j) as [->|Hne].
      * rewrite lookup_insert_same by lia. zcases.
        rewrite rsum_snoc by lia. reflexivity.
      * rewrite lookup_insert_other by lia. rewrite Hc by lia. zcases.
    + exists cs'. split; [exact Hrun'|]. split; [exact Hlen'|].
      intros k Hk. rewrite Hcs' by lia. zcases. subst k. reflexivity.
  - exists cs. split; [exact Hrun|]. split; [exact Hlen|].
    intros j Hj. rewrite Hcs by lia. zcases.
Qed.

Lemma rowSums_seq_spec (A : Matrix F) (n : Z) :
  Height A = n → n - 2 ≤ Width A →
  ∃ rs, rowSums_seq A n (replicate (Z.to_nat (n - 1)) rzero) = Ok rs
      ∧ length rs = Z.to_nat (n - 1)
      ∧ ∀ k, 0 ≤ k < n - 2 → rs !! Z.to_nat k = Some (rowSum A (k + 1)).
Proof.
  intros Hh Hw. unfold rowSums_seq.
  destruct (for_range_inv_max
    (λ i rs, length rs = Z.to_nat (n - 1)
           ∧ ∀ k, 0 ≤ k < n - 1 →
               rs !! Z.to_nat k = Some (if k + 1 <? i then rowSum A (k + 1) else rzero))
    1 (n - 1)
    (λ i rowSums, for_range 0 i (λ j rowSums,
       a ← Get A i j; vadd rowSums (i - 1) (Abs a)) rowSums)
    (replicate (Z.to_nat (n - 1)) rzero)) as (rs & Hrun & Hlen & Hrs).
  - split; [apply length_replicate|].
    intros k Hk. rewrite lookup_zeros by lia. zcases.
  - intros i rs Hi [Hlen Hrs].
    destruct (for_range_inv
      (λ j rs', length rs' = Z.to_nat (n - 1)
         ∧ ∀ k, 0 ≤ k < n - 1 →
             rs' !! Z.to_nat k =
               Some (if k + 1 <? i then rowSum A (k + 1)
                     else if k =? i - 1 then rsum 0 j (λ j, Abs (entry A i j))
                     else rzero))
      0 i
      (λ j rowSums, a ← Get A i j; vadd rowSums (i - 1) (Abs a)) rs)
      as (rs' & Hrun' & Hlen' & Hrs').
    + lia.
    + split; [exact Hlen|]. intros k Hk. rewrite Hrs by lia. zcases.
    + intros j c Hj [Hl Hc].
      rewrite Get_in by lia. rewrite bind_Ok.
      erewrite vadd_lookup; [|lia|].
      2:{ rewrite Hc by lia. zcases. }
      eexists. split; [reflexivity|]. split; [rewrite length_insert; exact Hl|].
      intros k Hk. destruct (Z.eq_dec k (i - 1)) as [->|Hne].
      * rewrite lookup_insert_same by lia. zcases.
        rewrite rsum_snoc by lia. reflexivity.
      * rewrite lookup_insert_other by lia. rewrite Hc by lia. zcases.
    + exists rs'. split; [exact Hrun'|]. split; [exact Hlen'|].
      intros k Hk. rewrite Hrs' by lia. zcases.
      replace (k + 1) with i by lia. reflexivity.
  - exists rs. split; [exact Hrun|]. split; [exact Hlen|].
    intros k Hk. rewrite Hrs by lia. zcases.
Qed.
End PartitionSums.

Section Scan.
Context {Real : Type} `{RealOps Real}.

(** In exact arithmetic every family of values compares consistently. *)
Lemma RealLaws_ordered `{!RealLaws Real} (N : Z → Real) (m : Z) : ordered_below N m.
Proof.
  split; [intros; apply rltb_irrefl|].
  split; intros a b c _ _ _.
  - apply rltb_trans.
  - apply rltb_ntrans.
Qed.

Lemma ordered_below_le (N : Z → Real) (j m : Z) :
  j ≤ m → ordered_below N m → ordered_below N j.
Proof.
  intros Hjm (Hirr & Htr & Hnt).
  split; [intros; apply Hirr; lia|].
  split; intros a b c Ha Hb Hc.
  - apply Htr; lia.
  - apply Hnt; lia.
Qed.

Lemma is_first_min_next (N : Z → Real) (j : Z) (part : ValueInt Real) :
  1 ≤ j →
  ordered_below N (j + 1) →
  is_first_min N j part →
  is_first_min N (j + 1)
    (if rltb (N j) (value part) then mkValueInt (N j) (j + 1) else part).
Proof.
  intros Hj (Hirr & Htr & Hnt) (Hidx & Hval & Hmin & Hfirst).
  destruct (rltb (N j) (value part)) eqn:Hlt.
  - unfold is_first_min; simpl.
    replace (j + 1 - 1) with j by lia.
    split; [lia|]. split; [reflexivity|]. split.
    + intros k Hk. destruct (Z.eq_dec k j) as [->|Hne]; [apply Hirr; lia|].
      destruct (rltb (N k) (N j)) eqn:Hkj; [|reflexivity].
      rewrite <- (Hmin k ltac:(lia)). symmetry. rewrite Hval in Hlt |- *.
      apply (Htr k j (index part - 1)); try lia; assumption.
    + intros k Hk.
      destruct (rltb (N j) (N k)) eqn:Hjk; [reflexivity|].
      rewrite <- Hlt. symmetry. rewrite Hval.
      apply (Hnt j k (index part - 1)); try lia; [exact Hjk|].
      rewrite <- Hval. apply Hmin. lia.
  - unfold is_first_min.
    split; [lia|]. split; [exact Hval|]. split; [|exact Hfirst].
    intros k Hk. destruct (Z.eq_dec k j) as [->|Hne]; [exact Hlt | apply Hmin; lia].
Qed.

(** The scan, for vectors whose entries are known: [norms] is filled by
    the recurrence, whatever the arithmetic; where the values compare
    consistently the partition is their first minimum. *)
Lemma scan_spec (n : Z) (cs rs : list Real) (N c r : Z → Real) :
  2 ≤ n →
  length cs = Z.to_nat (n - 1) →
  (∀ j, 0 ≤ j < n - 1 → cs !! Z.to_nat j = Some (c j)) →
  (∀ k, 0 ≤ k < n - 2 → rs !! Z.to_nat k = Some (r k)) →
  N 0 = c 0 →
  (∀ j, 1 ≤ j < n - 1 → N j = N (j - 1) ⊕ c j ⊖ r (j - 1)) →
  ∃ norms part,
    scan n cs rs = Ok (norms, part)
    ∧ length norms = Z.to_nat (n - 1)
    ∧ (∀ j, 0 ≤ j < n - 1 → norms !! Z.to_nat j = Some (N j))
    ∧ (ordered_below N (n - 1) → is_first_min N (n - 1) part).
Proof.
  intros Hn Hlen Hcs Hrs HN0 HNrec. unfold scan.
  rewrite (vget_lookup cs 0 (c 0)) by (try lia; apply Hcs; lia).
  rewrite bind_Ok, vset_lookup by (rewrite length_replicate; lia).
  rewrite bind_Ok.
  rewrite (vget_lookup _ 0 (c 0))
    by (try lia; apply lookup_insert_same; rewrite length_replicate; lia).
  rewrite bind_Ok.
  destruct (for_range_inv
    (λ j st, length st.1 = Z.to_nat (n - 1)
           ∧ (∀ k, 0 ≤ k < j → st.1 !! Z.to_nat k = Some (N k))
           ∧ (ordered_below N j → is_first_min N j st.2))
    1 (n - 1) (scan_step cs rs)
    (<[Z.to_nat 0 := c 0]> (replicate (Z.to_nat (n - 1)) rzero),
     mkValueInt (c 0) 1)) as ([norms part] & Hrun & Hl & Hnorms & Hpart).
  - lia.
  - simpl. split; [rewrite length_insert, length_replicate; reflexivity|].
    split.
    + intros k Hk. assert (k = 0) as -> by lia.
      rewrite lookup_insert_same by (rewrite length_replicate; lia).
      rewrite HN0. reflexivity.
    + intros (Hirr & _).
      unfold is_first_min; simpl. split; [lia|]. split; [symmetry; exact HN0|].
      split; [|intros; lia].
      intros k Hk. assert (k = 0) as -> by lia. rewrite <- HN0. apply Hirr. lia.
  - intros j [norms part] Hj (Hl & Hnorms & Hpart). simpl in Hl, Hnorms, Hpart.
    unfold scan_step.
    rewrite (vget_lookup norms (j - 1) (N (j - 1))) by (try lia; apply Hnorms; lia).
    rewrite bind_Ok.
    rewrite (vget_lookup cs j (c j)) by (try lia; apply Hcs; lia).
    rewrite bind_Ok.
    rewrite (vget_lookup rs (j - 1) (r (j - 1))) by (try lia; apply Hrs; lia).
    rewrite bind_Ok, vset_lookup by lia. rewrite bind_Ok.
    rewrite <- HNrec by lia.
    rewrite (vget_lookup _ j (N j)) by (try lia; apply lookup_insert_same; lia).
    rewrite bind_Ok.
    exists (<[Z.to_nat j := N j]> norms,
            if rltb (N j) (value part) then mkValueInt (N j) (j + 1) else part).
    split; [destruct (rltb (N j) (value part)); reflexivity|].
    simpl. split; [rewrite length_insert; exact Hl|]. split.
    + intros k Hk. destruct (Z.eq_dec k j) as [->|Hne].
      * apply lookup_insert_same; lia.
      * rewrite lookup_insert_other by lia. apply Hnorms; lia.
    + intros Hord. apply is_first_min_next; [lia | exact Hord |].
      apply Hpart. apply (ordered_below_le N j (j + 1)); [lia | exact Hord].
  - simpl in Hl, Hnorms, Hpart. exists norms, part. auto.
Qed.

(** The scan reads [rowSums] only below index [n-2]. *)
Lemma scan_rowSums_ext (n : Z) (cs rs rs' : list Real) :
  (∀ k, 0 ≤ k < n - 2 → rs !! Z.to_nat k = rs' !! Z.to_nat k) →
  scan n cs rs = scan n cs rs'.
Proof.
  intros Hrs. unfold scan.
  destruct (vget cs 0) as [c0|e]; [|reflexivity]. rewrite !bind_Ok.
  destruct (vset _ 0 c0) as [norms|e]; [|reflexivity]. rewrite !bind_Ok.
  destruct (vget norms 0) as [n0|e]; [|reflexivity]. rewrite !bind_Ok.
  apply for_range_ext. intros j [nm part] Hj. unfold scan_step.
  destruct (vget nm (j - 1)) as [prev|e]; [|reflexivity]. rewrite !bind_Ok.
  destruct (vget cs j) as [c|e]; [|reflexivity]. rewrite !bind_Ok.
  replace (vget rs' (j - 1)) with (vget rs (j - 1)); [reflexivity|].
  unfold vget. zcases. rewrite Hrs by lia. reflexivity.
Qed.
End Scan.

Section BlockSums.
Context {F Real : Type} `{RealLaws Real} `{Scalar F Real}.

Add Ring RealRing'' : real_ring.

Lemma rsum_one lo (f : Z → Real) : rsum lo (lo + 1) f = f lo.
Proof. rewrite rsum_snoc by lia. rewrite rsum_empty by lia. ring. Qed.

Lemma blockSum_0 (A : Matrix F) (n : Z) : blockSum A n 0 = colSum A n 0.
Proof.
  unfold blockSum, colSum. apply rsum_ext. intros i Hi.
  apply (rsum_one 0).
Qed.

(** The recurrence of line 70, on the block sums themselves. *)
Lemma blockSum_step (A : Matrix F) (n j : Z) :
  1 ≤ j < n →
  blockSum A n j = blockSum A n (j - 1) ⊕ colSum A n j ⊖ rowSum A j.
Proof.
  intros Hj. unfold blockSum, colSum, rowSum.
  replace (j - 1 + 1) with j by lia.
  rewrite (rsum_cons j n) by lia.
  rewrite (rsum_ext (j + 1) n
             (λ i, rsum 0 (j + 1) (λ k, Abs (entry A i k)))
             (λ i, rsum 0 j (λ k, Abs (entry A i k)) ⊕ Abs (entry A i j))).
  2:{ intros i Hi. apply (rsum_snoc 0 j (λ k, Abs (entry A i k))). lia. }
  rewrite rsum_add. ring.
Qed.

(** The sequential overload on a square matrix with at least two rows. *)
Lemma ComputePartition_norms_spec (A : Matrix F) (n : Z) :
  2 ≤ n → Height A = n → Width A = n →
  ∃ norms part,
    ComputePartition_norms A = Ok (norms, part)
    ∧ length norms = Z.to_nat (n - 1)
    ∧ (∀ j, 0 ≤ j < n - 1 → norms !! Z.to_nat j = Some (blockSum A n j))
    ∧ is_first_min (blockSum A n) (n - 1) part.
Proof.
  intros Hn Hh Hw. unfold ComputePartition_norms. rewrite Hh.
  destruct (Z.eqb_spec n 0) as [|_]; [lia|].
  destruct (colSums_seq_spec A n Hh ltac:(lia)) as (cs & -> & Hlc & Hcs).
  destruct (rowSums_seq_spec A n Hh ltac:(lia)) as (rs & -> & Hlr & Hrs).
  rewrite !bind_Ok.
  destruct (scan_spec n cs rs (blockSum A n) (colSum A n) (λ k, rowSum A (k + 1)))
    as (norms & part & Hrun & Hl & Hnorms & Hmin); try assumption.
  - apply blockSum_0.
  - intros j Hj. replace (j - 1 + 1) with j by lia. apply blockSum_step. lia.
  - exists norms, part. split; [exact Hrun|]. split; [exact Hl|].
    split; [exact Hnorms|]. apply Hmin, RealLaws_ordered.
Qed.

(** In exact arithmetic the running score is the block sum. *)
Lemma score_blockSum (A : Matrix F) (n j : Z) :
  0 ≤ j < n → score A n j = blockSum A n j.
Proof.
  intros Hj. unfold score.
  rewrite <- (Z2Nat.id j) at 2 by lia.
  assert (Z.of_nat (Z.to_nat j) < n) as Hlt by lia.
  induction (Z.to_nat j) as [|k IH].
  - simpl. symmetry. apply blockSum_0.
  - cbn [score_n]. rewrite IH by lia.
    rewrite (blockSum_step A n (Z.of_nat (Datatypes.S k))) by lia.
    replace (Z.of_nat (Datatypes.S k) - 1) with (Z.of_nat k) by lia.
    reflexivity.
Qed.
End BlockSums.

(** ** The running scores, whatever the arithmetic *)

Section Scores.
Context {F Real : Type} `{RealOps Real} `{Scalar F Real}.

Lemma score_0 (A : Matrix F) (n : Z) : score A n 0 = colSum A n 0.
Proof. reflexivity. Qed.

Lemma score_step (A : Matrix F) (n j : Z) :
  1 ≤ j → score A n j = score A n (j - 1) ⊕ colSum A n j ⊖ rowSum A j.
Proof.
  intros Hj. unfold score.
  replace (Z.to_nat j) with (Datatypes.S (Z.to_nat (j - 1))) by lia.
  cbn [score_n]. replace (Z.of_nat (Datatypes.S (Z.to_nat (j - 1)))) with j by lia.
  reflexivity.
Qed.

(** The sequential overload on a square matrix with at least two rows:
    the entries of [norms] are the running scores, and the partition is
    their first minimum where they compare consistently. *)
Lemma ComputePartition_scores (A : Matrix F) (n : Z) :
  2 ≤ n → Height A = n → Width A = n →
  ∃ norms part,
    ComputePartition_norms A = Ok (norms, part)
    ∧ length norms = Z.to_nat (n - 1)
    ∧ (∀ j, 0 ≤ j < n - 1 → norms !! Z.to_nat j = Some (score A n j))
    ∧ (ordered_below (score A n) (n - 1) → is_first_min (score A n) (n - 1) part).
Proof.
  intros Hn Hh Hw. unfold ComputePartition_norms. rewrite Hh.
  destruct (Z.eqb_spec n 0) as [|_]; [lia|].
  destruct (colSums_seq_spec A n Hh ltac:(lia)) as (cs & -> & Hlc & Hcs).
  destruct (rowSums_seq_spec A n Hh ltac:(lia)) as (rs & -> & Hlr & Hrs).
  rewrite !bind_Ok.
  apply (scan_spec n cs rs (score A n) (colSum A n) (λ k, rowSum A (k + 1)));
    try assumption.
  - apply score_0.
  - intros j Hj. replace (j - 1 + 1) with j by lia. apply score_step. lia.
Qed.
End Scores.

Lemma processes_shifts {F} (D : DistMatrix F) :
  Forall (λ p, 0 ≤ ColShift p ∧ 0 ≤ RowShift p) (processes D).
Proof.
  apply List.Forall_forall. intros p Hp. rewrite <- list_elem_of_In in Hp.
  unfold processes in Hp.
  apply list_elem_of_bind in Hp as (q & Hp & Hq).
  apply list_elem_of_bind in Hp as (p' & Hp & Hp').
  apply list_elem_of_singleton in Hp as ->.
  apply elem_of_seqZ in Hq. apply elem_of_seqZ in Hp'. simpl. lia.
Qed.

(** ** The cyclic distribution covers every index once *)

Lemma Length_spec (n p r : Z) :
  0 ≤ p → 1 ≤ r →
  0 ≤ Length n p r ∧ ∀ t, 0 ≤ t → (t < Length n p r ↔ p + t * r < n).
Proof.
  intros Hp Hr. unfold Length. destruct (Z.ltb_spec p n) as [Hlt|Hge].
  - pose proof (Z.div_mod (n - p - 1) r ltac:(lia)) as Hdm.
    pose proof (Z.mod_pos_bound (n - p - 1) r ltac:(lia)) as Hmod.
    pose proof (Z.div_pos (n - p - 1) r ltac:(lia) ltac:(lia)) as Hdiv.
    split; [lia|]. intros t Ht. split; intros Hlt'; nia.
  - split; [lia|]. intros t Ht. split; intros Hlt'; nia.
Qed.

Lemma count_unique (P : Z → Prop) (L1 L2 : Z) :
  0 ≤ L1 → 0 ≤ L2 →
  (∀ t, 0 ≤ t → (t < L1 ↔ P t)) →
  (∀ t, 0 ≤ t → (t < L2 ↔ P t)) →
  L1 = L2.
Proof.
  intros H1 H2 HP1 HP2.
  destruct (Z.lt_trichotomy L1 L2) as [Hlt|[Heq|Hgt]]; [|exact Heq|].
  - pose proof (proj1 (HP2 L1 H1) Hlt) as HP.
    apply (HP1 L1 H1) in HP. lia.
  - pose proof (proj1 (HP1 L2 H2) ltac:(lia)) as HP.
    apply (HP2 L2 H2) in HP. lia.
Qed.

Lemma Length_succ (n p r : Z) :
  0 ≤ n → 0 ≤ p < r →
  Length (n + 1) p r = Length n p r + (if p =? n mod r then 1 else 0)
  ∧ (p = n mod r → p + Length n p r * r = n).
Proof.
  intros Hn Hp.
  destruct (Length_spec n p r) as [HL HLt]; [lia..|].
  destruct (Length_spec (n + 1) p r) as [HL' HLt']; [lia..|].
  pose proof (Z.div_mod n r ltac:(lia)) as Hdm.
  pose proof (Z.div_pos n r ltac:(lia) ltac:(lia)) as Hdiv.
  destruct (Z.eqb_spec p (n mod r)) as [Heq|Hne].
  - assert (Length n p r = n / r) as HLn.
    { apply (count_unique (λ t, p + t * r < n)); try assumption.
      intros t Ht. split; intros ?; nia. }
    split; [|intros _; rewrite HLn; nia].
    rewrite HLn. apply (count_unique (λ t, p + t * r < n + 1)); try assumption; try lia.
    intros t Ht. split; intros ?; nia.
  - split; [|intros ?; contradiction].
    rewrite Z.add_0_r.
    apply (count_unique (λ t, p + t * r < n + 1)); try assumption.
    intros t Ht. rewrite HLt by exact Ht.
    assert (p + t * r ≠ n); [|lia].
    intros Habs. apply Hne. rewrite <- Habs.
    rewrite Z.mod_add by lia. symmetry. apply Z.mod_small. lia.
Qed.

Section StridedSums.
Context {Real : Type} `{RealLaws Real}.

Add Ring RealRing3 : real_ring.

(** Summing over the residues [p < r] and, for each, over the local
    indices of the rows [p, p+r, p+2r, ...] below [n] is summing over
    every row below [n]. *)
Lemma rsum_strided (n r : Z) (g : Z → Real) :
  0 ≤ n → 1 ≤ r →
  rsum 0 r (λ p, rsum 0 (Length n p r) (λ t, g (p + t * r))) = rsum 0 n g.
Proof.
  intros Hn Hr. pattern n. apply natlike_ind; [| |exact Hn].
  - rewrite (rsum_empty 0 0) by lia.
    rewrite (rsum_ext 0 r _ (λ _, rzero)); [apply rsum_zero|].
    intros p Hp. apply rsum_empty.
    destruct (Length_spec 0 p r) as [HL HLt]; [lia..|].
    destruct (Z.le_gt_cases (Length 0 p r) 0) as [|Hpos]; [assumption|].
    pose proof (proj1 (HLt 0 ltac:(lia)) Hpos). lia.
  - intros m Hm IH. unfold Z.succ.
    rewrite (rsum_snoc 0 m) by lia. rewrite <- IH.
    rewrite (rsum_ext 0 r _
      (λ p, rsum 0 (Length m p r) (λ t, g (p + t * r))
            ⊕ (if p =? m mod r then g m else rzero))).
    + rewrite rsum_add. f_equal.
      apply (rsum_single 0 r (m mod r) (λ _, g m)).
      apply Z.mod_pos_bound. lia.
    + intros p Hp.
      destruct (Length_succ m p r Hm Hp) as [HS Hat]. rewrite HS.
      destruct (Length_spec m p r) as [HL _]; [lia..|].
      destruct (Z.eqb_spec p (m mod r)) as [Heq|Hne].
      * rewrite rsum_snoc by lia. rewrite (Hat Heq). reflexivity.
      * rewrite Z.add_0_r. ring.
Qed.
End StridedSums.

(** ** The local sums of a process, in closed form *)

Section VecIs.
Context {Real : Type} `{RealLaws Real}.

Add Ring RealRing4 : real_ring.
Implicit Types (v : list Real) (e : Z → Real).

Lemma vec_is_ext m v e1 e2 :
  (∀ k, 0 ≤ k < m → e1 k = e2 k) → vec_is m v e1 → vec_is m v e2.
Proof.
  intros He [Hl Hv]. split; [exact Hl|].
  intros k Hk. rewrite <- He by exact Hk. apply Hv, Hk.
Qed.

Lemma vec_is_zeros m : vec_is m (replicate (Z.to_nat m) rzero) (λ _, rzero).
Proof.
  split; [apply length_replicate|]. intros k Hk. apply lookup_zeros. lia.
Qed.

Lemma vec_is_vadd m v e j x :
  vec_is m v e → 0 ≤ j < m →
  ∃ v', vadd v j x = Ok v'
      ∧ vec_is m v' (λ k, e k ⊕ (if k =? j then x else rzero)).
Proof.
  intros [Hl Hv] Hj.
  exists (<[Z.to_nat j := e j ⊕ x]> v). split.
  - apply vadd_lookup; [lia | apply Hv, Hj].
  - split; [rewrite length_insert; exact Hl|].
    intros k Hk. destruct (Z.eqb_spec k j) as [->|Hne].
    + apply lookup_insert_same. lia.
    + rewrite lookup_insert_other by lia. rewrite Hv by exact Hk.
      f_equal. ring.
Qed.

Lemma vec_is_eq m v1 v2 e : vec_is m v1 e → vec_is m v2 e → v1 = v2.
Proof.
  intros [Hl1 Hv1] [Hl2 Hv2]. apply list_eq. intros i.
  destruct (Nat.lt_ge_cases i (Z.to_nat m)) as [Hlt|Hge].
  - replace i with (Z.to_nat (Z.of_nat i)) by lia.
    rewrite Hv1, Hv2 by lia. reflexivity.
  - rewrite !lookup_ge_None_2 by lia. reflexivity.
Qed.
End VecIs.

Section LocalSums.
Context {F Real : Type} `{RealLaws Real} `{Scalar F Real}.
Variables (D : DistMatrix F) (n : Z).
Hypothesis Hheight : Height (Global D) = n.
Hypothesis Hwidth : Width (Global D) = n.
Hypothesis Hrows : 1 ≤ GridHeight D.
Hypothesis Hcols : 1 ≤ GridWidth D.

Add Ring RealRing5 : real_ring.

(** In this section the contributions and the local sums are those of [D]
    and [n]. *)
Local Abbreviation dC := (dC D n).
Local Abbreviation dR := (dR D n).
Local Abbreviation locInner := (locInner D).
Local Abbreviation locSum := (locSum D).

Lemma locInner_dC_skip p k jLoc :
  n - 1 ≤ RowShift p + jLoc * RowStride D → locInner dC p k jLoc = rzero.
Proof.
  intros Hj. unfold locInner.
  rewrite (rsum_ext _ _ _ (λ _, rzero)); [apply rsum_zero|].
  intros iLoc _. unfold dC.
  destruct (Z.ltb_spec (RowShift p + jLoc * RowStride D) (n - 1)); [lia|reflexivity].
Qed.

Lemma locInner_dR_skip p k jLoc :
  n - 1 ≤ RowShift p + jLoc * RowStride D → locInner dR p k jLoc = rzero.
Proof.
  intros Hj. unfold locInner.
  rewrite (rsum_ext _ _ _ (λ _, rzero)); [apply rsum_zero|].
  intros iLoc _. unfold dR.
  destruct (Z.ltb_spec (RowShift p + jLoc * RowStride D) (n - 1)); [lia|reflexivity].
Qed.

Lemma localSums_spec (p : Process) (eC eR : Z → Real) (cs rs : list Real) :
  0 ≤ ColShift p → 0 ≤ RowShift p →
  vec_is (n - 1) cs eC → vec_is (n - 1) rs eR →
  ∃ cs' rs',
    localSums D p n (cs, rs) = Ok (cs', rs')
    ∧ vec_is (n - 1) cs' (λ k, eC k ⊕ locSum dC p k)
    ∧ vec_is (n - 1) rs' (λ k, eR k ⊕ locSum dR p k).
Proof.
  intros Hcs0 Hrs0 HC HR. unfold localSums, locSum. cbv zeta.
  destruct (Length_spec n (RowShift p) (RowStride D)) as [HW HWt]; [assumption..|].
  destruct (Length_spec n (ColShift p) (ColStride D)) as [HH HHt]; [assumption..|].
  assert (LocalWidth D p = Length n (RowShift p) (RowStride D)) as HLW
    by (unfold LocalWidth; rewrite Hwidth; reflexivity).
  assert (LocalHeight D p = Length n (ColShift p) (ColStride D)) as HLH
    by (unfold LocalHeight; rewrite Hheight; reflexivity).
  destruct (for_range_inv
    (λ J st, vec_is (n - 1) st.1 (λ k, eC k ⊕ rsum 0 J (locInner dC p k))
           ∧ vec_is (n - 1) st.2 (λ k, eR k ⊕ rsum 0 J (locInner dR p k)))
    0 (LocalWidth D p)
    (λ jLoc sums,
       if RowShift p + jLoc * RowStride D <? n - 1
       then for_range 0 (LocalHeight D p) (λ iLoc sums,
              if ColShift p + iLoc * ColStride D >? RowShift p + jLoc * RowStride D
              then a ← GetLocal D p iLoc jLoc;
                   colSums ← vadd sums.1 (RowShift p + jLoc * RowStride D) (Abs a);
                   a' ← GetLocal D p iLoc jLoc;
                   rowSums ← vadd sums.2 (ColShift p + iLoc * ColStride D - 1) (Abs a');
                   Ok (colSums, rowSums)
              else Ok sums) sums
       else Ok sums)
    (cs, rs)) as ([cs' rs'] & Hrun & HC' & HR').
  - lia.
  - simpl. split; (eapply vec_is_ext; [|eassumption]); intros k Hk;
      rewrite rsum_empty by lia; ring.
  - intros J [c1 r1] HJ [HC1 HR1]. simpl in HC1, HR1.
    set (j := RowShift p + J * RowStride D).
    assert (0 ≤ j) as Hj0 by (unfold j, RowStride in *; nia).
    destruct (Z.ltb_spec j (n - 1)) as [Hjn|Hjn].
    + destruct (for_range_inv
        (λ I st, vec_is (n - 1) st.1
                   (λ k, eC k ⊕ rsum 0 J (locInner dC p k)
                         ⊕ rsum 0 I (λ iLoc, dC k (ColShift p + iLoc * ColStride D) j))
               ∧ vec_is (n - 1) st.2
                   (λ k, eR k ⊕ rsum 0 J (locInner dR p k)
                         ⊕ rsum 0 I (λ iLoc, dR k (ColShift p + iLoc * ColStride D) j)))
        0 (LocalHeight D p)
        (λ iLoc sums,
           if ColShift p + iLoc * ColStride D >? j
           then a ← GetLocal D p iLoc J;
                colSums ← vadd sums.1 j (Abs a);
                a' ← GetLocal D p iLoc J;
                rowSums ← vadd sums.2 (ColShift p + iLoc * ColStride D - 1) (Abs a');
                Ok (colSums, rowSums)
           else Ok sums)
        (c1, r1)) as ([c2 r2] & Hrun2 & HC2 & HR2).
      * lia.
      * simpl. split; (eapply vec_is_ext; [|eassumption]); intros k Hk;
          rewrite (rsum_empty 0 0) by lia; ring.
      * intros I [c3 r3] HI [HC3 HR3]. simpl in HC3, HR3.
        set (i := ColShift p + I * ColStride D).
        assert (i < n) as Hin by (apply HHt; lia).
        rewrite Z.gtb_ltb. destruct (Z.ltb_spec j i) as [Hji|Hji].
        -- assert (GetLocal D p I J = Ok (entry (Global D) i j)) as ->.
           { unfold GetLocal. destruct (Z.leb_spec 0 I); [|lia].
             destruct (Z.ltb_spec I (LocalHeight D p)); [|lia].
             destruct (Z.leb_spec 0 J); [|lia].
             destruct (Z.ltb_spec J (LocalWidth D p)); [|lia]. reflexivity. }
           rewrite !bind_Ok. cbn [fst snd].
           destruct (vec_is_vadd (n - 1) c3 _ j (Abs (entry (Global D) i j)) HC3)
             as (c4 & -> & HC4); [lia|].
           rewrite !bind_Ok.
           destruct (vec_is_vadd (n - 1) r3 _ (i - 1) (Abs (entry (Global D) i j)) HR3)
             as (r4 & -> & HR4); [lia|].
           rewrite !bind_Ok.
           exists (c4, r4). split; [reflexivity|]. simpl.
           split; (eapply vec_is_ext; [|eassumption]); intros k Hk;
             rewrite (rsum_snoc 0 I) by lia; fold i; unfold dC, dR;
             destruct (Z.ltb_spec j (n - 1)); try lia;
             destruct (Z.ltb_spec j i); try lia; simpl; ring.
        -- exists (c3, r3). split; [reflexivity|]. simpl.
           split; (eapply vec_is_ext; [|eassumption]); intros k Hk;
             rewrite (rsum_snoc 0 I) by lia; fold i; unfold dC, dR;
             destruct (Z.ltb_spec j i); try lia;
             rewrite andb_false_r; ring.
      * exists (c2, r2). split; [exact Hrun2|]. simpl in HC2, HR2. simpl.
        split; (eapply vec_is_ext; [|eassumption]); intros k Hk;
          rewrite (rsum_snoc 0 J) by lia; unfold locInner; fold j; ring.
    + exists (c1, r1). split; [reflexivity|]. simpl.
      split; (eapply vec_is_ext; [|eassumption]); intros k Hk;
        rewrite (rsum_snoc 0 J) by lia;
        rewrite ?locInner_dC_skip, ?locInner_dR_skip by exact Hjn; ring.
  - exists cs', rs'. split; [exact Hrun|]. simpl in HC', HR'. split; assumption.
Qed.
End LocalSums.

(** ** The all-reduce of the local sums *)

Section ListSums.
Context {Real : Type} `{RealLaws Real}.

Add Ring RealRing6 : real_ring.

Lemma lsum_app (l1 l2 : list Real) : lsum (l1 ++ l2) = lsum l1 ⊕ lsum l2.
Proof.
  unfold lsum. induction l1 as [|x l1 IH]; simpl.
  - ring.
  - rewrite IH. ring.
Qed.

Lemma lsum_bind_seqZ {X : Type} (g : Z → list X) (f : X → Real) (lo len : Z) :
  0 ≤ len →
  lsum (f <$> (seqZ lo len ≫= g)) = rsum lo (lo + len) (λ q, lsum (f <$> g q)).
Proof.
  intros Hlen. pattern len. apply natlike_ind; [| |exact Hlen].
  - rewrite seqZ_nil by lia. rewrite rsum_empty by lia. reflexivity.
  - intros m Hm IH. unfold Z.succ.
    rewrite seqZ_app by lia. rewrite bind_app, fmap_app, lsum_app, IH.
    rewrite (seqZ_cons (lo + m) 1) by lia. rewrite seqZ_nil by lia.
    rewrite bind_cons. simpl. rewrite app_nil_r.
    replace (lo + (m + 1)) with (lo + m + 1) by lia.
    rewrite rsum_snoc by lia. reflexivity.
Qed.

(** The sum over the processes of a grid, by columns then rows. *)
Lemma lsum_processes {F} (D : DistMatrix F) (f : Process → Real) :
  0 ≤ GridHeight D → 0 ≤ GridWidth D →
  lsum (f <$> processes D) =
  rsum 0 (GridWidth D) (λ q, rsum 0 (GridHeight D) (λ p, f (mkProcess p q))).
Proof.
  intros Hr Hc. unfold processes.
  rewrite lsum_bind_seqZ by exact Hc. rewrite Z.add_0_l.
  apply rsum_ext. intros q Hq.
  rewrite lsum_bind_seqZ by exact Hr. rewrite Z.add_0_l.
  apply rsum_ext. intros p Hp. unfold lsum. simpl. ring.
Qed.

Lemma AllReduce_spec {P : Type} (m : Z) (e : P → Z → Real)
    (ps : list P) (bufs : list (list Real)) :
  Forall2 (λ p buf, vec_is m buf (e p)) ps bufs →
  vec_is m (AllReduce bufs m) (λ k, lsum ((λ p, e p k) <$> ps)).
Proof.
  intros Hall. split.
  - unfold AllReduce. rewrite length_fmap, length_seq. reflexivity.
  - intros k Hk. unfold AllReduce.
    rewrite list_lookup_fmap, lookup_seq_lt by lia. simpl. f_equal.
    induction Hall as [|p buf ps bufs [_ Hbuf] _ IH]; [reflexivity|].
    rewrite !fmap_cons. unfold lsum in *. simpl. rewrite IH.
    rewrite Hbuf by exact Hk. reflexivity.
Qed.
End ListSums.

Section DistSums.
Context {F Real : Type} `{RealLaws Real} `{Scalar F Real}.
Variables (D : DistMatrix F) (n : Z).
Hypothesis Hheight : Height (Global D) = n.
Hypothesis Hwidth : Width (Global D) = n.
Hypothesis Hrows : 1 ≤ GridHeight D.
Hypothesis Hcols : 1 ≤ GridWidth D.
Hypothesis Hn : 0 ≤ n.

Add Ring RealRing7 : real_ring.

Lemma allLocalSums_spec (ps : list Process) :
  Forall (λ p, 0 ≤ ColShift p ∧ 0 ≤ RowShift p) ps →
  ∃ locals,
    allLocalSums D n ps = Ok locals
    ∧ Forall2 (λ p s, vec_is (n - 1) s.1 (locSum D (dC D n) p)
                    ∧ vec_is (n - 1) s.2 (locSum D (dR D n) p)) ps locals.
Proof.
  induction 1 as [|p ps [Hc Hr] _ (locals & IH & Hall)].
  - exists []. split; [reflexivity | constructor].
  - simpl.
    destruct (localSums_spec D n Hheight Hwidth Hrows Hcols p
                (λ _, rzero) (λ _, rzero) _ _ Hc Hr
                (vec_is_zeros (n - 1)) (vec_is_zeros (n - 1)))
      as (cs & rs & -> & HC & HR).
    rewrite bind_Ok, IH, bind_Ok.
    exists ((cs, rs) :: locals). split; [reflexivity|].
    constructor; [|exact Hall]. simpl.
    split; (eapply vec_is_ext; [|eassumption]); intros k Hk; simpl; ring.
Qed.

(** Over the whole grid every global entry is met exactly once. *)
Lemma rsum_grid (d : Z → Z → Z → Real) (k : Z) :
  rsum 0 (GridWidth D) (λ q, rsum 0 (GridHeight D) (λ p,
    locSum D d (mkProcess p q) k))
  = rsum 0 n (λ j, rsum 0 n (λ i, d k i j)).
Proof.
  unfold locSum, locInner, LocalWidth, LocalHeight, ColStride, RowStride.
  rewrite Hheight, Hwidth. simpl.
  rewrite <- (rsum_strided n (GridWidth D) (λ j, rsum 0 n (λ i, d k i j)))
    by assumption.
  apply rsum_ext. intros q Hq.
  rewrite rsum_swap. apply rsum_ext. intros jLoc HjLoc.
  apply (rsum_strided n (GridHeight D) (λ i, d k i (q + jLoc * GridWidth D)));
    assumption.
Qed.

Lemma grid_colSum (k : Z) :
  0 ≤ k < n - 1 →
  rsum 0 n (λ j, rsum 0 n (λ i, dC D n k i j)) = colSum (Global D) n k.
Proof.
  intros Hk.
  rewrite (rsum_ext 0 n _
    (λ j, if j =? k then rsum 0 n (λ i, dC D n k i j) else rzero)).
  2:{ intros j Hj. destruct (Z.eqb_spec j k) as [->|Hne]; [reflexivity|].
      rewrite (rsum_ext 0 n _ (λ _, rzero)); [apply rsum_zero|].
      intros i Hi. unfold dC. destruct (Z.eqb_spec k j); [lia|].
      destruct (_ && _); reflexivity. }
  rewrite (rsum_single 0 n k (λ j, rsum 0 n (λ i, dC D n k i j))) by lia.
  rewrite (rsum_split 0 (k + 1) n) by lia.
  rewrite (rsum_ext 0 (k + 1) _ (λ _, rzero)), rsum_zero.
  2:{ intros i Hi. unfold dC. destruct (Z.ltb_spec k i); [lia|].
      rewrite andb_false_r. reflexivity. }
  unfold colSum. rewrite (rsum_ext (k + 1) n _ (λ i, Abs (entry (Global D) i k))).
  - ring.
  - intros i Hi. unfold dC.
    destruct (Z.ltb_spec k (n - 1)); [|lia].
    destruct (Z.ltb_spec k i); [|lia]. rewrite Z.eqb_refl. reflexivity.
Qed.

Lemma grid_rowSum (k : Z) :
  0 ≤ k < n - 2 →
  rsum 0 n (λ j, rsum 0 n (λ i, dR D n k i j)) = rowSum (Global D) (k + 1).
Proof.
  intros Hk. rewrite rsum_swap.
  rewrite (rsum_ext 0 n _
    (λ i, if i =? k + 1 then rsum 0 n (λ j, dR D n k i j) else rzero)).
  2:{ intros i Hi. destruct (Z.eqb_spec i (k + 1)) as [->|Hne]; [reflexivity|].
      rewrite (rsum_ext 0 n _ (λ _, rzero)); [apply rsum_zero|].
      intros j Hj. unfold dR. destruct (Z.eqb_spec k (i - 1)); [lia|].
      destruct (_ && _); reflexivity. }
  rewrite (rsum_single 0 n (k + 1) (λ i, rsum 0 n (λ j, dR D n k i j))) by lia.
  rewrite (rsum_split 0 (k + 1) n) by lia.
  rewrite (rsum_ext (k + 1) n _ (λ _, rzero)), rsum_zero.
  2:{ intros j Hj. unfold dR. destruct (Z.ltb_spec j (k + 1)); [lia|].
      rewrite andb_false_r. reflexivity. }
  unfold rowSum. rewrite (rsum_ext 0 (k + 1) _ (λ j, Abs (entry (Global D) (k + 1) j))).
  - ring.
  - intros j Hj. unfold dR.
    destruct (Z.ltb_spec j (n - 1)); [|lia].
    destruct (Z.ltb_spec j (k + 1)); [|lia].
    replace (k + 1 - 1) with k by lia. rewrite Z.eqb_refl. reflexivity.
Qed.

(** The reduced buffers of lines 127-128. *)
Lemma reduced_sums :
  ∃ locals,
    allLocalSums D n (processes D) = Ok locals
    ∧ vec_is (n - 1) (AllReduce (locals.*1) (n - 1)) (colSum (Global D) n)
    ∧ ∀ k, 0 ≤ k < n - 2 →
        AllReduce (locals.*2) (n - 1) !! Z.to_nat k = Some (rowSum (Global D) (k + 1)).
Proof.
  destruct (allLocalSums_spec (processes D) (processes_shifts D)) as (locals & Hrun & Hall).
  exists locals. split; [exact Hrun|]. split.
  - eapply vec_is_ext; [|apply (AllReduce_spec (n - 1) (locSum D (dC D n)) (processes D))].
    + intros k Hk. simpl.
      rewrite (lsum_processes D (λ p, locSum D (dC D n) p k)) by lia.
      rewrite rsum_grid. apply grid_colSum. exact Hk.
    + apply Forall2_fmap_r. eapply List.Forall2_impl; [|exact Hall].
      intros p s [HC _]. exact HC.
  - intros k Hk.
    destruct (AllReduce_spec (n - 1) (locSum D (dR D n)) (processes D) (locals.*2))
      as [_ Hlook].
    + apply Forall2_fmap_r. eapply List.Forall2_impl; [|exact Hall].
      intros p s [_ HR]. exact HR.
    + rewrite Hlook by lia. f_equal.
      rewrite (lsum_processes D (λ p, locSum D (dR D n) p k)) by lia.
      rewrite rsum_grid. apply grid_rowSum. exact Hk.
Qed.
End DistSums.

Section DistAgreesWithSeq.
Context {F Real : Type} `{RealLaws Real} `{Scalar F Real}.

(** In exact arithmetic, on a square matrix with at least two rows, spread
    over a grid with at least one process, the distributed overload returns
    what the sequential overload returns on the global matrix.  In binary64
    the two can differ: see [ComputePartition_uneven4]. *)
Lemma ComputePartition_Dist_agrees (D : DistMatrix F) (n : Z) :
  2 ≤ n → Height (Global D) = n → Width (Global D) = n →
  1 ≤ GridHeight D → 1 ≤ GridWidth D →
  ComputePartition_Dist D = ComputePartition (Global D).
Proof.
  intros Hn Hh Hw Hr Hc.
  unfold ComputePartition_Dist, ComputePartition, ComputePartition_norms.
  rewrite Hh. destruct (Z.eqb_spec n 0) as [|_]; [lia|].
  destruct (reduced_sums D n Hh Hw Hr Hc ltac:(lia)) as (locals & -> & HC & HR).
  destruct (colSums_seq_spec (Global D) n Hh ltac:(lia)) as (cs & -> & Hlc & Hcs).
  destruct (rowSums_seq_spec (Global D) n Hh ltac:(lia)) as (rs & -> & Hlr & Hrs).
  rewrite !bind_Ok.
  assert (AllReduce (locals.*1) (n - 1) = cs) as ->.
  { apply (vec_is_eq (n - 1) _ _ (colSum (Global D) n)); [exact HC|].
    split; assumption. }
  rewrite (scan_rowSums_ext n cs _ rs); [reflexivity|].
  intros k Hk. rewrite HR, Hrs by exact Hk. reflexivity.
Qed.
End DistAgreesWithSeq.

(** ** The returned index, whatever the arithmetic

    The facts of this section use no law of the arithmetic of [Real]: they
    hold as well for rounded floating-point operations. *)

Section IndexRange.
Context {F Real : Type} `{RealOps Real} `{Scalar F Real}.
Implicit Types (v cs rs : list Real).

Lemma vget_in v j : 0 ≤ j < Z.of_nat (length v) → ∃ x, vget v j = Ok x.
Proof.
  intros Hj. destruct (lookup_lt_is_Some_2 v (Z.to_nat j) ltac:(lia)) as [x Hx].
  exists x. apply vget_lookup; [lia | exact Hx].
Qed.

Lemma vadd_in v j x :
  0 ≤ j < Z.of_nat (length v) →
  ∃ v', vadd v j x = Ok v' ∧ length v' = length v.
Proof.
  intros Hj. unfold vadd. destruct (vget_in v j Hj) as [c ->].
  rewrite bind_Ok, vset_lookup by exact Hj.
  eexists. split; [reflexivity | apply length_insert].
Qed.

(** A loop of [v[idx] += x] with indices in range keeps the length. *)
Lemma accumulate_length (m : nat) lo hi (idx : Z → Z) (g : Z → Result F) v :
  length v = m →
  (∀ i, lo ≤ i < hi → 0 ≤ idx i < Z.of_nat m ∧ ∃ a, g i = Ok a) →
  ∃ v', for_range lo hi (λ i v, a ← g i; vadd v (idx i) (Abs a)) v = Ok v'
      ∧ length v' = m.
Proof.
  intros Hlen Hin.
  destruct (for_range_inv_max (λ _ v, length v = m) lo hi
              (λ i v, a ← g i; vadd v (idx i) (Abs a)) v Hlen) as (v' & Hrun & Hl).
  - intros i w Hi Hw. destruct (Hin i Hi) as [Hidx [a ->]]. rewrite bind_Ok.
    destruct (vadd_in w (idx i) (Abs a)) as (w' & -> & Hw'); [lia|].
    exists w'. split; [reflexivity | congruence].
  - exists v'. split; assumption.
Qed.

Lemma colSums_seq_length (A : Matrix F) n cs :
  Height A = n → n - 1 ≤ Width A → length cs = Z.to_nat (n - 1) →
  ∃ cs', colSums_seq A n cs = Ok cs' ∧ length cs' = Z.to_nat (n - 1).
Proof.
  intros Hh Hw Hlen. unfold colSums_seq.
  destruct (for_range_inv_max (λ _ v, length v = Z.to_nat (n - 1)) 0 (n - 1)
    (λ j colSums, for_range (j + 1) n (λ i colSums,
       a ← Get A i j; vadd colSums j (Abs a)) colSums) cs Hlen)
    as (cs' & Hrun & Hl).
  - intros j v Hj Hv.
    apply (accumulate_length (Z.to_nat (n - 1)) (j + 1) n (λ _, j) (λ i, Get A i j));
      [exact Hv|].
    intros i Hi. split; [lia|]. rewrite Get_in by lia. eauto.
  - exists cs'. split; assumption.
Qed.

Lemma rowSums_seq_length (A : Matrix F) n rs :
  Height A = n → n - 2 ≤ Width A → length rs = Z.to_nat (n - 1) →
  ∃ rs', rowSums_seq A n rs = Ok rs' ∧ length rs' = Z.to_nat (n - 1).
Proof.
  intros Hh Hw Hlen. unfold rowSums_seq.
  destruct (for_range_inv_max (λ _ v, length v = Z.to_nat (n - 1)) 1 (n - 1)
    (λ i rowSums, for_range 0 i (λ j rowSums,
       a ← Get A i j; vadd rowSums (i - 1) (Abs a)) rowSums) rs Hlen)
    as (rs' & Hrun & Hl).
  - intros i v Hi Hv.
    apply (accumulate_length (Z.to_nat (n - 1)) 0 i (λ _, i - 1) (λ j, Get A i j));
      [exact Hv|].
    intros j Hj. split; [lia|]. rewrite Get_in by lia. eauto.
  - exists rs'. split; assumption.
Qed.

Lemma scan_index n cs rs :
  2 ≤ n → length cs = Z.to_nat (n - 1) → length rs = Z.to_nat (n - 1) →
  ∃ norms part, scan n cs rs = Ok (norms, part) ∧ 1 ≤ index part ≤ n - 1.
Proof.
  intros Hn Hlc Hlr. unfold scan.
  destruct (vget_in cs 0 ltac:(lia)) as [c0 ->]. rewrite bind_Ok.
  rewrite vset_lookup by (rewrite length_replicate; lia). rewrite bind_Ok.
  destruct (vget_in (<[Z.to_nat 0 := c0]> (replicate (Z.to_nat (n - 1)) rzero)) 0)
    as [n0 ->]; [rewrite length_insert, length_replicate; lia|].
  rewrite bind_Ok.
  destruct (for_range_inv
    (λ j st, length st.1 = Z.to_nat (n - 1) ∧ 1 ≤ index st.2 ≤ j)
    1 (n - 1) (scan_step cs rs)
    (<[Z.to_nat 0 := c0]> (replicate (Z.to_nat (n - 1)) rzero), mkValueInt n0 1))
    as ([norms part] & Hrun & Hl & Hidx).
  - lia.
  - simpl. rewrite length_insert, length_replicate. lia.
  - intros j [norms part] Hj [Hl Hidx]. simpl in Hl, Hidx. unfold scan_step.
    destruct (vget_in norms (j - 1) ltac:(lia)) as [prev ->]. rewrite bind_Ok.
    destruct (vget_in cs j ltac:(lia)) as [c ->]. rewrite bind_Ok.
    destruct (vget_in rs (j - 1) ltac:(lia)) as [r ->]. rewrite bind_Ok.
    rewrite vset_lookup by lia. rewrite bind_Ok.
    destruct (vget_in (<[Z.to_nat j := prev ⊕ c ⊖ r]> norms) j) as [nj ->];
      [rewrite length_insert; lia|].
    rewrite bind_Ok.
    destruct (rltb nj (value part)); eexists; (split; [reflexivity|]); simpl;
      rewrite length_insert; lia.
  - exists norms, part. simpl in Hidx. split; [exact Hrun | exact Hidx].
Qed.

(** Partition validity, sequential overload. *)
Lemma ComputePartition_index (A : Matrix F) (n : Z) :
  2 ≤ n → Height A = n → Width A = n →
  ∃ part, ComputePartition A = Ok part ∧ 1 ≤ index part ≤ n - 1.
Proof.
  intros Hn Hh Hw. unfold ComputePartition, ComputePartition_norms. rewrite Hh.
  destruct (Z.eqb_spec n 0) as [|_]; [lia|].
  destruct (colSums_seq_length A n (replicate (Z.to_nat (n - 1)) rzero))
    as (cs & -> & Hlc); [lia | lia | apply length_replicate|].
  destruct (rowSums_seq_length A n (replicate (Z.to_nat (n - 1)) rzero))
    as (rs & -> & Hlr); [lia | lia | apply length_replicate|].
  rewrite !bind_Ok.
  destruct (scan_index n cs rs Hn Hlc Hlr) as (norms & part & -> & Hidx).
  exists part. split; [reflexivity | exact Hidx].
Qed.

(** With a single row the vectors are empty and line 65 reads
    [colSums[0]] outside of them. *)
Lemma ComputePartition_one_row (A : Matrix F) :
  Height A = 1 → ComputePartition A = Fault OutOfRange.
Proof.
  intros Hh. unfold ComputePartition, ComputePartition_norms. rewrite Hh.
  reflexivity.
Qed.

(** With no row the sequential overload leaves by [return;]. *)
Lemma ComputePartition_no_row (A : Matrix F) :
  Height A = 0 → ComputePartition A = Fault ReturnsNoValue.
Proof.
  intros Hh. unfold ComputePartition, ComputePartition_norms. rewrite Hh.
  reflexivity.
Qed.

Lemma ComputePartition_Dist_no_row (D : DistMatrix F) :
  Height (Global D) = 0 → ComputePartition_Dist D = Ok sentinel.
Proof. intros Hh. unfold ComputePartition_Dist. rewrite Hh. reflexivity. Qed.
End IndexRange.

Section IndexRangeDist.
Context {F Real : Type} `{RealOps Real} `{Scalar F Real}.
Variables (D : DistMatrix F) (n : Z).
Hypothesis Hheight : Height (Global D) = n.
Hypothesis Hwidth : Width (Global D) = n.
Hypothesis Hrows : 1 ≤ GridHeight D.
Hypothesis Hcols : 1 ≤ GridWidth D.

Lemma localSums_length (p : Process) (cs rs : list Real) :
  0 ≤ ColShift p → 0 ≤ RowShift p →
  length cs = Z.to_nat (n - 1) → length rs = Z.to_nat (n - 1) →
  ∃ cs' rs', localSums D p n (cs, rs) = Ok (cs', rs')
           ∧ length cs' = Z.to_nat (n - 1) ∧ length rs' = Z.to_nat (n - 1).
Proof.
  intros Hcs0 Hrs0 Hlc Hlr. unfold localSums. cbv zeta.
  destruct (Length_spec n (ColShift p) (ColStride D)) as [HH HHt]; [assumption..|].
  assert (LocalHeight D p = Length n (ColShift p) (ColStride D)) as HLH
    by (unfold LocalHeight; rewrite Hheight; reflexivity).
  pose (Inv := λ (_ : Z) (st : list Real * list Real),
          length st.1 = Z.to_nat (n - 1) ∧ length st.2 = Z.to_nat (n - 1)).
  destruct (for_range_inv_max Inv 0 (LocalWidth D p)
    (λ jLoc sums,
       if RowShift p + jLoc * RowStride D <? n - 1
       then for_range 0 (LocalHeight D p) (λ iLoc sums,
              if ColShift p + iLoc * ColStride D >? RowShift p + jLoc * RowStride D
              then a ← GetLocal D p iLoc jLoc;
                   colSums ← vadd sums.1 (RowShift p + jLoc * RowStride D) (Abs a);
                   a' ← GetLocal D p iLoc jLoc;
                   rowSums ← vadd sums.2 (ColShift p + iLoc * ColStride D - 1) (Abs a');
                   Ok (colSums, rowSums)
              else Ok sums) sums
       else Ok sums)
    (cs, rs)) as ([cs' rs'] & Hrun & HC' & HR').
  - split; assumption.
  - intros J st HJ HI.
    set (j := RowShift p + J * RowStride D).
    assert (0 ≤ j) as Hj0 by (unfold j, RowStride in *; nia).
    destruct (Z.ltb_spec j (n - 1)) as [Hjn|Hjn]; [|exists st; split; [reflexivity|exact HI]].
    apply (for_range_inv_max (λ _, Inv 0)); [exact HI|].
    intros I [c3 r3] HIr [Hc3 Hr3]. simpl in Hc3, Hr3.
    set (i := ColShift p + I * ColStride D).
    assert (i < n) as Hin by (apply HHt; lia).
    rewrite Z.gtb_ltb. destruct (Z.ltb_spec j i) as [Hji|Hji];
      [|exists (c3, r3); split; [reflexivity | split; assumption]].
    assert (GetLocal D p I J = Ok (entry (Global D) i j)) as ->.
    { unfold GetLocal. destruct (Z.leb_spec 0 I); [|lia].
      destruct (Z.ltb_spec I (LocalHeight D p)); [|lia].
      destruct (Z.leb_spec 0 J); [|lia].
      destruct (Z.ltb_spec J (LocalWidth D p)); [|lia]. reflexivity. }
    rewrite !bind_Ok. cbn [fst snd].
    destruct (vadd_in c3 j (Abs (entry (Global D) i j))) as (c4 & -> & Hc4); [lia|].
    rewrite !bind_Ok.
    destruct (vadd_in r3 (i - 1) (Abs (entry (Global D) i j))) as (r4 & -> & Hr4); [lia|].
    rewrite !bind_Ok. exists (c4, r4). split; [reflexivity|].
    split; simpl; congruence.
  - exists cs', rs'. split; [exact Hrun|]. exact (conj HC' HR').
Qed.

Lemma allLocalSums_returns (ps : list Process) :
  Forall (λ p, 0 ≤ ColShift p ∧ 0 ≤ RowShift p) ps →
  ∃ locals, allLocalSums D n ps = Ok locals.
Proof.
  induction 1 as [|p ps [Hc Hr] _ (locals & IH)].
  - exists []. reflexivity.
  - simpl.
    destruct (localSums_length p (replicate (Z.to_nat (n - 1)) rzero)
                (replicate (Z.to_nat (n - 1)) rzero) Hc Hr)
      as (cs & rs & -> & _); [apply length_replicate..|].
    rewrite bind_Ok, IH, bind_Ok. eauto.
Qed.

Lemma AllReduce_length (bufs : list (list Real)) (count : Z) :
  length (AllReduce bufs count) = Z.to_nat count.
Proof. unfold AllReduce. rewrite length_fmap, length_seq. reflexivity. Qed.

(** Partition validity, distributed overload. *)
Lemma ComputePartition_Dist_index :
  2 ≤ n →
  ∃ part, ComputePartition_Dist D = Ok part ∧ 1 ≤ index part ≤ n - 1.
Proof.
  intros Hn. unfold ComputePartition_Dist. rewrite Hheight.
  destruct (Z.eqb_spec n 0) as [|_]; [lia|].
  destruct (allLocalSums_returns (processes D)) as [locals ->].
  { apply processes_shifts. }
  rewrite bind_Ok.
  destruct (scan_index n (AllReduce (locals.*1) (n - 1))
              (AllReduce (locals.*2) (n - 1)) Hn)
    as (norms & part & -> & Hidx); [apply AllReduce_length..|].
  exists part. split; [reflexivity | exact Hidx].
Qed.

(** With a single row the reduced vectors are empty and line 134 reads
    [colSums[0]] outside of them. *)
Lemma ComputePartition_Dist_one_row :
  n = 1 → ComputePartition_Dist D = Fault OutOfRange.
Proof.
  intros Hn1. unfold ComputePartition_Dist. rewrite Hheight.
  destruct (Z.eqb_spec n 0) as [|_]; [lia|].
  destruct (allLocalSums_returns (processes D)) as [locals ->].
  { apply processes_shifts. }
  rewrite bind_Ok, Hn1. reflexivity.
Qed.
End IndexRangeDist.

(** ** The selector on a matrix without entries below the diagonal

    Every sum is a sum of zeros: the facts of this section ask of the
    arithmetic only what [zero_sums] says. *)

Section Triangular.
Context {F Real : Type} `{RealOps Real} `{Scalar F Real}.
Hypothesis Hzero : zero_sums Real.

Lemma colSum_triangular (A : Matrix F) (n j : Z) :
  upper_triangular A → colSum A n j = rzero.
Proof.
  intros Hup. apply rsum_zeros; [apply Hzero|].
  intros i Hi. apply Hup. lia.
Qed.

Lemma rowSum_triangular (A : Matrix F) (i : Z) :
  upper_triangular A → rowSum A i = rzero.
Proof.
  intros Hup. apply rsum_zeros; [apply Hzero|].
  intros j Hj. apply Hup. lia.
Qed.

Lemma ordered_zeros (m : Z) : ordered_below (λ _ : Z, rzero) m.
Proof.
  destruct Hzero as (_ & _ & Hlt).
  split; [intros; exact Hlt|].
  split; intros a b c _ _ _ H1 H2; [congruence | exact Hlt].
Qed.

Lemma first_min_zeros (m : Z) (part : ValueInt Real) :
  is_first_min (λ _, rzero) m part → part = mkValueInt rzero 1.
Proof.
  intros (Hidx & Hval & _ & Hfirst). destruct part as [v i]. simpl in *.
  subst v. f_equal. destruct (Z.eq_dec i 1) as [|Hne]; [assumption|].
  specialize (Hfirst 0 ltac:(lia)). destruct Hzero as (_ & _ & Hlt). congruence.
Qed.

(** The scan of vectors of zeros keeps the first split. *)
Lemma scan_zeros (n : Z) (cs rs : list Real) :
  2 ≤ n →
  length cs = Z.to_nat (n - 1) →
  (∀ j, 0 ≤ j < n - 1 → cs !! Z.to_nat j = Some rzero) →
  (∀ k, 0 ≤ k < n - 2 → rs !! Z.to_nat k = Some rzero) →
  ∃ norms, scan n cs rs = Ok (norms, mkValueInt rzero 1).
Proof.
  intros Hn Hlen Hcs Hrs.
  destruct (scan_spec n cs rs (λ _, rzero) (λ _, rzero) (λ _, rzero))
    as (norms & part & Hrun & _ & _ & Hmin); try assumption.
  - reflexivity.
  - intros j Hj. destruct Hzero as (Ha & Hs & _). rewrite Ha, Hs. reflexivity.
  - exists norms. rewrite Hrun.
    rewrite (first_min_zeros (n - 1) part); [reflexivity|].
    apply Hmin, ordered_zeros.
Qed.

Lemma ComputePartition_triangular (A : Matrix F) (n : Z) :
  2 ≤ n → Height A = n → Width A = n → upper_triangular A →
  ComputePartition A = Ok (mkValueInt rzero 1).
Proof.
  intros Hn Hh Hw Hup. unfold ComputePartition, ComputePartition_norms.
  rewrite Hh. destruct (Z.eqb_spec n 0) as [|_]; [lia|].
  destruct (colSums_seq_spec A n Hh ltac:(lia)) as (cs & -> & Hlc & Hcs).
  destruct (rowSums_seq_spec A n Hh ltac:(lia)) as (rs & -> & Hlr & Hrs).
  rewrite !bind_Ok.
  destruct (scan_zeros n cs rs Hn Hlc) as (norms & ->).
  - intros j Hj. rewrite Hcs by lia. rewrite colSum_triangular by exact Hup.
    reflexivity.
  - intros k Hk. rewrite Hrs by lia. rewrite rowSum_triangular by exact Hup.
    reflexivity.
  - reflexivity.
Qed.

Lemma vadd_zeros (m : nat) (j : Z) :
  0 ≤ j < Z.of_nat m →
  vadd (replicate m rzero) j rzero = Ok (replicate m (rzero : Real)).
Proof.
  intros Hj. rewrite (vadd_lookup _ j rzero) by (try lia; apply lookup_zeros; lia).
  destruct Hzero as (-> & _). f_equal.
  apply list_insert_id, lookup_zeros. lia.
Qed.

Lemma lsum_zeros (k : nat) : lsum (replicate k rzero) = (rzero : Real).
Proof.
  unfold lsum. induction k as [|k IH]; [reflexivity|].
  simpl. rewrite IH. apply Hzero.
Qed.

Lemma AllReduce_zeros (k m : nat) (count : Z) :
  AllReduce (replicate k (replicate m (rzero : Real))) count
  = replicate (Z.to_nat count) rzero.
Proof.
  unfold AllReduce. apply list_eq. intros i.
  rewrite list_lookup_fmap.
  destruct (decide (i < Z.to_nat count)%nat) as [Hi|Hi].
  - rewrite lookup_seq_lt by exact Hi. rewrite lookup_replicate_2 by exact Hi.
    simpl. f_equal. rewrite fmap_replicate.
    replace (default rzero (replicate m (rzero : Real) !! i)) with (rzero : Real).
    + apply lsum_zeros.
    + destruct (replicate m (rzero : Real) !! i) as [x|] eqn:Hx; [|reflexivity].
      apply lookup_replicate in Hx as [-> _]. reflexivity.
  - rewrite lookup_seq_ge by lia. simpl. symmetry.
    apply lookup_replicate_None. lia.
Qed.
End Triangular.

Section TriangularDist.
Context {F Real : Type} `{RealOps Real} `{Scalar F Real}.
Variables (D : DistMatrix F) (n : Z).
Hypothesis Hzero : zero_sums Real.
Hypothesis Hheight : Height (Global D) = n.
Hypothesis Hwidth : Width (Global D) = n.
Hypothesis Hrows : 1 ≤ GridHeight D.
Hypothesis Hcols : 1 ≤ GridWidth D.
Hypothesis Hup : upper_triangular (Global D).

(** Every process adds magnitudes that are zero to vectors of zeros. *)
Lemma localSums_triangular (p : Process) :
  0 ≤ ColShift p → 0 ≤ RowShift p →
  localSums D p n (replicate (Z.to_nat (n - 1)) rzero,
                   replicate (Z.to_nat (n - 1)) rzero)
  = Ok (replicate (Z.to_nat (n - 1)) rzero, replicate (Z.to_nat (n - 1)) rzero).
Proof.
  intros Hcs0 Hrs0. unfold localSums. cbv zeta.
  destruct (Length_spec n (ColShift p) (ColStride D)) as [HH HHt]; [assumption..|].
  assert (LocalHeight D p = Length n (ColShift p) (ColStride D)) as HLH
    by (unfold LocalHeight; rewrite Hheight; reflexivity).
  set (zeros := replicate (Z.to_nat (n - 1)) (rzero : Real)).
  pose (Inv := λ (_ : Z) (st : list Real * list Real), st = (zeros, zeros)).
  destruct (for_range_inv_max Inv 0 (LocalWidth D p)
    (λ jLoc sums,
       if RowShift p + jLoc * RowStride D <? n - 1
       then for_range 0 (LocalHeight D p) (λ iLoc sums,
              if ColShift p + iLoc * ColStride D >? RowShift p + jLoc * RowStride D
              then a ← GetLocal D p iLoc jLoc;
                   colSums ← vadd sums.1 (RowShift p + jLoc * RowStride D) (Abs a);
                   a' ← GetLocal D p iLoc jLoc;
                   rowSums ← vadd sums.2 (ColShift p + iLoc * ColStride D - 1) (Abs a');
                   Ok (colSums, rowSums)
              else Ok sums) sums
       else Ok sums)
    (zeros, zeros)) as (st & Hrun & Hst).
  - reflexivity.
  - intros J st HJ HI.
    set (j := RowShift p + J * RowStride D).
    assert (0 ≤ j) as Hj0 by (unfold j, RowStride in *; nia).
    destruct (Z.ltb_spec j (n - 1)) as [Hjn|Hjn]; [|exists st; split; [reflexivity|exact HI]].
    apply (for_range_inv_max (λ _, Inv 0)); [exact HI|].
    intros I st' HIr Hst'. unfold Inv in Hst'. subst st'.
    set (i := ColShift p + I * ColStride D).
    assert (i < n) as Hin by (apply HHt; lia).
    rewrite Z.gtb_ltb. destruct (Z.ltb_spec j i) as [Hji|Hji];
      [|exists (zeros, zeros); split; reflexivity].
    assert (GetLocal D p I J = Ok (entry (Global D) i j)) as ->.
    { unfold GetLocal. destruct (Z.leb_spec 0 I); [|lia].
      destruct (Z.ltb_spec I (LocalHeight D p)); [|lia].
      destruct (Z.leb_spec 0 J); [|lia].
      destruct (Z.ltb_spec J (LocalWidth D p)); [|lia]. reflexivity. }
    rewrite !bind_Ok. cbn [fst snd]. rewrite (Hup i j Hji).
    unfold zeros. rewrite (vadd_zeros Hzero) by lia. rewrite !bind_Ok.
    rewrite (Hup i j Hji), (vadd_zeros Hzero) by lia. rewrite !bind_Ok.
    exists (zeros, zeros). split; reflexivity.
  - unfold Inv in Hst. subst st. exact Hrun.
Qed.

Lemma allLocalSums_triangular (ps : list Process) :
  Forall (λ p, 0 ≤ ColShift p ∧ 0 ≤ RowShift p) ps →
  allLocalSums D n ps
  = Ok (replicate (length ps) (replicate (Z.to_nat (n - 1)) rzero,
                               replicate (Z.to_nat (n - 1)) rzero)).
Proof.
  induction 1 as [|p ps [Hc Hr] _ IH]; [reflexivity|].
  simpl. rewrite (localSums_triangular p Hc Hr), bind_Ok, IH. reflexivity.
Qed.

Lemma ComputePartition_Dist_triangular :
  2 ≤ n → ComputePartition_Dist D = Ok (mkValueInt rzero 1).
Proof.
  intros Hn. unfold ComputePartition_Dist. rewrite Hheight.
  destruct (Z.eqb_spec n 0) as [|_]; [lia|].
  rewrite (allLocalSums_triangular (processes D)) by apply processes_shifts.
  rewrite bind_Ok, !fmap_replicate. cbn [fst snd].
  rewrite !(AllReduce_zeros Hzero).
  destruct (scan_zeros Hzero n (replicate (Z.to_nat (n - 1)) rzero)
              (replicate (Z.to_nat (n - 1)) rzero) Hn) as (norms & ->).
  - apply length_replicate.
  - intros j Hj. apply lookup_zeros. lia.
  - intros k Hk. apply lookup_zeros. lia.
  - reflexivity.
Qed.
End TriangularDist.

(** Both overloads on a square matrix without entries below the diagonal:
    the value 0 at the first split. *)
Lemma ComputePartitionOn_triangular {F Real : Type} `{RealOps Real} `{Scalar F Real}
    (s : Storage) (A : Matrix F) (n : Z) :
  zero_sums Real → Storage_ok s → 2 ≤ n → square n A → upper_triangular A →
  ComputePartitionOn s A = Ok (mkValueInt rzero 1).
Proof.
  intros Hzero Hs Hn [Hh Hw] Hup. destruct s as [|r c]; simpl.
  - apply (ComputePartition_triangular Hzero A n); assumption.
  - destruct Hs as [Hr Hc].
    apply (ComputePartition_Dist_triangular (mkDistMatrix A r c) n); assumption.
Qed.

(** ** Reasoning about computations *)

Section EffectFacts.
Context {G : Type}.
Implicit Types (w : World G) (c : call).

Lemma M_bind_Ok {A B} (m : M G A) (f : A → M G B) w a w' :
  m w = (Ok a, w') → (m ≫= f) w = f a w'.
Proof. intros Hm. unfold mbind, M_bind. rewrite Hm. reflexivity. Qed.

Lemma M_bind_Fault {A B} (m : M G A) (f : A → M G B) w e w' :
  m w = (Fault e, w') → (m ≫= f) w = (Fault e, w').
Proof. intros Hm. unfold mbind, M_bind. rewrite Hm. reflexivity. Qed.

Lemma M_bind_kernel {A B} c (x : A) (f : A → M G B) w :
  (kernel c x ≫= f) w = f x (record c w).
Proof. reflexivity. Qed.

Lemma M_bind_ret {A B} (x : A) (f : A → M G B) w : (mret x ≫= f) w = f x w.
Proof. reflexivity. Qed.

Lemma M_bind_draw {A B} c (d : G → A * G) (f : A → M G B) w :
  (draw c d ≫= f) w = f (d (rng w)).1 (mkWorld (d (rng w)).2 (calls w ++ [c])).
Proof.
  unfold mbind, M_bind, draw. destruct (d (rng w)) as [x g]. reflexivity.
Qed.

Lemma M_bind_lift_Ok {A B} c (a : A) (f : A → M G B) w :
  (lift c (Ok a) ≫= f) w = f a (record c w).
Proof. reflexivity. Qed.

Lemma M_bind_lift_Fault {A B} c e (f : A → M G B) w :
  (lift c (Fault e) ≫= f) w = (Fault e, record c w).
Proof. reflexivity. Qed.

Lemma appends_ret {A} (x : A) : appends (mret x : M G A).
Proof. intros w. exists []. simpl. rewrite app_nil_r. reflexivity. Qed.

Lemma appends_raise {A} e : appends (raise e : M G A).
Proof. intros w. exists []. simpl. rewrite app_nil_r. reflexivity. Qed.

Lemma appends_kernel {A} c (x : A) : appends (kernel c x : M G A).
Proof. intros w. exists [c]. reflexivity. Qed.

Lemma appends_lift {A} c (r : Result A) : appends (lift c r : M G A).
Proof. intros w. exists [c]. reflexivity. Qed.

Lemma appends_draw {A} c (d : G → A * G) : appends (draw c d).
Proof. intros w. exists [c]. unfold draw. destruct (d (rng w)). reflexivity. Qed.

Lemma appends_bind {A B} (m : M G A) (f : A → M G B) :
  appends m → (∀ a, appends (f a)) → appends (m ≫= f).
Proof.
  intros Hm Hf w. unfold mbind, M_bind.
  destruct (Hm w) as [l1 Hl1]. destruct (m w) as [[a|e] w1]; simpl in Hl1.
  - destruct (Hf a w1) as [l2 Hl2]. exists (l1 ++ l2).
    rewrite Hl2, Hl1, app_assoc. reflexivity.
  - exists l1. exact Hl1.
Qed.

(** After a first recorded call the rest only adds to the record. *)
Lemma appends_after {A} (m : M G A) w (pre : list call) :
  appends m → ∀ w1, calls w1 = calls w ++ pre →
  ∃ l, calls (m w1).2 = calls w ++ pre ++ l.
Proof.
  intros Hm w1 Hw1. destruct (Hm w1) as [l Hl]. exists l.
  rewrite Hl, Hw1, app_assoc. reflexivity.
Qed.
End EffectFacts.

Create HintDb appends discriminated.
#[export] Hint Resolve appends_ret appends_raise appends_kernel appends_lift
  appends_draw : appends.

Ltac appends_step :=
  match goal with
  | |- appends (_ ≫= _) => apply appends_bind
  | |- appends (if ?b then _ else _) => destruct b
  | |- appends (match ?x with Some _ => _ | None => _ end) => destruct x
  | |- appends (let '(_, _) := ?x in _) => destruct x
  | |- ∀ _, _ => intros ?
  | |- appends _ => solve [eauto with appends]
  end.

Ltac solve_appends := repeat appends_step.

Section CoreFacts.
Context {F Real : Type} `{RealOps Real} `{Scalar F Real}
        `{LinAlg F Real} `{Overload F Real}.

Local Abbreviation Comp := (M RNG).

Lemma appends_similarity returnQ A G t B : appends (similarity returnQ A G t B).
Proof. unfold similarity. solve_appends. Qed.

Lemma appends_projector G : appends (projector G).
Proof. unfold projector. solve_appends. Qed.

#[local] Hint Resolve appends_similarity appends_projector : appends.

Lemma appends_SignDivide s A G returnQ : appends (SignDivide s A G returnQ).
Proof. unfold SignDivide. solve_appends. Qed.

Lemma appends_RSD_attempt s S n oneA returnQ st :
  appends (RSD_attempt s S n oneA returnQ st).
Proof. unfold RSD_attempt. solve_appends. Qed.

#[local] Hint Resolve appends_RSD_attempt : appends.

Lemma appends_RSD_loop s S n oneA returnQ maxIts relTol fuel st :
  appends (RSD_loop s S n oneA returnQ maxIts relTol fuel st).
Proof.
  revert st. induction fuel as [|fuel IH]; intros st; simpl; solve_appends.
Qed.

#[local] Hint Resolve appends_RSD_loop : appends.

Lemma appends_RandomizedSignDivide s A G returnQ maxIts relTol :
  appends (RandomizedSignDivide s A G returnQ maxIts relTol).
Proof.
  unfold RandomizedSignDivide, RandomizedSignDivide_loop. solve_appends.
Qed.

#[local] Hint Resolve appends_RandomizedSignDivide : appends.

Lemma appends_generator A : appends (generator A).
Proof. unfold generator. solve_appends. Qed.

#[local] Hint Resolve appends_generator : appends.

Lemma appends_SpectralDivide s A : appends (SpectralDivide s A).
Proof. unfold SpectralDivide. solve_appends. Qed.

Lemma appends_SpectralDivide_vectors s A Q :
  appends (SpectralDivide_vectors s A Q).
Proof. unfold SpectralDivide_vectors. solve_appends. Qed.

#[local] Hint Resolve appends_SpectralDivide appends_SpectralDivide_vectors
  : appends.

Lemma appends_SDC s fuel A cutoff : appends (SDC s fuel A cutoff).
Proof.
  revert A. induction fuel as [|fuel IH]; intros A; simpl; [solve_appends|].
  destruct (Height A <=? cutoff); [solve_appends|].
  apply appends_bind; [solve_appends|]. intros [part A1].
  destruct (PartitionDownDiagonal A1 (index part)) as [[[ATL ATR] ABL] ABR].
  apply appends_bind; [apply IH|]. intros ATL'.
  apply appends_bind; [apply IH|]. solve_appends.
Qed.
End CoreFacts.

#[export] Hint Resolve appends_similarity appends_projector appends_SignDivide
  appends_RSD_attempt appends_RSD_loop appends_RandomizedSignDivide
  appends_generator appends_SpectralDivide appends_SpectralDivide_vectors
  appends_SDC : appends.

(** ** One attempt of the randomized split *)

Section AttemptFacts.
Context {F Real : Type} `{RealOps Real} `{Scalar F Real}
        `{LinAlg F Real} `{Overload F Real}.

Lemma ComputePartitionOn_index (s : Storage) (A : Matrix F) (n : Z) :
  Storage_ok s → 2 ≤ n → square n A →
  ∃ part, ComputePartitionOn s A = Ok part ∧ 1 ≤ index part ≤ n - 1.
Proof.
  intros Hs Hn [Hh Hw]. destruct s as [|r c]; simpl.
  - apply ComputePartition_index; assumption.
  - destruct Hs as [Hr Hc].
    apply (ComputePartition_Dist_index (mkDistMatrix A r c) n); assumption.
Qed.

Lemma similarity_run returnQ (A G t B : Matrix F) (w : World RNG) :
  similarity returnQ A G t B w =
  (Ok (transformed returnQ A G t,
       if returnQ then explicitQ G t else G,
       if returnQ then Gemm ADJOINT NORMAL fone (explicitQ G t) A else B),
   mkWorld (rng w) (calls w ++ similarity_calls returnQ)).
Proof.
  unfold similarity, transformed, similarity_calls, explicitQ.
  destruct returnQ; unfold mbind, M_bind, kernel, record, mret, M_ret; simpl;
    rewrite <- !app_assoc; reflexivity.
Qed.

Lemma transformed_square `{!LinAlgShapes F Real} returnQ n (A G t : Matrix F) :
  square n A → square n G → square n (transformed returnQ A G t).
Proof.
  intros [HhA HwA] [HhG HwG]. unfold transformed, explicitQ, square.
  destruct returnQ.
  - rewrite !Gemm_Height, !Gemm_Width.
    destruct (Expand_shape LOWER VERTICAL UNCONJUGATED 0 G t) as [_ ->].
    split; assumption.
  - destruct (ApplyQ_shape RIGHT NORMAL G t (ApplyQ LEFT ADJOINT G t A)) as [-> ->].
    destruct (ApplyQ_shape LEFT ADJOINT G t A) as [-> ->]. split; assumption.
Qed.

Lemma attempt_factor_square `{!LinAlgShapes F Real} S n g :
  square n S → square n (attempt_factor S n g).1.
Proof.
  intros [Hh Hw]. unfold attempt_factor, square.
  destruct (ImplicitHaar n g) as [[V t] g'].
  destruct (elemQR_shape (ApplyQ RIGHT NORMAL V t S)) as [-> ->].
  destruct (ApplyQ_shape RIGHT NORMAL V t S) as [-> ->]. split; assumption.
Qed.

(** What one attempt does, in one equation. *)
Lemma RSD_attempt_run s S n oneA returnQ (st : RSDState F Real) (w : World RNG) :
  RSD_attempt s S n oneA returnQ st w =
  let Gt := attempt_factor S n (rng w) in
  let A' := transformed returnQ (rs_A st) Gt.1 Gt.2 in
  let w' := mkWorld (ImplicitHaar n (rng w)).2 (calls w ++ attempt_calls returnQ) in
  match ComputePartitionOn s A' with
  | Ok part =>
      (Ok (mkRSD (rs_it st) A'
             (if returnQ then explicitQ Gt.1 Gt.2 else Gt.1)
             (rs_A st)
             (if returnQ then Gemm ADJOINT NORMAL fone (explicitQ Gt.1 Gt.2) (rs_A st)
              else rs_B st)
             Gt.2
             (Some (mkValueInt (value part ⊘ oneA) (index part)))), w')
  | Fault e => (Fault e, w')
  end.
Proof.
  unfold RSD_attempt, attempt_factor, attempt_calls.
  rewrite M_bind_draw. destruct (ImplicitHaar n (rng w)) as [[V t] g]. simpl.
  rewrite M_bind_kernel, M_bind_kernel.
  destruct (elemQR (ApplyQ RIGHT NORMAL V t S)) as [Gf tf]. simpl.
  erewrite M_bind_Ok by apply similarity_run.
  unfold mbind, M_bind, lift, record, mret, M_ret. simpl.
  destruct (ComputePartitionOn s (transformed returnQ (rs_A st) Gf tf));
    simpl; rewrite <- !app_assoc; reflexivity.
Qed.
End AttemptFacts.

(** ** The retry loop of [RandomizedSignDivide] *)

Section RetryLoop.
Context {F Real : Type} `{RealOps Real} `{Scalar F Real}
        `{LinAlg F Real} `{Overload F Real}.
Variables (s : Storage) (S : Matrix F) (n : Z) (oneA : Real)
          (returnQ : bool) (maxIts : Z) (relTol : Real).

Local Abbreviation attempt := (RSD_attempt s S n oneA returnQ).
Local Abbreviation loop := (RSD_loop s S n oneA returnQ maxIts relTol).
Local Abbreviation RSD_step := (RSD_step s S n oneA returnQ maxIts relTol).
Local Abbreviation RSD_next := (RSD_next s S n oneA returnQ).
Local Abbreviation RSD_goes_on := (RSD_goes_on s S n oneA returnQ maxIts relTol).

Lemma RSD_attempt_Ok st w st1 w1 :
  attempt st w = (Ok st1, w1) →
  rs_it st1 = rs_it st
  ∧ rs_V st1 = rs_A st
  ∧ (∃ part, rs_part st1 = Some part)
  ∧ calls w1 = calls w ++ attempt_calls returnQ
  ∧ rs_G st1 = (if returnQ
                then explicitQ (attempt_factor S n (rng w)).1
                               (attempt_factor S n (rng w)).2
                else (attempt_factor S n (rng w)).1).
Proof.
  rewrite RSD_attempt_run. cbv zeta.
  destruct (ComputePartitionOn s _) as [part|e]; [|discriminate].
  intros [= <- <-]. simpl. eauto 10.
Qed.

Lemma RSD_attempt_calls st w :
  calls (attempt st w).2 = calls w ++ attempt_calls returnQ.
Proof.
  rewrite RSD_attempt_run. cbv zeta.
  destruct (ComputePartitionOn s _); reflexivity.
Qed.

Lemma RSD_stop_false (st : RSDState F Real) part :
  rs_part st = Some part →
  RSD_stop maxIts relTol st = false ↔
  rleb (value part) relTol = false ∧ rs_it st ≠ maxIts - 1.
Proof.
  intros Hp. unfold RSD_stop. rewrite Hp. rewrite orb_false_iff.
  destruct (Z.eqb_spec (rs_it st) (maxIts - 1)); intuition congruence.
Qed.

(** A failed attempt restores [A] from the copy saved during the attempt,
    which is the [A] the attempt started from. *)
Lemma RSD_step_restores x y :
  RSD_step x y →
  ∃ st1, attempt x.1 x.2 = (Ok st1, y.2)
       ∧ rs_V st1 = rs_A x.1
       ∧ rs_A y.1 = rs_V st1
       ∧ rs_it y.1 = rs_it x.1 + 1
       ∧ calls y.2 = calls x.2 ++ attempt_calls returnQ.
Proof.
  intros (Hit & st1 & part & Hrun & Hp & Htol & Hlast & Hy).
  destruct (RSD_attempt_Ok _ _ _ _ Hrun) as (Hi & HV & _ & Hc & _).
  exists st1. rewrite Hy. simpl. rewrite Hi. auto.
Qed.

Lemma RSD_loop_step fuel x y :
  RSD_step x y → loop (Datatypes.S fuel) x.1 x.2 = loop fuel y.1 y.2.
Proof.
  intros (Hit & st1 & part & Hrun & Hp & Htol & Hlast & Hy). simpl.
  destruct (Z.ltb_spec (rs_it x.1) maxIts); [|lia].
  erewrite M_bind_Ok by exact Hrun.
  rewrite (proj2 (RSD_stop_false st1 part Hp) (conj Htol Hlast)).
  rewrite Hy. reflexivity.
Qed.

Lemma RSD_steps_invariant k x y :
  nsteps RSD_step k x y →
  rs_A y.1 = rs_A x.1
  ∧ rs_it y.1 = rs_it x.1 + Z.of_nat k
  ∧ calls y.2 = calls x.2 ++ concat (replicate k (attempt_calls returnQ))
  ∧ ∀ fuel, loop (k + fuel)%nat x.1 x.2 = loop fuel y.1 y.2.
Proof.
  induction 1 as [x|k x y z Hstep _ (HA & Hit & Hcalls & Hloop)].
  - simpl. rewrite app_nil_r. repeat split; lia.
  - destruct (RSD_step_restores x y Hstep) as (st1 & _ & HV & HAy & Hity & Hcy).
    split; [congruence|]. split; [lia|]. split.
    + rewrite Hcalls, Hcy. simpl. rewrite <- app_assoc. reflexivity.
    + intros fuel. simpl plus. rewrite (RSD_loop_step _ x y Hstep). apply Hloop.
Qed.

Lemma RSD_loop_last fuel st w st1 w1 :
  rs_it st < maxIts →
  attempt st w = (Ok st1, w1) →
  RSD_stop maxIts relTol st1 = true →
  loop (Datatypes.S fuel) st w = (Ok st1, w1).
Proof.
  intros Hit Hrun Hstop. simpl.
  destruct (Z.ltb_spec (rs_it st) maxIts); [|lia].
  erewrite M_bind_Ok by exact Hrun. rewrite Hstop. reflexivity.
Qed.

Lemma RSD_step_intro x : RSD_goes_on x = true → RSD_step x (RSD_next x).
Proof.
  unfold RSD_goes_on, RSD_next. intros Hgo.
  apply andb_true_iff in Hgo as [Hit Hgo]. apply Z.ltb_lt in Hit.
  destruct (attempt x.1 x.2) as [[st1|e] w1] eqn:Hrun; [|discriminate].
  apply negb_true_iff in Hgo.
  destruct (RSD_attempt_Ok _ _ _ _ Hrun) as (_ & _ & [part Hp] & _).
  destruct (proj1 (RSD_stop_false st1 part Hp) Hgo) as [Htol Hlast].
  split; [exact Hit|]. exists st1, part. simpl. auto.
Qed.

Context `{!LinAlgShapes F Real}.
Hypothesis Hstorage : Storage_ok s.
Hypothesis Hn : 2 ≤ n.
Hypothesis HS : square n S.

(** On square matrices with at least two rows an attempt returns. *)
Lemma RSD_attempt_returns st w :
  square n (rs_A st) →
  ∃ st1 w1, attempt st w = (Ok st1, w1).
Proof.
  intros HA. rewrite RSD_attempt_run. cbv zeta.
  destruct (ComputePartitionOn_index s
              (transformed returnQ (rs_A st) (attempt_factor S n (rng w)).1
                 (attempt_factor S n (rng w)).2) n Hstorage Hn)
    as (part & -> & _); [|eauto].
  apply transformed_square; [exact HA | apply attempt_factor_square, HS].
Qed.

(** What a returning attempt leaves: a square [A] and a split index inside
    the matrix. *)
Lemma RSD_attempt_split st w st1 w1 :
  square n (rs_A st) →
  attempt st w = (Ok st1, w1) →
  square n (rs_A st1)
  ∧ ∃ part, rs_part st1 = Some part ∧ 1 ≤ index part ≤ n - 1.
Proof.
  intros HA. rewrite RSD_attempt_run. cbv zeta.
  assert (square n (transformed returnQ (rs_A st) (attempt_factor S n (rng w)).1
                      (attempt_factor S n (rng w)).2)) as HT
    by (apply transformed_square; [exact HA | apply attempt_factor_square, HS]).
  destruct (ComputePartitionOn_index s _ n Hstorage Hn HT) as (part & -> & Hidx).
  intros [= <- <-]. simpl. split; [exact HT|]. eauto.
Qed.

(** The loop, started before its bound, ends by [break]: after some
    failed attempts, one attempt passes the test of line 288.  The
    induction is on [maxIts - it], which [++it] decreases; the result is
    the same for every number of turns the model is given from
    [maxIts - it] on. *)
Lemma RSD_loop_total (m : nat) (st : RSDState F Real) (w : World RNG) :
  Z.of_nat m = maxIts - rs_it st → (1 ≤ m)%nat →
  square n (rs_A st) →
  ∃ k stb wb st' w',
    nsteps RSD_step k (st, w) (stb, wb)
    ∧ attempt stb wb = (Ok st', w')
    ∧ RSD_stop maxIts relTol st' = true
    ∧ rs_it st' < maxIts
    ∧ ∀ fuel, (m ≤ fuel)%nat → loop fuel st w = (Ok st', w').
Proof.
  revert st w. induction m as [|m IH]; intros st w Hm Hpos HA; [lia|].
  destruct (RSD_attempt_returns st w HA) as (st1 & w1 & Hrun).
  destruct (RSD_attempt_Ok _ _ _ _ Hrun) as (Hi & HV & [part Hp] & _ & _).
  destruct (RSD_stop maxIts relTol st1) eqn:Hstop.
  - exists O, st, w, st1, w1. split; [constructor|]. split; [exact Hrun|].
    split; [exact Hstop|]. split; [lia|].
    intros [|fuel] Hfuel; [lia|]. apply RSD_loop_last; [lia|assumption..].
  - pose proof (proj1 (RSD_stop_false st1 part Hp) Hstop) as [Htol Hlast].
    assert (RSD_step (st, w) (RSD_retry st1, w1)) as Hstep.
    { split; [simpl; lia|]. exists st1, part. simpl. auto. }
    destruct (IH (RSD_retry st1) w1)
      as (k & stb & wb & st' & w' & Hk & Hr & Hs & Hb & Hl).
    + simpl. lia.
    + lia.
    + simpl. rewrite HV. exact HA.
    + exists (Datatypes.S k), stb, wb, st', w'.
      split; [econstructor; eassumption|]. split; [exact Hr|].
      split; [exact Hs|]. split; [exact Hb|].
      intros [|fuel] Hfuel; [lia|].
      pose proof (RSD_loop_step fuel (st, w) (RSD_retry st1, w1) Hstep) as Hgo.
      cbn [fst snd] in Hgo. rewrite Hgo. apply Hl. lia.
Qed.
End RetryLoop.

(** ** The whole of [RandomizedSignDivide] *)

Section RandomizedSignDivideFacts.
Context {F Real : Type} `{RealOps Real} `{Scalar F Real}
        `{LinAlg F Real} `{Overload F Real}.

Lemma RandomizedSignDivide_loop_unfold s A G returnQ maxIts relTol w :
  RandomizedSignDivide_loop s A G returnQ maxIts relTol w =
  RSD_loop s (projected G) (Height A) (OneNorm A) returnQ maxIts
    (effectiveTol (Height A) relTol) (Datatypes.S (Z.to_nat maxIts))
    (RSD_entry A G) (RSD_entry_world w).
Proof. reflexivity. Qed.

Lemma RSD_loop_S s S n oneA returnQ maxIts relTol fuel (st : RSDState F Real) :
  RSD_loop s S n oneA returnQ maxIts relTol (Datatypes.S fuel) st
  = if rs_it st <? maxIts
    then st1 ← RSD_attempt s S n oneA returnQ st;
         if RSD_stop maxIts relTol st1 then mret st1
         else RSD_loop s S n oneA returnQ maxIts relTol fuel (RSD_retry st1)
    else mret st.
Proof. reflexivity. Qed.

Lemma projected_square `{!LinAlgShapes F Real} n (G : Matrix F) :
  square n G → square n (projected G).
Proof.
  intros [Hh Hw]. unfold projected, square. simpl.
  destruct (Sign_shape G) as [-> ->]. split; assumption.
Qed.

Lemma RSD_outcome_holds `{!LinAlgShapes F Real} s (A G : Matrix F) returnQ
    maxIts relTol w :
  Storage_ok s → 1 ≤ maxIts → 2 ≤ Height A →
  square (Height A) A → square (Height A) G →
  RSD_outcome s A G returnQ maxIts relTol w.
Proof.
  intros Hs Hmax Hn HA HG. unfold RSD_outcome. cbv zeta.
  destruct (RSD_loop_total s (projected G) (Height A) (OneNorm A) returnQ maxIts
              (effectiveTol (Height A) relTol) Hs Hn
              (projected_square _ _ HG) (Z.to_nat maxIts)
              (RSD_entry A G) (RSD_entry_world w))
    as (k & stb & wb & st & w' & Hk & Hr & Hstop & Hb & Hl);
    [simpl; lia | lia | exact HA |].
  destruct (RSD_steps_invariant _ _ _ _ _ _ _ _ _ _ Hk) as (_ & Hit & Hcalls & _).
  destruct (RSD_attempt_Ok _ _ _ _ _ _ _ _ _ Hr) as (Hi & _ & [part Hp] & Hc & _).
  simpl in Hit, Hcalls.
  exists k, stb, wb, st, w', part.
  split; [exact Hk|]. split; [exact Hr|]. split; [exact Hp|].
  split; [lia|]. split.
  - unfold RSD_stop in Hstop. rewrite Hp in Hstop.
    apply orb_true_iff in Hstop as [Htol|Hlast]; [left; exact Htol|].
    right. apply Z.eqb_eq in Hlast. lia.
  - split.
    + unfold RandomizedSignDivide.
      erewrite M_bind_Ok
        by (rewrite RandomizedSignDivide_loop_unfold; apply Hl; lia).
      rewrite Hp. reflexivity.
    + rewrite Hc, Hcalls, replicate_S_end, concat_app. simpl.
      rewrite app_nil_r, <- !app_assoc. reflexivity.
Qed.

(** Any number of turns from [maxIts] on gives the loop of the routine. *)
Lemma RSD_loop_budget `{!LinAlgShapes F Real} s (A G : Matrix F) returnQ
    maxIts relTol w (fuel : nat) :
  Storage_ok s → 1 ≤ maxIts → 2 ≤ Height A →
  square (Height A) A → square (Height A) G →
  maxIts ≤ Z.of_nat fuel →
  RSD_loop s (projected G) (Height A) (OneNorm A) returnQ maxIts
    (effectiveTol (Height A) relTol) fuel (RSD_entry A G) (RSD_entry_world w)
  = RandomizedSignDivide_loop s A G returnQ maxIts relTol w.
Proof.
  intros Hs Hmax Hn HA HG Hfuel.
  destruct (RSD_loop_total s (projected G) (Height A) (OneNorm A) returnQ maxIts
              (effectiveTol (Height A) relTol) Hs Hn
              (projected_square _ _ HG) (Z.to_nat maxIts)
              (RSD_entry A G) (RSD_entry_world w))
    as (k & stb & wb & st & w' & _ & _ & _ & _ & Hl);
    [simpl; lia | lia | exact HA |].
  rewrite RandomizedSignDivide_loop_unfold, !Hl by lia. reflexivity.
Qed.

(** The loop makes at most [maxIts - it] attempts, whatever number of turns
    the model gives it: every turn that goes on has increased [it]. *)
Lemma RSD_loop_bounded s S n oneA returnQ maxIts relTol fuel
    (st : RSDState F Real) (w : World RNG) :
  ∃ k : nat,
    Z.of_nat k ≤ Z.max 0 (maxIts - rs_it st)
    ∧ calls (RSD_loop s S n oneA returnQ maxIts relTol fuel st w).2
      = calls w ++ concat (replicate k (attempt_calls returnQ)).
Proof.
  revert st w. induction fuel as [|fuel IH]; intros st w.
  { exists O. split; [lia|]. simpl. rewrite app_nil_r. reflexivity. }
  rewrite RSD_loop_S.
  destruct (Z.ltb_spec (rs_it st) maxIts) as [Hit|Hit].
  2:{ exists O. split; [lia|]. simpl. rewrite app_nil_r. reflexivity. }
  pose proof (RSD_attempt_calls s S n oneA returnQ st w) as Hcalls.
  unfold mbind, M_bind.
  destruct (RSD_attempt s S n oneA returnQ st w) as [[st1|e] w1] eqn:Hrun;
    simpl in Hcalls.
  - destruct (RSD_attempt_Ok _ _ _ _ _ _ _ _ _ Hrun) as (Hi & _).
    destruct (RSD_stop maxIts relTol st1).
    + exists 1%nat. split; [lia|]. simpl. rewrite app_nil_r. exact Hcalls.
    + destruct (IH (RSD_retry st1) w1) as (k & Hk & Hl).
      exists (Datatypes.S k). split; [simpl in Hk; lia|].
      rewrite Hl, Hcalls. simpl. rewrite <- app_assoc. reflexivity.
  - exists 1%nat. split; [lia|]. simpl. rewrite app_nil_r. exact Hcalls.
Qed.

(** X7.  Whatever the shapes of [A] and [G], a call makes at most [maxIts]
    attempts, whether it returns or faults: after the one-norm and the
    sign function the record holds the calls of [k <= maxIts] attempts and
    nothing else.  The bound is that of the counter [it], which every turn
    that goes on increases: it holds for the loop under every number of
    turns that the model may be given, not only the one of
    [RandomizedSignDivide_loop]. *)
Theorem RandomizedSignDivide_attempts_bounded s (A G : Matrix F) returnQ
    maxIts relTol w :
  0 ≤ maxIts →
  (∃ k : nat,
     Z.of_nat k ≤ maxIts
     ∧ calls (RandomizedSignDivide s A G returnQ maxIts relTol w).2
       = calls w ++ [CallOneNorm; CallSign]
         ++ concat (replicate k (attempt_calls returnQ)))
  ∧ ∀ fuel : nat, ∃ k : nat,
      Z.of_nat k ≤ maxIts
      ∧ calls (RSD_loop s (projected G) (Height A) (OneNorm A) returnQ maxIts
                 (effectiveTol (Height A) relTol) fuel
                 (RSD_entry A G) (RSD_entry_world w)).2
        = calls w ++ [CallOneNorm; CallSign]
          ++ concat (replicate k (attempt_calls returnQ)).
Proof.
  intros Hmax.
  assert (∀ fuel : nat, ∃ k : nat,
            Z.of_nat k ≤ maxIts
            ∧ calls (RSD_loop s (projected G) (Height A) (OneNorm A) returnQ maxIts
                       (effectiveTol (Height A) relTol) fuel
                       (RSD_entry A G) (RSD_entry_world w)).2
              = calls w ++ [CallOneNorm; CallSign]
                ++ concat (replicate k (attempt_calls returnQ))) as Hloop.
  { intros fuel.
    destruct (RSD_loop_bounded s (projected G) (Height A) (OneNorm A) returnQ maxIts
                (effectiveTol (Height A) relTol) fuel
                (RSD_entry A G) (RSD_entry_world w)) as (k & Hk & Hl).
    exists k. split; [simpl in Hk; lia|].
    rewrite Hl. simpl. rewrite <- !app_assoc. reflexivity. }
  split; [|exact Hloop].
  destruct (Hloop (Datatypes.S (Z.to_nat maxIts))) as (k & Hk & Hl).
  exists k. split; [exact Hk|].
  unfold RandomizedSignDivide, mbind, M_bind.
  rewrite RandomizedSignDivide_loop_unfold.
  destruct (RSD_loop _ _ _ _ _ _ _ _ _ _) as [[st|e] w1]; simpl in Hl |- *.
  - destruct (rs_part st); simpl; exact Hl.
  - exact Hl.
Qed.

(** X6.  Without an attempt there is no partition to return: for
    [maxIts <= 0] the body of the loop is never entered and [part], which
    line 259 declares without a value, is returned as it is. *)
Theorem RandomizedSignDivide_no_attempt s (A G : Matrix F) returnQ maxIts relTol w :
  maxIts ≤ 0 →
  RandomizedSignDivide s A G returnQ maxIts relTol w
  = (Fault Uninitialized, RSD_entry_world w).
Proof.
  intros Hmax. unfold RandomizedSignDivide.
  rewrite (M_bind_Ok _ _ w (RSD_entry A G) (RSD_entry_world w)); [reflexivity|].
  rewrite RandomizedSignDivide_loop_unfold, RSD_loop_S.
  destruct (Z.ltb_spec (rs_it (RSD_entry A G)) maxIts) as [Hit|_];
    [simpl in Hit; lia | reflexivity].
Qed.

(** On square matrices with at least two rows the call returns, with a
    square [A] and a split index inside it. *)
Lemma RandomizedSignDivide_returns `{!LinAlgShapes F Real} s (A G : Matrix F)
    returnQ maxIts relTol w :
  Storage_ok s → 1 ≤ maxIts → 2 ≤ Height A →
  square (Height A) A → square (Height A) G →
  ∃ part A' G' w',
    RandomizedSignDivide s A G returnQ maxIts relTol w = (Ok (part, A', G'), w')
    ∧ square (Height A) A' ∧ 1 ≤ index part ≤ Height A - 1.
Proof.
  intros Hs Hmax Hn HA HG.
  destruct (RSD_outcome_holds s A G returnQ maxIts relTol w Hs Hmax Hn HA HG)
    as (k & stb & wb & st & w' & part & Hk & Hr & Hp & _ & _ & Hrun & _).
  destruct (RSD_steps_invariant _ _ _ _ _ _ _ _ _ _ Hk) as (HAb & _).
  simpl in HAb.
  destruct (RSD_attempt_split s (projected G) (Height A) (OneNorm A) returnQ
              Hs Hn (projected_square _ _ HG) stb wb st w')
    as (HA' & part' & Hp' & Hidx); [rewrite HAb; exact HA | exact Hr |].
  exists part, (rs_A st), (rs_G st), w'.
  split; [exact Hrun|]. split; [exact HA'|]. congruence.
Qed.

(** ** The generator of [SpectralDivide] *)

Lemma SetDiagonal_restore (A : Matrix F) (alpha : F) :
  SetDiagonalFrom (SetDiagonal A alpha) (GetDiagonal A) = A.
Proof.
  destruct A as [h w e]. unfold SetDiagonalFrom, SetDiagonal, GetDiagonal. simpl.
  f_equal. apply functional_extensionality. intros i.
  apply functional_extensionality. intros j.
  destruct (Z.eqb_spec i j) as [->|]; reflexivity.
Qed.

Lemma generator_run (A : Matrix F) (w : World RNG) :
  generator A w =
  (Ok (A, generator_of A (rng w)),
   mkWorld (drawn_rotation (drawn_shift A (rng w)).2).2
           (calls w ++ generator_calls)).
Proof.
  unfold generator, generator_of, generator_calls, drawn_rotation, drawn_shift,
    gershCenter, offDiagInf.
  rewrite M_bind_kernel, M_bind_kernel, SetDiagonal_restore, M_bind_draw. simpl.
  destruct (SampleBall _ _ (rng w)) as [shift g1]. simpl.
  destruct rotation as [F_of|].
  - rewrite M_bind_draw. simpl.
    destruct (Uniform rzero (rofInt 2 ⊗ Pi) g1) as [angle g2]. simpl.
    unfold mret, M_ret. rewrite <- !app_assoc. reflexivity.
  - unfold mret, M_ret. simpl. rewrite <- !app_assoc. reflexivity.
Qed.

Lemma generator_of_square n (A : Matrix F) g :
  square n A → square n (generator_of A g).
Proof.
  intros HA. unfold generator_of. destruct (drawn_rotation _).1; exact HA.
Qed.

(** A computation whose record is known, followed by one that only adds. *)
Lemma bind_calls_prefix {X Y} (m : M RNG X) (f : X → M RNG Y) w pre :
  calls (m w).2 = calls w ++ pre →
  (∀ x, appends (f x)) →
  ∃ l, calls ((m ≫= f) w).2 = calls w ++ pre ++ l.
Proof.
  intros Hm Hf. unfold mbind, M_bind.
  destruct (m w) as [[x|e] w1]; simpl in Hm.
  - destruct (Hf x w1) as [l Hl]. exists l.
    rewrite Hl, Hm, app_assoc. reflexivity.
  - exists []. simpl. rewrite Hm, app_nil_r. reflexivity.
Qed.

Lemma bind_calls_prefix_more {X Y} (m : M RNG X) (f : X → M RNG Y) w pre :
  (∃ l, calls (m w).2 = calls w ++ pre ++ l) →
  (∀ x, appends (f x)) →
  ∃ l, calls ((m ≫= f) w).2 = calls w ++ pre ++ l.
Proof.
  intros [l1 Hm] Hf.
  destruct (bind_calls_prefix m f w (pre ++ l1) Hm Hf) as [l Hl].
  exists (l1 ++ l). rewrite Hl, <- !app_assoc. reflexivity.
Qed.

(** A loop that is entered makes a complete attempt. *)
Lemma RSD_loop_first_attempt s S n oneA returnQ maxIts relTol fuel st w :
  rs_it st < maxIts →
  ∃ l, calls (RSD_loop s S n oneA returnQ maxIts relTol (Datatypes.S fuel) st w).2
       = calls w ++ attempt_calls returnQ ++ l.
Proof.
  intros Hit.
  change (RSD_loop s S n oneA returnQ maxIts relTol (Datatypes.S fuel) st)
    with (if rs_it st <? maxIts
          then st1 ← RSD_attempt s S n oneA returnQ st;
               if RSD_stop maxIts relTol st1 then mret st1
               else RSD_loop s S n oneA returnQ maxIts relTol fuel (RSD_retry st1)
          else mret st).
  destruct (Z.ltb_spec (rs_it st) maxIts); [|lia].
  apply bind_calls_prefix; [apply RSD_attempt_calls|].
  intros st1. destruct (RSD_stop maxIts relTol st1);
    [apply appends_ret | apply appends_RSD_loop].
Qed.

Lemma RandomizedSignDivide_first_attempt s A G returnQ maxIts relTol w :
  1 ≤ maxIts →
  ∃ l, calls (RandomizedSignDivide s A G returnQ maxIts relTol w).2
       = calls w ++ ([CallOneNorm; CallSign] ++ attempt_calls returnQ) ++ l.
Proof.
  intros Hmax. unfold RandomizedSignDivide.
  apply bind_calls_prefix_more.
  - rewrite RandomizedSignDivide_loop_unfold.
    destruct (RSD_loop_first_attempt s (projected G) (Height A) (OneNorm A)
                returnQ maxIts (effectiveTol (Height A) relTol) (Z.to_nat maxIts)
                (RSD_entry A G) (RSD_entry_world w)) as [l Hl]; [simpl; lia|].
    exists l. rewrite Hl. simpl. rewrite <- !app_assoc. reflexivity.
  - intros st. destruct (rs_part st); [apply appends_ret | apply appends_raise].
Qed.

Lemma SpectralDivide_first_attempt s A w :
  ∃ l, calls (SpectralDivide s A w).2 =
         calls w ++ (generator_calls ++ [CallOneNorm; CallSign]
                     ++ attempt_calls false) ++ l.
Proof.
  unfold SpectralDivide. erewrite M_bind_Ok by apply generator_run.
  set (w1 := mkWorld _ (calls w ++ generator_calls)).
  destruct (bind_calls_prefix_more
              (RandomizedSignDivide s A (generator_of A (rng w)) false
                 default_maxIts default_relTol)
              (λ r : ValueInt Real * Matrix F * Matrix F,
                 let '(part, A', _) := r in mret (part, A'))
              w1 ([CallOneNorm; CallSign] ++ attempt_calls false)) as [l Hl].
  - apply RandomizedSignDivide_first_attempt. unfold default_maxIts. lia.
  - intros [[part A'] G']. apply appends_ret.
  - exists l. rewrite Hl. subst w1. simpl. rewrite <- !app_assoc. reflexivity.
Qed.
(** The split of a square matrix with at least two rows returns a square
    matrix and an index at which it can be partitioned. *)
Lemma SpectralDivide_returns `{!LinAlgShapes F Real} s (A : Matrix F) w :
  Storage_ok s → 2 ≤ Height A → square (Height A) A →
  ∃ part A' w',
    SpectralDivide s A w = (Ok (part, A'), w')
    ∧ square (Height A) A' ∧ 1 ≤ index part ≤ Height A - 1.
Proof.
  intros Hs Hn HA. unfold SpectralDivide.
  erewrite M_bind_Ok by apply generator_run.
  destruct (RandomizedSignDivide_returns s A (generator_of A (rng w)) false
              default_maxIts default_relTol
              (mkWorld (drawn_rotation (drawn_shift A (rng w)).2).2
                       (calls w ++ generator_calls))
              Hs ltac:(unfold default_maxIts; lia) Hn HA
              (generator_of_square _ _ _ HA))
    as (part & A' & G' & w' & Hrun & HA' & Hidx).
  exists part, A', w'. erewrite M_bind_Ok by exact Hrun. auto.
Qed.

Lemma SpectralDivide_vectors_returns `{!LinAlgShapes F Real} s (A Q : Matrix F) w :
  Storage_ok s → 2 ≤ Height A → square (Height A) A →
  ∃ part A' Q' w',
    SpectralDivide_vectors s A Q w = (Ok (part, A', Q'), w')
    ∧ square (Height A) A' ∧ 1 ≤ index part ≤ Height A - 1.
Proof.
  intros Hs Hn HA. unfold SpectralDivide_vectors.
  erewrite M_bind_Ok by apply generator_run.
  apply RandomizedSignDivide_returns;
    [exact Hs | unfold default_maxIts; lia | exact Hn | exact HA
    | apply generator_of_square, HA].
Qed.
End RandomizedSignDivideFacts.

(** ** The exact scalars obey the laws and the reference kernels keep shapes *)

#[export] Instance Qc_RealLaws : RealLaws Qc.
Proof.
  split.
  - exact Qcrt.
  - intros a. apply bool_decide_eq_false. apply Qcle_not_lt, Qcle_refl.
  - intros a b c Hab Hbc. apply bool_decide_eq_true in Hab, Hbc.
    apply bool_decide_eq_true. eapply Qclt_trans; eassumption.
  - intros a b c Hab Hbc. apply bool_decide_eq_false in Hab, Hbc.
    apply bool_decide_eq_false. apply Qcle_not_lt.
    apply Qcnot_lt_le in Hab, Hbc. eapply Qcle_trans; eassumption.
Qed.

#[export] Instance Idle_Shapes : LinAlgShapes Qc Qc.
Proof. split; intros; simpl; try split; reflexivity. Qed.

#[export] Instance Float_Shapes : LinAlgShapes float float.
Proof. split; intros; simpl; try split; reflexivity. Qed.

(** ** Evaluation on small inputs *)

(** Column sums 1, 0 and row sum 1 give the norms 1, 0: the split at 2. *)
Example ComputePartition_late3 : shown (ComputePartition late3) = Ok (2, 0%Q).
Proof. vm_compute. reflexivity. Qed.

(** Column sums 7, 1, 0 and row sums 1, 3 give the norms 7, 7, 4, over one
    process and over a 2 x 3 grid alike. *)
Example ComputePartition_coupled4 :
  shown (ComputePartition coupled4) = Ok (3, 4%Q)
  ∧ shown (ComputePartition_Dist (mkDistMatrix coupled4 2 3)) = Ok (3, 4%Q).
Proof. split; vm_compute; reflexivity. Qed.

(** With kernels that transform nothing, [coupled2] keeps its coupling 3
    of one-norm 4 in each of three attempts, and the third is returned. *)
Example RandomizedSignDivide_coupled2 :
  let r := RandomizedSignDivide Sequential coupled2 coupled2 false 3 rzero world0 in
  shown (x ← r.1; Ok x.1.1) = Ok (1, (3 # 4)%Q)
  ∧ rng r.2 = 3%nat
  ∧ calls r.2 = [CallOneNorm; CallSign] ++ concat (replicate 3 (attempt_calls false)).
Proof. vm_compute. auto. Qed.

(** In binary64 the scores of [big3] are [2^53] and [2^53 - 1] and the
    split at 2 is returned; in exact arithmetic both are [2^53 + 1] and
    the split at 1 is. *)
Example ComputePartition_big3 :
  ComputePartition_norms big3
  = Ok ([9007199254740992%float; 9007199254740991%float],
        mkValueInt 9007199254740991%float 2)
  ∧ shown (ComputePartition (ofRows big3_rows 3 3))
    = Ok (1, (9007199254740993 # 1)%Q).
Proof. split; vm_compute; reflexivity. Qed.

(** In binary64 the two overloads need not agree: over one process the
    first column of [uneven4] sums to [2^53], over a 2 x 1 grid to
    [2^53 + 2], and the values returned are -1 and 0. *)
Example ComputePartition_uneven4 :
  ComputePartition uneven4 = Ok (mkValueInt (-1)%float 3)
  ∧ ComputePartition_Dist (mkDistMatrix uneven4 2 1) = Ok (mkValueInt 0%float 3).
Proof. split; vm_compute; reflexivity. Qed.

(** In binary64 the zero matrix is split ten times, each attempt achieving
    0/0, and the NaN of the tenth is returned. *)
Example SpectralDivide_zero_binary64 :
  let r := SpectralDivide Sequential (zeroOf float 2) worldF in
  (x ← r.1; Ok (value x.1, index x.1)) = Ok (nan, 1)
  ∧ calls r.2 = generator_calls (F:=float) (Real:=float) ++ [CallOneNorm; CallSign]
                ++ concat (replicate 10 (attempt_calls false)).
Proof. vm_compute. auto. Qed.

(** A matrix with one row and [cutoff = 0]: the split is run up to the
    selector, which reads outside its vectors. *)
Example SDC_one_row_cutoff_zero :
  let r := SDC Sequential 3 (ofRows [[5]] 1 1) 0 world0 in
  r.1 = Fault OutOfRange
  ∧ calls r.2 = generator_calls (F:=Qc) (Real:=Qc) ++ [CallOneNorm; CallSign]
                ++ attempt_calls false.
Proof. vm_compute. auto. Qed.

(** * The claims on [ComputePartition] *)

(** C1 (the sizes without a split).  On a matrix with no row the sequential
    overload leaves by [return;] and hands no sentinel back, and on a
    matrix with one row both overloads read [colSums[0]] of an empty
    vector; only the distributed overload on a matrix with no row returns the
    sentinel [(index = -1, value = -1)]. *)
Theorem ComputePartition_degenerate_sizes {F Real : Type}
    `{RealOps Real} `{Scalar F Real} (e : Z → Z → F) :
  ComputePartition (mkMatrix 0 0 e) = Fault ReturnsNoValue
  ∧ ComputePartition (mkMatrix 1 1 e) = Fault OutOfRange
  ∧ ComputePartition_Dist (mkDistMatrix (mkMatrix 1 1 e) 2 2) = Fault OutOfRange
  ∧ ComputePartition_Dist (mkDistMatrix (mkMatrix 0 0 e) 2 2) = Ok sentinel.
Proof.
  split; [apply ComputePartition_no_row; reflexivity|].
  split; [apply ComputePartition_one_row; reflexivity|].
  split.
  - apply (ComputePartition_Dist_one_row _ 1); try reflexivity;
      cbn [GridHeight GridWidth]; lia.
  - apply ComputePartition_Dist_no_row. reflexivity.
Qed.

(** X1 (the part of C1 on matrices that can be split).  On a square matrix
    with [n >= 2] rows both overloads return an index in [[1, n-1]],
    whatever the arithmetic of [Real] does. *)
Theorem ComputePartition_index_in_range {F Real : Type}
    `{RealOps Real} `{Scalar F Real} (s : Storage) (A : Matrix F) (n : Z) :
  Storage_ok s → 2 ≤ n → Height A = n → Width A = n →
  ∃ part, ComputePartitionOn s A = Ok part ∧ 1 ≤ index part ≤ n - 1.
Proof.
  intros Hs Hn Hh Hw. destruct s as [|r c]; simpl.
  - apply ComputePartition_index; assumption.
  - destruct Hs as [Hr Hc].
    apply (ComputePartition_Dist_index (mkDistMatrix A r c) n); assumption.
Qed.

Lemma ComputePartition_index_in_range_witness :
  ∃ part, ComputePartitionOn (Distributed 2 3)
            coupled4 = Ok part
        ∧ 1 ≤ index part ≤ 4 - 1.
Proof.
  apply (ComputePartition_index_in_range (Distributed 2 3) _ 4);
    [simpl; lia | lia | reflexivity | reflexivity].
Defined.

(** C4 as stated fails twice.  With the positions [j] in [[0, n-2)] the
    minimum of a 3 x 3 matrix would be taken over the single split at 1,
    and on [late3] the code returns the split at 2, of block sum 0, while
    the block of the split at 1 sums to 1.  And with the range of the
    code, on binary64 the running score is not the block sum: on [big3]
    both blocks sum to [2^53 + 1], which binary64 rounds to [2^53], while
    [norms[1] = (norms[0] + 1) - 1] is computed as [2^53 - 1], so that the
    split at 2 is returned, not the first minimizer. *)
Lemma block_sums_counterexample :
  ¬ block_sums_up_to (3 - 2) late3 3
  ∧ ¬ block_sums_up_to (3 - 1) big3 3.
Proof.
  split.
  - intros (norms & part & Hrun & _ & _ & j & Hj & Hidx & _).
    apply (f_equal (λ r, match r with Ok (_, p) => index p | Fault _ => 0 end))
      in Hrun.
    destruct part as [v i]. simpl in Hidx. vm_compute in Hrun. lia.
  - intros (norms & part & Hrun & _ & Hnorms & _).
    specialize (Hnorms 1 ltac:(lia)).
    vm_compute in Hrun. injection Hrun as <- <-.
    apply (f_equal (λ o, match o with
                         | Some x => PrimFloat.ltb x 9007199254740992%float
                         | None => false
                         end)) in Hnorms.
    vm_compute in Hnorms. discriminate.
Qed.

(** C4, amended to the range of the code and to the scores as they are
    computed.  For every [j] in [[0, n-1)] the entry [norms[j]] is the
    running score of the recurrence, whatever the arithmetic; where the
    scores compare consistently the value returned is their minimum and
    the index is one more than the first position where it is attained;
    and in exact arithmetic the running score is the sum of the magnitudes
    of the block with rows [i >= j+1] and columns [k <= j]. *)
Theorem ComputePartition_minimizes_scores {F Real : Type}
    `{RealOps Real} `{Scalar F Real} (A : Matrix F) (n : Z) :
  2 ≤ n → Height A = n → Width A = n → scores_minimized A n.
Proof.
  intros Hn Hh Hw.
  destruct (ComputePartition_scores A n Hn Hh Hw)
    as (norms & part & Hrun & _ & Hnorms & Hmin).
  exists norms, part. split; [exact Hrun|]. split.
  - unfold ComputePartition. rewrite Hrun. reflexivity.
  - split; [exact Hnorms|]. split; [exact Hmin|].
    intros Hlaws j Hj. apply score_blockSum. lia.
Qed.

(** On binary64, at the matrix of the counterexample: the scores [2^53]
    and [2^53 - 1] compare consistently, and the split at 2 is their first
    minimum. *)
Lemma ComputePartition_minimizes_scores_witness :
  scores_minimized big3 3 ∧ ordered_below (score big3 3) (3 - 1).
Proof.
  split.
  - apply (ComputePartition_minimizes_scores big3 3);
      [lia | reflexivity | reflexivity].
  - assert (∀ a, 0 ≤ a < 3 - 1 → a = 0 ∨ a = 1) as Hcase by (intros; lia).
    split; [|split].
    + intros a Ha. destruct (Hcase a Ha) as [-> | ->]; vm_compute; reflexivity.
    + intros a b c Ha Hb Hc.
      destruct (Hcase a Ha) as [-> | ->], (Hcase b Hb) as [-> | ->],
        (Hcase c Hc) as [-> | ->]; vm_compute; congruence.
    + intros a b c Ha Hb Hc.
      destruct (Hcase a Ha) as [-> | ->], (Hcase b Hb) as [-> | ->],
        (Hcase c Hc) as [-> | ->]; vm_compute; congruence.
Defined.

(** C8 (the overloads on an empty matrix).  The distributed overload returns
    the sentinel and the sequential overload returns no value: on a matrix
    with no row the two do not return the same pair. *)
Theorem ComputePartition_overloads_on_empty {F Real : Type}
    `{RealOps Real} `{Scalar F Real} (e : Z → Z → F) (r c : Z) :
  ComputePartition_Dist (mkDistMatrix (mkMatrix 0 0 e) r c) = Ok sentinel
  ∧ ComputePartition (mkMatrix 0 0 e) = Fault ReturnsNoValue
  ∧ ComputePartition_Dist (mkDistMatrix (mkMatrix 0 0 e) r c)
    ≠ ComputePartition (mkMatrix 0 0 e).
Proof.
  split; [reflexivity|]. split; [reflexivity|]. discriminate.
Qed.

(** * The claims on the randomized split *)

Section SplitClaims.
Context {F Real : Type} `{RealOps Real} `{Scalar F Real}
        `{LinAlg F Real} `{Overload F Real}.

(** C2, amended to the inputs the routine is written for.  For
    [maxIts >= 1], on square matrices [A] and [G] of one size with at least
    two rows, [RandomizedSignDivide] returns after at most [maxIts]
    attempts: the attempts before the last all exceed the tolerance (which
    is [50*n*MachineEpsilon] when [relTol] compares equal to 0), the last
    one meets it or is the [maxIts]-th, and its partition is what is
    returned, without a fault.  The loop ends by its counter: given any
    number of turns from [maxIts] on, it ends in the same state and never
    in [NoFuel]. *)
Theorem RandomizedSignDivide_attempts `{!LinAlgShapes F Real}
    (s : Storage) (A G : Matrix F) (returnQ : bool) (maxIts : Z)
    (relTol : Real) (w : World RNG) :
  Storage_ok s → 1 ≤ maxIts → 2 ≤ Height A →
  square (Height A) A → square (Height A) G →
  RSD_outcome s A G returnQ maxIts relTol w
  ∧ (∀ fuel : nat, maxIts ≤ Z.of_nat fuel →
       RSD_loop s (projected G) (Height A) (OneNorm A) returnQ maxIts
         (effectiveTol (Height A) relTol) fuel
         (RSD_entry A G) (RSD_entry_world w)
       = RandomizedSignDivide_loop s A G returnQ maxIts relTol w)
  ∧ (reqb relTol rzero = true →
     effectiveTol (Height A) relTol = rofInt (50 * Height A) ⊗ MachineEpsilon)
  ∧ (reqb relTol rzero = false → effectiveTol (Height A) relTol = relTol)
  ∧ default_maxIts = 10.
Proof.
  intros Hs Hmax Hn HA HG. split; [apply RSD_outcome_holds; assumption|].
  split; [intros fuel Hfuel; apply RSD_loop_budget; assumption|].
  unfold effectiveTol. split; [intros ->; reflexivity|].
  split; [intros ->; reflexivity | reflexivity].
Qed.

(** C5.  Every attempt whose value exceeds the tolerance and which is not
    the [maxIts]-th restores [A] from the copy saved before its similarity
    transform: every retry starts from the [A] of the entry. *)
Theorem RSD_failed_attempt_restores_A (s : Storage) (S : Matrix F) (n : Z)
    (oneA : Real) (returnQ : bool) (maxIts : Z) (relTol : Real) (k : nat)
    (x y z : RSDState F Real * World RNG) :
  nsteps (RSD_step s S n oneA returnQ maxIts relTol) k x y →
  RSD_step s S n oneA returnQ maxIts relTol y z →
  restores_entry_A s S n oneA returnQ maxIts relTol k x y z.
Proof.
  intros Hsteps Hstep.
  destruct (RSD_step_restores _ _ _ _ _ _ _ y z Hstep)
    as (st1 & Hrun & HV & HA & _).
  destruct (RSD_steps_invariant _ _ _ _ _ _ _ _ _ _ Hsteps) as (HAy & _).
  pose proof (nsteps_r _ _ _ _ Hsteps Hstep) as Hall.
  destruct (RSD_steps_invariant _ _ _ _ _ _ _ _ _ _ Hall) as (HAz & _ & _ & Hloop).
  split; [exists st1; auto|]. split; [exact HAy|]. split; [exact HAz|].
  intros fuel. apply Hloop.
Qed.

(** C10.  In the path that returns vectors the matrix [Q] of the caller
    is overwritten: the outputs are the same for every [Q] at entry, and
    on exit [Q] holds the explicit [Q] of the factorization of the last
    attempt. *)
Theorem SpectralDivide_vectors_overwrites_Q `{!LinAlgShapes F Real}
    (s : Storage) (A Q : Matrix F) (w : World RNG) :
  Storage_ok s → 2 ≤ Height A → square (Height A) A →
  vectors_outcome s A Q w.
Proof.
  intros Hs Hn HA. unfold vectors_outcome. cbv zeta.
  split; [reflexivity|].
  set (w1 := mkWorld (drawn_rotation (drawn_shift A (rng w)).2).2
                     (calls w ++ generator_calls)).
  destruct (RSD_outcome_holds s A (generator_of A (rng w)) true default_maxIts
              default_relTol w1 Hs ltac:(unfold default_maxIts; lia) Hn HA
              (generator_of_square _ _ _ HA))
    as (k & stb & wb & st & w' & part & Hk & Hr & Hp & _ & _ & Hrun & _).
  exists k, stb, wb, st, w', part.
  split; [|split; [exact Hk|split; [exact Hr|]]].
  - unfold SpectralDivide_vectors.
    erewrite M_bind_Ok by apply generator_run. exact Hrun.
  - destruct (RSD_attempt_Ok _ _ _ _ _ _ _ _ _ Hr) as (_ & _ & _ & _ & HG).
    exact HG.
Qed.

(** C7.  [SpectralDivide] measures the off-diagonal infinity norm on a
    zeroed diagonal and puts the diagonal back, so that [A] is as at entry;
    it draws the shift in the ball of radius [0.001 * offDiagInf] around
    [-Trace(A)/n]; the generator is [A] with the shift added to its
    diagonal and, in the complex overloads, scaled by
    [F(Cos(angle),Sin(angle))] for an angle drawn in [(0, 2*Pi)]; and
    [RandomizedSignDivide] is called on this [A] and this generator. *)
Theorem SpectralDivide_generator (s : Storage) (A Q : Matrix F) (w : World RNG) :
  let shift := (drawn_shift A (rng w)).1 in
  let gamma := (drawn_rotation (drawn_shift A (rng w)).2).1 in
  let G := generator_of A (rng w) in
  let w1 := mkWorld (drawn_rotation (drawn_shift A (rng w)).2).2
                    (calls w ++ generator_calls) in
  generator A w = (Ok (A, G), w1)
  ∧ SetDiagonalFrom (SetDiagonal A fzero) (GetDiagonal A) = A
  ∧ drawn_shift A (rng w)
    = SampleBall (fopp (fdiv (Trace A) (fofInt (Height A))))
                 (rmilli ⊗ InfinityNorm (SetDiagonal A fzero)) (rng w)
  ∧ gamma = match rotation with
            | None => None
            | Some F_of =>
                let angle := (Uniform rzero (rofInt 2 ⊗ Pi)
                                (drawn_shift A (rng w)).2).1 in
                Some (F_of (Cos angle) (Sin angle))
            end
  ∧ (Height G = Height A ∧ Width G = Width A)
  ∧ (∀ i j, entry G i j =
             let a := if i =? j then fadd (entry A i j) shift else entry A i j in
             match gamma with None => a | Some gm => fmul gm a end)
  ∧ SpectralDivide s A w =
      ('(part, A', _) ← RandomizedSignDivide s A G false default_maxIts default_relTol;
       mret (part, A')) w1
  ∧ SpectralDivide_vectors s A Q w =
      RandomizedSignDivide s A G true default_maxIts default_relTol w1.
Proof.
  cbv zeta. split; [apply generator_run|]. split; [apply SetDiagonal_restore|].
  split; [reflexivity|]. split.
  { unfold drawn_rotation. destruct rotation as [F_of|]; [|reflexivity].
    destruct (Uniform _ _ _). reflexivity. }
  split.
  { unfold generator_of. destruct (drawn_rotation _).1; split; reflexivity. }
  split.
  { intros i j. unfold generator_of. destruct (drawn_rotation _).1; reflexivity. }
  split.
  - unfold SpectralDivide. erewrite M_bind_Ok by apply generator_run. reflexivity.
  - unfold SpectralDivide_vectors. erewrite M_bind_Ok by apply generator_run.
    reflexivity.
Qed.

End SplitClaims.

Lemma RandomizedSignDivide_attempts_witness :
  RSD_outcome Sequential coupled2 coupled2 false 3 rzero world0
  ∧ (∀ fuel : nat, 3 ≤ Z.of_nat fuel →
       RSD_loop Sequential (projected coupled2) (Height coupled2)
         (OneNorm coupled2) false 3 (effectiveTol (Height coupled2) rzero) fuel
         (RSD_entry coupled2 coupled2) (RSD_entry_world world0)
       = RandomizedSignDivide_loop Sequential coupled2 coupled2 false 3 rzero world0)
  ∧ (reqb rzero rzero = true →
     effectiveTol (Height coupled2) rzero = rofInt (50 * Height coupled2) ⊗ MachineEpsilon)
  ∧ (reqb rzero rzero = false → effectiveTol (Height coupled2) rzero = rzero)
  ∧ default_maxIts = 10.
Proof.
  apply (RandomizedSignDivide_attempts Sequential coupled2 coupled2 false 3 rzero world0);
    [exact I | lia | simpl; lia | split; reflexivity | split; reflexivity].
Defined.

(** C2 as stated, for every input.  On a matrix with one row, on a
    matrix with three rows and one column, and on a [G] with one row next
    to an [A] with two (with [returnQ]), the call does not return the
    partition of a last attempt: the first attempt ends in a read outside
    a vector or a matrix. *)
Lemma RandomizedSignDivide_shapes_counterexample :
  ¬ RSD_outcome Sequential single5 single5 false 3 rzero world0
  ∧ ¬ RSD_outcome Sequential tall3 tall3 false 3 rzero world0
  ∧ ¬ RSD_outcome Sequential coupled2 single5 true 3 rzero world0.
Proof.
  split; [|split];
    intros (k & stb & wb & st & w' & part & _ & _ & _ & _ & _ & Hrun & _);
    apply (f_equal (λ r, match r.1 with Ok _ => true | Fault _ => false end))
      in Hrun;
    vm_compute in Hrun; discriminate.
Qed.

Lemma RSD_failed_attempt_restores_A_witness :
  restores_entry_A Sequential (projected coupled2) 2 (OneNorm coupled2) false 3
    (effectiveTol 2 rzero) 0
    (RSD_entry coupled2 coupled2, RSD_entry_world world0)
    (RSD_entry coupled2 coupled2, RSD_entry_world world0)
    (RSD_next Sequential (projected coupled2) 2 (OneNorm coupled2) false
       (RSD_entry coupled2 coupled2, RSD_entry_world world0)).
Proof.
  apply RSD_failed_attempt_restores_A.
  - constructor.
  - apply RSD_step_intro. vm_compute. reflexivity.
Defined.

Lemma SpectralDivide_vectors_overwrites_Q_witness :
  vectors_outcome Sequential coupled2 emptyMatrix world0.
Proof.
  apply SpectralDivide_vectors_overwrites_Q;
    [exact I | simpl; lia | split; reflexivity].
Defined.



(** * The claims on the driver *)

Ltac bind_case m w :=
  let Hrun := fresh "Hrun" in
  let x := fresh "x" in
  let e := fresh "e" in
  let w' := fresh "w" in
  destruct (m w) as [[x|e] w'] eqn:Hrun;
  [ erewrite (M_bind_Ok m _ w) by exact Hrun;
    symmetry; erewrite (M_bind_Ok m _ w) by exact Hrun; symmetry
  | erewrite (M_bind_Fault m _ w) by exact Hrun;
    symmetry; erewrite (M_bind_Fault m _ w) by exact Hrun; reflexivity ].

Section DriverClaims.
Context {F Real : Type} `{RealOps Real} `{Scalar F Real}
        `{LinAlg F Real} `{Overload F Real}.

Lemma recorded_work_is_not_fast {X} (m : M RNG X) w c l :
  calls (m w).2 = calls w ++ c :: l → ¬ fails_fast m w.
Proof.
  intros Hcalls [_ Hw]. rewrite Hw in Hcalls.
  rewrite <- (app_nil_r (calls w)) in Hcalls at 1.
  apply app_inv_head in Hcalls. discriminate.
Qed.

Lemma SDC_first_calls s fuel (A : Matrix F) cutoff w :
  ∃ l, calls (SDC s (Datatypes.S fuel) A cutoff w).2 =
         calls w ++ (if Height A <=? cutoff then [CallSchurQR]
                     else generator_calls) ++ l.
Proof.
  change (SDC s (Datatypes.S fuel) A cutoff)
    with (if Height A <=? cutoff then kernel CallSchurQR (schurQR A)
          else
            '(part, A) ← SpectralDivide s A;
            let '(ATL, ATR, ABL, ABR) := PartitionDownDiagonal A (index part) in
            ATL ← SDC s fuel ATL cutoff;
            ABR ← SDC s fuel ABR cutoff;
            mret (Merge2x2 ATL ATR ABL ABR)).
  destruct (Height A <=? cutoff).
  - exists []. reflexivity.
  - apply bind_calls_prefix_more.
    + destruct (SpectralDivide_first_attempt s A w) as [l Hl].
      eexists. rewrite Hl, <- !app_assoc. reflexivity.
    + intros [part A1].
      destruct (PartitionDownDiagonal A1 (index part)) as [[[ATL ATR] ABL] ABR].
      apply appends_bind; [apply appends_SDC|]. intros ATL'.
      apply appends_bind; [apply appends_SDC|]. intros ABR'. apply appends_ret.
Qed.

Lemma SignDivide_first_call s (A G : Matrix F) returnQ w :
  ∃ l, calls (SignDivide s A G returnQ w).2 = calls w ++ [CallSign] ++ l.
Proof.
  unfold SignDivide. apply bind_calls_prefix; [reflexivity|].
  intros G1. solve_appends.
Qed.

Lemma RandomizedSignDivide_first_call s (A G : Matrix F) returnQ maxIts relTol w :
  ∃ l, calls (RandomizedSignDivide s A G returnQ maxIts relTol w).2
       = calls w ++ [CallOneNorm] ++ l.
Proof.
  unfold RandomizedSignDivide. apply bind_calls_prefix_more.
  - unfold RandomizedSignDivide_loop. apply bind_calls_prefix; [reflexivity|].
    intros oneA. solve_appends.
  - intros st. solve_appends.
Qed.

(** C3, amended: the header itself checks no precondition.  [SDC] compares
    the height of [A] with [cutoff] and then either calls the dense Schur
    solver or starts the split with [Trace], the infinity norm and the
    random shift; [SignDivide] starts with the sign iteration and
    [RandomizedSignDivide] with the one-norm: whatever the shapes and the
    cutoff, the first thing each of them does is to call a library routine,
    and none reports anything before. *)
Theorem SDC_checks_no_precondition (s : Storage) (fuel : nat) (A G : Matrix F)
    (cutoff : Z) (returnQ : bool) (maxIts : Z) (relTol : Real) (w : World RNG) :
  (∃ l, calls (SDC s (Datatypes.S fuel) A cutoff w).2 =
          calls w ++ (if Height A <=? cutoff then [CallSchurQR]
                      else generator_calls) ++ l)
  ∧ ¬ fails_fast (SDC s (Datatypes.S fuel) A cutoff) w
  ∧ ¬ fails_fast (SpectralDivide s A) w
  ∧ ¬ fails_fast (SignDivide s A G returnQ) w
  ∧ ¬ fails_fast (RandomizedSignDivide s A G returnQ maxIts relTol) w.
Proof.
  split; [apply SDC_first_calls|]. split.
  { destruct (SDC_first_calls s fuel A cutoff w) as [l Hl].
    destruct (Height A <=? cutoff);
      eapply recorded_work_is_not_fast; exact Hl. }
  split.
  { destruct (SpectralDivide_first_attempt s A w) as [l Hl].
    eapply recorded_work_is_not_fast. rewrite Hl. reflexivity. }
  split.
  - destruct (SignDivide_first_call s A G returnQ w) as [l Hl].
    eapply recorded_work_is_not_fast. exact Hl.
  - destruct (RandomizedSignDivide_first_call s A G returnQ maxIts relTol w)
      as [l Hl].
    eapply recorded_work_is_not_fast. exact Hl.
Qed.

(** ** The stitch *)

Lemma M_bind_logged {Y} l (f : unit → M RNG Y) w :
  (logged l ≫= f) w = f tt (mkWorld (rng w) (calls w ++ l)).
Proof. reflexivity. Qed.

Lemma logged_nothing (w : World RNG) : mkWorld (rng w) (calls w ++ []) = w.
Proof. destruct w. simpl. rewrite app_nil_r. reflexivity. Qed.

Lemma record_twice c1 c2 (w : World RNG) :
  record c2 (record c1 w) = mkWorld (rng w) (calls w ++ [c1; c2]).
Proof. unfold record. simpl. rewrite <- app_assoc. reflexivity. Qed.

(** C6.  Above the cutoff, once the two recursive calls have returned
    [Z_TL] and [Z_BR], both overloads leave [Q_left Z_TL] in [Q_left],
    [Q_right Z_BR] in [Q_right] and, when [formATR] holds,
    [Z_TL^H ATR Z_BR] in [ATR]. *)
Theorem SDC_vectors_stitch (r c : Z) (fuel : nat) (A Q : Matrix F)
    (formATR : bool) (cutoff : Z) (w : World RNG) :
  cutoff < Height A → stitches r c fuel A Q formATR cutoff w.
Proof.
  intros Hcut. unfold stitches, stitched_level, stitch, gemms. split.
  - cbn [SDC_vectors]. destruct (Z.leb_spec (Height A) cutoff); [lia|].
    bind_case (SpectralDivide_vectors Sequential A Q) w.
    destruct x as [[part A1] Q1].
    destruct (PartitionDownDiagonal A1 (index part)) as [[[ATL ATR] ABL] ABR].
    destruct (PartitionRight Q1 (index part)) as [QL QR].
    bind_case (SDC_vectors fuel ATL emptyMatrix formATR cutoff) w0.
    destruct x as [ATL' Z_TL].
    destruct formATR; rewrite ?M_bind_kernel, ?M_bind_ret, M_bind_logged;
      rewrite ?record_twice; unfold record; simpl replicate;
      match goal with |- (?m ≫= _) ?w = _ => bind_case m w end;
      destruct x as [ABR' Z_BR];
      rewrite ?M_bind_kernel, ?M_bind_ret, M_bind_logged;
      rewrite ?record_twice; unfold record, mret, M_ret; simpl;
      rewrite <- ?app_assoc; reflexivity.
  - cbn [SDC_vectors_Dist]. destruct (Z.leb_spec (Height A) cutoff); [lia|].
    bind_case (SpectralDivide_vectors (Distributed r c) A Q) w.
    destruct x as [[part A1] Q1].
    destruct (PartitionDownDiagonal A1 (index part)) as [[[ATL ATR] ABL] ABR].
    destruct (PartitionRight Q1 (index part)) as [QL QR].
    bind_case (SDC_vectors_Dist r c fuel ATL emptyMatrix formATR cutoff) w0.
    destruct x as [ATL' Z_TL].
    rewrite M_bind_logged, logged_nothing.
    bind_case (SDC_vectors_Dist r c fuel ABR emptyMatrix formATR cutoff) w1.
    destruct x as [ABR' Z_BR].
    destruct formATR; unfold mbind, M_bind, kernel, logged, record, mret, M_ret;
      simpl; rewrite <- ?app_assoc; reflexivity.
Qed.
End DriverClaims.

(** ** The recursion returns *)

Section DriverReturns.
Context {F Real : Type} `{RealOps Real} `{Scalar F Real}
        `{LinAlg F Real} `{Overload F Real} `{!LinAlgShapes F Real}.

Lemma quadrants_square (A : Matrix F) (n k : Z) :
  square n A →
  square k (View A 0 0 k k) ∧ square (n - k) (View A k k (Height A - k) (Width A - k)).
Proof. intros [-> ->]. split; split; reflexivity. Qed.

(** X4.  With [cutoff >= 1] the driver never reaches the selector on a
    matrix with fewer than two rows: on a square matrix every level either
    hands the matrix to the dense solver or splits it at an index inside
    it, and the recursion with at least as much fuel as [A] has rows
    returns. *)
Theorem SDC_returns (s : Storage) (cutoff : Z) (fuel : nat) (A : Matrix F)
    (w : World RNG) :
  Storage_ok s → 1 ≤ cutoff → square (Height A) A →
  Height A ≤ Z.of_nat fuel → (1 ≤ fuel)%nat →
  ∃ A' w', SDC s fuel A cutoff w = (Ok A', w').
Proof.
  intros Hs Hcut. revert A w.
  induction fuel as [|fuel IH]; intros A w HA Hfuel Hpos; [lia|].
  cbn [SDC]. destruct (Z.leb_spec (Height A) cutoff) as [Hbase|Hsplit].
  { eexists _, _. reflexivity. }
  destruct (SpectralDivide_returns s A w Hs ltac:(lia) HA)
    as (part & A1 & w1 & Hrun & HA1 & Hidx).
  erewrite M_bind_Ok by exact Hrun. cbn [PartitionDownDiagonal].
  destruct (quadrants_square A1 (Height A) (index part) HA1) as [HTL HBR].
  destruct (IH (View A1 0 0 (index part) (index part)) w1) as (ATL' & w2 & HrunTL);
    [split; reflexivity | simpl; lia | lia |].
  erewrite M_bind_Ok by exact HrunTL.
  destruct (IH (View A1 (index part) (index part) (Height A1 - index part)
                  (Width A1 - index part)) w2) as (ABR' & w3 & HrunBR).
  { destruct HA1 as [-> ->]. split; reflexivity. }
  { destruct HA1 as [-> _]. simpl. lia. }
  { lia. }
  erewrite M_bind_Ok by exact HrunBR. eexists _, _. reflexivity.
Qed.

(** X5.  The same for the two overloads that form the Schur vectors,
    whatever [Q] holds at entry. *)
Theorem SDC_vectors_returns (r c : Z) (cutoff : Z) (fuel : nat) (A Q : Matrix F)
    (formATR : bool) (w : World RNG) :
  1 ≤ r → 1 ≤ c → 1 ≤ cutoff → square (Height A) A →
  Height A ≤ Z.of_nat fuel → (1 ≤ fuel)%nat →
  (∃ AQ w', SDC_vectors fuel A Q formATR cutoff w = (Ok AQ, w'))
  ∧ (∃ AQ w', SDC_vectors_Dist r c fuel A Q formATR cutoff w = (Ok AQ, w')).
Proof.
  intros Hr Hc Hcut. revert A Q w.
  induction fuel as [|fuel IH]; intros A Q w HA Hfuel Hpos; [lia|].
  assert (∀ A1 k, square (Height A) A1 → 1 ≤ k ≤ Height A - 1 → cutoff < Height A →
            ∀ Z w1,
              (∃ AQ w', SDC_vectors fuel (View A1 0 0 k k) Z formATR cutoff w1 = (Ok AQ, w'))
              ∧ (∃ AQ w', SDC_vectors_Dist r c fuel (View A1 0 0 k k) Z formATR cutoff w1
                          = (Ok AQ, w'))) as IHTL.
  { intros A1 k HA1 Hk Hsplit Z w1. apply IH; [split; reflexivity | simpl; lia | lia]. }
  assert (∀ A1 k, square (Height A) A1 → 1 ≤ k ≤ Height A - 1 → cutoff < Height A →
            ∀ Z w1,
              (∃ AQ w', SDC_vectors fuel (View A1 k k (Height A1 - k) (Width A1 - k))
                          Z formATR cutoff w1 = (Ok AQ, w'))
              ∧ (∃ AQ w', SDC_vectors_Dist r c fuel
                            (View A1 k k (Height A1 - k) (Width A1 - k))
                            Z formATR cutoff w1 = (Ok AQ, w'))) as IHBR.
  { intros A1 k [HhA1 HwA1] Hk Hsplit Z w1. rewrite HhA1, HwA1.
    apply IH; [split; reflexivity | simpl; lia | lia]. }
  split.
  - cbn [SDC_vectors]. destruct (Z.leb_spec (Height A) cutoff) as [Hbase|Hsplit].
    { eexists _, _. reflexivity. }
    destruct (SpectralDivide_vectors_returns Sequential A Q w I ltac:(lia) HA)
      as (part & A1 & Q1 & w1 & Hrun & HA1 & Hidx).
    erewrite M_bind_Ok by exact Hrun. cbn [PartitionDownDiagonal PartitionRight]. cbv beta iota.
    destruct (IHTL A1 (index part) HA1 Hidx Hsplit emptyMatrix w1)
      as [([ATL' Z1] & w2 & HrunTL) _].
    erewrite M_bind_Ok by exact HrunTL. cbv beta iota. rewrite M_bind_kernel.
    destruct formATR.
    + rewrite M_bind_kernel.
      destruct (IHBR A1 (index part) HA1 Hidx Hsplit Z1
                  (record CallGemm (record CallGemm w2)))
        as [([ABR' Z2] & w3 & HrunBR) _].
      erewrite M_bind_Ok by exact HrunBR. cbv beta iota.
      rewrite !M_bind_kernel. eexists _, _. reflexivity.
    + rewrite M_bind_ret.
      destruct (IHBR A1 (index part) HA1 Hidx Hsplit Z1 (record CallGemm w2))
        as [([ABR' Z2] & w3 & HrunBR) _].
      erewrite M_bind_Ok by exact HrunBR. cbv beta iota.
      rewrite M_bind_ret, M_bind_kernel. eexists _, _. reflexivity.
  - cbn [SDC_vectors_Dist]. destruct (Z.leb_spec (Height A) cutoff) as [Hbase|Hsplit].
    { eexists _, _. reflexivity. }
    destruct (SpectralDivide_vectors_returns (Distributed r c) A Q w
                (conj Hr Hc) ltac:(lia) HA)
      as (part & A1 & Q1 & w1 & Hrun & HA1 & Hidx).
    erewrite M_bind_Ok by exact Hrun. cbn [PartitionDownDiagonal PartitionRight]. cbv beta iota.
    destruct (IHTL A1 (index part) HA1 Hidx Hsplit emptyMatrix w1)
      as [_ ([ATL' Z1] & w2 & HrunTL)].
    erewrite M_bind_Ok by exact HrunTL. cbv beta iota.
    destruct (IHBR A1 (index part) HA1 Hidx Hsplit emptyMatrix w2)
      as [_ ([ABR' Z2] & w3 & HrunBR)].
    erewrite M_bind_Ok by exact HrunBR. cbv beta iota.
    rewrite !M_bind_kernel.
    destruct formATR; eexists _, _; unfold mbind, M_bind, kernel, mret, M_ret;
      reflexivity.
Qed.
End DriverReturns.

(** C3 as stated: with a cutoff below 1 (or a matrix that is not square) the
    call would report the violation before any numerical work.  With
    [cutoff = 0] a 1 x 1 matrix is split all the same. *)
Lemma SDC_fail_fast_counterexample :
  ¬ (∀ (A : Matrix Qc) (cutoff : Z),
       Height A ≠ Width A ∨ cutoff < 1 →
       fails_fast (SDC Sequential 1 A cutoff) world0).
Proof.
  intros Hfast. destruct (Hfast (ofRows [[5]] 1 1) 0) as [_ Hw]; [right; lia|].
  apply (f_equal calls) in Hw. vm_compute in Hw. discriminate.
Qed.

Lemma SDC_vectors_stitch_witness :
  stitches 1 1 1 diagonal2 emptyMatrix true 1 world0.
Proof. apply SDC_vectors_stitch. simpl. lia. Defined.

Lemma SDC_returns_witness :
  ∃ A' w',
    SDC (Distributed 2 3) 4
      coupled4 1 world0
    = (Ok A', w').
Proof.
  apply SDC_returns;
    [simpl; lia | lia | split; reflexivity | simpl; lia | lia].
Defined.

Lemma SDC_vectors_returns_witness :
  (∃ AQ w', SDC_vectors 2 coupled2 emptyMatrix true 1 world0 = (Ok AQ, w'))
  ∧ (∃ AQ w', SDC_vectors_Dist 2 2 2 coupled2 emptyMatrix true 1 world0 = (Ok AQ, w')).
Proof.
  apply SDC_vectors_returns;
    [lia | lia | lia | split; reflexivity | simpl; lia | lia].
Defined.

Lemma RandomizedSignDivide_no_attempt_witness :
  RandomizedSignDivide Sequential coupled2 coupled2 false 0 rzero world0
  = (Fault Uninitialized, RSD_entry_world world0).
Proof. apply RandomizedSignDivide_no_attempt. lia. Defined.

Lemma RandomizedSignDivide_attempts_bounded_witness :
  (∃ k : nat,
     Z.of_nat k ≤ 3
     ∧ calls (RandomizedSignDivide Sequential coupled2 coupled2 false 3
                rzero world0).2
       = calls world0 ++ [CallOneNorm; CallSign]
         ++ concat (replicate k (attempt_calls false)))
  ∧ ∀ fuel : nat, ∃ k : nat,
      Z.of_nat k ≤ 3
      ∧ calls (RSD_loop Sequential (projected coupled2) (Height coupled2)
                 (OneNorm coupled2) false 3 (effectiveTol (Height coupled2) rzero)
                 fuel (RSD_entry coupled2 coupled2) (RSD_entry_world world0)).2
        = calls world0 ++ [CallOneNorm; CallSign]
          ++ concat (replicate k (attempt_calls false)).
Proof.
  apply (RandomizedSignDivide_attempts_bounded Sequential coupled2 coupled2 false
           3 rzero world0).
  lia.
Defined.

(** * Further properties of the header *)

(** ** The selector reads the strict lower triangle *)

Section SelectorReads.
Context {F Real : Type} `{RealOps Real} `{Scalar F Real}.

Lemma Get_same_below (A B : Matrix F) i j :
  same_below_diagonal A B → j < i →
  (a ← Get A i j; Ok (Abs a)) = (a ← Get B i j; Ok (Abs a)).
Proof.
  intros (Hh & Hw & Habs) Hji. unfold Get. rewrite Hh, Hw.
  destruct (_ && _); [|reflexivity]. simpl. rewrite Habs by exact Hji. reflexivity.
Qed.

Lemma accumulate_same_below (A B : Matrix F) i j (v : list Real) k :
  same_below_diagonal A B → j < i →
  (a ← Get A i j; vadd v k (Abs a)) = (a ← Get B i j; vadd v k (Abs a)).
Proof.
  intros Hsame Hji. pose proof (Get_same_below A B i j Hsame Hji) as Hget.
  destruct (Get A i j) as [a|e], (Get B i j) as [b|e']; simpl in *;
    congruence.
Qed.

Lemma colSums_seq_same_below (A B : Matrix F) n zeros :
  same_below_diagonal A B → colSums_seq A n zeros = colSums_seq B n zeros.
Proof.
  intros Hsame. unfold colSums_seq.
  apply for_range_ext. intros j cs Hj.
  apply for_range_ext. intros i cs' Hi.
  apply accumulate_same_below; [exact Hsame | lia].
Qed.

Lemma rowSums_seq_same_below (A B : Matrix F) n zeros :
  same_below_diagonal A B → rowSums_seq A n zeros = rowSums_seq B n zeros.
Proof.
  intros Hsame. unfold rowSums_seq.
  apply for_range_ext. intros i rs Hi.
  apply for_range_ext. intros j rs' Hj.
  apply accumulate_same_below; [exact Hsame | lia].
Qed.

Lemma GetLocal_same_below (A B : Matrix F) r c p iLoc jLoc :
  same_below_diagonal A B →
  RowShift p + jLoc * c < ColShift p + iLoc * r →
  (a ← GetLocal (mkDistMatrix A r c) p iLoc jLoc; Ok (Abs a))
  = (a ← GetLocal (mkDistMatrix B r c) p iLoc jLoc; Ok (Abs a)).
Proof.
  intros (Hh & Hw & Habs) Hji.
  unfold GetLocal, LocalHeight, LocalWidth, ColStride, RowStride. simpl.
  rewrite Hh, Hw. destruct (_ && _); [|reflexivity]. simpl.
  rewrite Habs by exact Hji. reflexivity.
Qed.

Lemma localSums_same_below (A B : Matrix F) r c p n sums :
  same_below_diagonal A B →
  localSums (mkDistMatrix A r c) p n sums = localSums (mkDistMatrix B r c) p n sums.
Proof.
  intros Hsame. pose proof Hsame as (Hh & Hw & _).
  unfold localSums, LocalHeight, LocalWidth, ColStride, RowStride. simpl.
  rewrite Hh, Hw.
  apply for_range_ext. intros jLoc sums1 HjLoc.
  destruct (_ <? n - 1); [|reflexivity].
  apply for_range_ext. intros iLoc sums2 HiLoc.
  destruct (Z.gtb_spec (ColShift p + iLoc * r) (RowShift p + jLoc * c)) as [Hgt|];
    [|reflexivity].
  pose proof (GetLocal_same_below A B r c p iLoc jLoc Hsame Hgt) as Hget.
  destruct (GetLocal (mkDistMatrix A r c) p iLoc jLoc) as [a|e],
           (GetLocal (mkDistMatrix B r c) p iLoc jLoc) as [b|e'];
    simpl in Hget |- *; try discriminate; [|congruence].
  injection Hget as Hab. rewrite Hab. reflexivity.
Qed.

Lemma allLocalSums_same_below (A B : Matrix F) r c n ps :
  same_below_diagonal A B →
  allLocalSums (mkDistMatrix A r c) n ps = allLocalSums (mkDistMatrix B r c) n ps.
Proof.
  intros Hsame. induction ps as [|p ps IH]; [reflexivity|].
  simpl. rewrite (localSums_same_below A B r c p n _ Hsame), IH. reflexivity.
Qed.

(** X8.  Both overloads of [ComputePartition] read the matrix only strictly
    below its diagonal, and only through [Abs]: on two matrices of one shape
    that have the same magnitudes there, they do the same, a fault
    included. *)
Theorem ComputePartition_reads_below_diagonal (s : Storage) (A B : Matrix F) :
  same_below_diagonal A B → ComputePartitionOn s A = ComputePartitionOn s B.
Proof.
  intros Hsame. pose proof Hsame as (Hh & Hw & _). destruct s as [|r c]; simpl.
  - unfold ComputePartition, ComputePartition_norms. rewrite Hh.
    rewrite (colSums_seq_same_below A B _ _ Hsame),
            (rowSums_seq_same_below A B _ _ Hsame).
    reflexivity.
  - unfold ComputePartition_Dist. simpl. rewrite Hh.
    rewrite (allLocalSums_same_below A B r c _ _ Hsame). reflexivity.
Qed.
End SelectorReads.

Lemma ComputePartition_reads_below_diagonal_witness :
  ComputePartitionOn (Distributed 2 2)
    (mkMatrix 3 3 (λ i j, if j <? i then Q2Qc 3 else Q2Qc 1))
  = ComputePartitionOn (Distributed 2 2)
      (mkMatrix 3 3 (λ i j, if j <? i then Q2Qc (-3) else Q2Qc 7)).
Proof.
  apply ComputePartition_reads_below_diagonal.
  split; [reflexivity|]. split; [reflexivity|].
  intros i j Hji. simpl. destruct (Z.ltb_spec j i); [reflexivity | lia].
Defined.

(** ** The selector on a matrix that is already triangular *)

Section SelectorTriangular.
Context {F Real : Type} `{RealLaws Real} `{Scalar F Real}.

Lemma blockSum_upper_triangular (A : Matrix F) (n j : Z) :
  upper_triangular A → 0 ≤ j → blockSum A n j = rzero.
Proof.
  intros Hup Hj. unfold blockSum.
  rewrite (rsum_ext _ _ _ (λ _, rzero)); [apply rsum_zero|].
  intros i Hi. rewrite (rsum_ext _ _ _ (λ _, rzero)); [apply rsum_zero|].
  intros k Hk. apply Hup. lia.
Qed.

(** X9.  On a square upper triangular matrix with at least two rows both
    overloads return, in exact arithmetic, the value 0 at the index 1: every
    block sum is 0 and the scan keeps the first minimum. *)
Theorem ComputePartition_upper_triangular (s : Storage) (A : Matrix F) (n : Z) :
  Storage_ok s → 2 ≤ n → Height A = n → Width A = n → upper_triangular A →
  ComputePartitionOn s A = Ok (mkValueInt rzero 1).
Proof.
  intros Hs Hn Hh Hw Hup.
  assert (ComputePartition A = Ok (mkValueInt rzero 1)) as Hseq.
  { destruct (ComputePartition_norms_spec A n Hn Hh Hw)
      as (norms & part & Hrun & _ & _ & Hidx & Hval & _ & Hfirst).
    unfold ComputePartition. rewrite Hrun. simpl. f_equal.
    destruct part as [v i]. simpl in *.
    rewrite blockSum_upper_triangular in Hval by (assumption || lia).
    assert (i = 1) as ->.
    { destruct (Z.eq_dec i 1) as [|Hne]; [assumption|].
      specialize (Hfirst 0 ltac:(lia)).
      rewrite Hval, blockSum_upper_triangular, rltb_irrefl in Hfirst
        by (assumption || lia).
      discriminate. }
    rewrite Hval. reflexivity. }
  destruct s as [|r c]; simpl; [exact Hseq|].
  destruct Hs as [Hr Hc].
  rewrite (ComputePartition_Dist_agrees (mkDistMatrix A r c) n); assumption.
Qed.
End SelectorTriangular.

Lemma ComputePartition_upper_triangular_witness :
  ComputePartitionOn (Distributed 2 3)
    (mkMatrix 4 4 (λ i j, if j <? i then Q2Qc 0 else Q2Qc 5))
  = Ok (mkValueInt rzero 1).
Proof.
  apply (ComputePartition_upper_triangular _ _ 4);
    [simpl; lia | lia | reflexivity | reflexivity |].
  intros i j Hji. simpl. destruct (Z.ltb_spec j i); [reflexivity | lia].
Defined.

(** ** What the randomized split returns *)

Section SplitResult.
Context {F Real : Type} `{RealOps Real} `{Scalar F Real}
        `{LinAlg F Real} `{Overload F Real}.

Lemma RSD_attempt_rng s S n oneA returnQ (st : RSDState F Real) (w : World RNG) :
  rng (RSD_attempt s S n oneA returnQ st w).2 = (ImplicitHaar n (rng w)).2.
Proof.
  rewrite RSD_attempt_run. cbv zeta.
  destruct (ComputePartitionOn s _); reflexivity.
Qed.

Lemma RSD_steps_rng s S n oneA returnQ maxIts relTol k
    (x y : RSDState F Real * World RNG) :
  nsteps (RSD_step s S n oneA returnQ maxIts relTol) k x y →
  rng y.2 = after_attempts n k (rng x.2).
Proof.
  induction 1 as [x|k x y z Hstep _ IH]; [reflexivity|].
  destruct Hstep as (_ & st1 & part & Hrun & _).
  pose proof (RSD_attempt_rng s S n oneA returnQ x.1 x.2) as Hrng.
  rewrite Hrun in Hrng. simpl in Hrng.
  rewrite IH, Hrng. unfold after_attempts. rewrite Nat.iter_succ_r. reflexivity.
Qed.

(** X10.  On square matrices with at least two rows and for [maxIts >= 1],
    the call that ends with its attempt number [k+1] returns
    [Q^H A Q] for the [A] of the entry and the [Q] of that attempt alone
    (the failed attempts leave no trace in [A]), the split index of this
    matrix, its value divided by the one-norm of the [A] of the entry,
    and the generator advanced by [k+1] draws. *)
Theorem RandomizedSignDivide_result `{!LinAlgShapes F Real}
    (s : Storage) (A G : Matrix F) (returnQ : bool) (maxIts : Z)
    (relTol : Real) (w : World RNG) :
  Storage_ok s → 1 ≤ maxIts → 2 ≤ Height A →
  square (Height A) A → square (Height A) G →
  ∃ k : nat,
    Z.of_nat k < maxIts
    ∧ (RandomizedSignDivide s A G returnQ maxIts relTol w).1
      = RSD_result s A G returnQ k (rng w)
    ∧ rng (RandomizedSignDivide s A G returnQ maxIts relTol w).2
      = after_attempts (Height A) (Datatypes.S k) (rng w).
Proof.
  intros Hs Hmax Hn HA HG.
  destruct (RSD_outcome_holds s A G returnQ maxIts relTol w Hs Hmax Hn HA HG)
    as (k & stb & wb & st & w' & part & Hk & Hr & Hp & Hle & _ & Hrun & _).
  destruct (RSD_steps_invariant _ _ _ _ _ _ _ _ _ _ Hk) as (HAb & _).
  pose proof (RSD_steps_rng _ _ _ _ _ _ _ _ _ _ Hk) as Hg.
  simpl in HAb, Hg.
  pose proof (RSD_attempt_rng s (projected G) (Height A) (OneNorm A) returnQ stb wb)
    as Hrng.
  rewrite Hr in Hrng. simpl in Hrng.
  exists k. split; [lia|]. rewrite Hrun. simpl. split.
  - rewrite RSD_attempt_run in Hr. cbv zeta in Hr. rewrite HAb, Hg in Hr.
    unfold RSD_result. cbv zeta.
    destruct (ComputePartitionOn s _) as [part0|e]; [|discriminate].
    injection Hr as <- _. simpl in Hp. injection Hp as <-. reflexivity.
  - rewrite Hrng, Hg. reflexivity.
Qed.
End SplitResult.

Lemma RandomizedSignDivide_result_witness :
  ∃ k : nat,
    Z.of_nat k < 3
    ∧ (RandomizedSignDivide (Distributed 2 2) coupled2 coupled2 true 3 rzero world0).1
      = RSD_result (Distributed 2 2) coupled2 coupled2 true k (rng world0)
    ∧ rng (RandomizedSignDivide (Distributed 2 2) coupled2 coupled2 true 3 rzero
             world0).2
      = after_attempts (Height coupled2) (Datatypes.S k) (rng world0).
Proof.
  apply RandomizedSignDivide_result;
    [simpl; lia | lia | simpl; lia | split; reflexivity | split; reflexivity].
Defined.

(** ** The split without randomization *)

#[export] Instance Idle_SolverShapes : SolverShapes Qc Qc.
Proof. split; intros; simpl; repeat split; reflexivity. Qed.

Section SignDivideFacts.
Context {F Real : Type} `{RealOps Real} `{Scalar F Real}
        `{LinAlg F Real} `{Overload F Real}
        `{!LinAlgShapes F Real} `{!SolverShapes F Real}.

Lemma SignDivide_run s (A G : Matrix F) returnQ (w : World RNG) :
  SignDivide s A G returnQ w
  = (SignDivide_result s A G returnQ,
     mkWorld (rng w)
       (calls w ++ [CallSign; CallPivotedQR; CallOneNorm]
        ++ similarity_calls returnQ ++ [CallComputePartition])).
Proof.
  unfold SignDivide, SignDivide_result, projector, projected. cbv zeta.
  unfold mbind at 1 2. unfold M_bind at 1 2. rewrite M_bind_kernel.
  unfold kernel at 1, mret at 1, M_ret at 1. cbv beta iota.
  destruct (pivotedQR _) as [[Gf t] p]. cbv beta iota. simpl fst. simpl snd.
  rewrite M_bind_kernel.
  erewrite M_bind_Ok by apply similarity_run. cbv beta iota.
  unfold mbind, M_bind, lift, record, mret, M_ret. simpl.
  destruct (ComputePartitionOn s (transformed returnQ A Gf t));
    simpl; rewrite <- !app_assoc; reflexivity.
Qed.

(** X11.  On square matrices with at least two rows [SignDivide] returns:
    the [A] it leaves is [Q^H A Q] for the [Q] of the pivoted factorization
    of the projector, the split index lies inside it, the value is divided
    by the one-norm that [A] had at entry, no random number is drawn and
    the library is called in the order sign, pivoted QR, one-norm,
    similarity transform. *)
Theorem SignDivide_returns (s : Storage) (A G : Matrix F) (returnQ : bool)
    (w : World RNG) :
  Storage_ok s → 2 ≤ Height A → square (Height A) A → square (Height A) G →
  ∃ part A' G',
    SignDivide_result s A G returnQ = Ok (part, A', G')
    ∧ SignDivide s A G returnQ w
      = (Ok (part, A', G'),
         mkWorld (rng w)
           (calls w ++ [CallSign; CallPivotedQR; CallOneNorm]
            ++ similarity_calls returnQ ++ [CallComputePartition]))
    ∧ square (Height A) A' ∧ 1 ≤ index part ≤ Height A - 1.
Proof.
  intros Hs Hn HA HG. rewrite SignDivide_run.
  unfold SignDivide_result. cbv zeta.
  assert (square (Height A) (pivotedQR (projected G)).1.1) as HGf.
  { destruct (projected_square _ _ HG) as [Hh Hw].
    destruct (pivotedQR_shape (projected G)) as [Hh' Hw'].
    split; congruence. }
  pose proof (transformed_square returnQ (Height A) A
                (pivotedQR (projected G)).1.1 (pivotedQR (projected G)).1.2 HA HGf)
    as HT.
  destruct (ComputePartitionOn_index s _ (Height A) Hs Hn HT) as (part & Hrun & Hidx).
  rewrite Hrun. simpl. eexists _, _, _.
  split; [reflexivity|]. split; [reflexivity|]. split; [exact HT | exact Hidx].
Qed.
End SignDivideFacts.

Lemma SignDivide_returns_witness :
  ∃ part A' G',
    SignDivide_result (Distributed 2 2) coupled4 coupled4 true = Ok (part, A', G')
    ∧ SignDivide (Distributed 2 2) coupled4 coupled4 true world0
      = (Ok (part, A', G'),
         mkWorld (rng world0)
           (calls world0 ++ [CallSign; CallPivotedQR; CallOneNorm]
            ++ similarity_calls true ++ [CallComputePartition]))
    ∧ square (Height coupled4) A' ∧ 1 ≤ index part ≤ Height coupled4 - 1.
Proof.
  apply SignDivide_returns;
    [simpl; lia | simpl; lia | split; reflexivity | split; reflexivity].
Defined.

(** ** The shape and the off-diagonal blocks of what the driver leaves *)

Section DriverBlocks.
Context {F Real : Type} `{RealOps Real} `{Scalar F Real}
        `{LinAlg F Real} `{Overload F Real}
        `{!LinAlgShapes F Real} `{!SolverShapes F Real}.

Lemma Merge2x2_square (ATL ATR ABL ABR : Matrix F) (n k : Z) :
  square k ATL → Height ABL = n - k → Width ATR = n - k →
  square n (Merge2x2 ATL ATR ABL ABR).
Proof. intros [Hh Hw] HBL HTR. split; simpl; lia. Qed.

(** The quadrants that the recursion does not visit are found again where
    they were. *)
Lemma Merge2x2_off_diagonal (A1 ATL' ATR' ABR' : Matrix F) (k : Z) :
  square k ATL' →
  let A' := Merge2x2 ATL' ATR'
              (View A1 k 0 (Height A1 - k) k) ABR' in
  (∀ i j, k ≤ i → j < k → entry A' i j = entry A1 i j)
  ∧ (ATR' = View A1 0 k k (Width A1 - k) →
     ∀ i j, i < k → k ≤ j → entry A' i j = entry A1 i j).
Proof.
  intros [Hh Hw]. cbv zeta. split.
  - intros i j Hi Hj. simpl. rewrite Hh, Hw.
    destruct (Z.ltb_spec i k); [lia|]. destruct (Z.ltb_spec j k); [|lia].
    f_equal; lia.
  - intros -> i j Hi Hj. simpl. rewrite Hh, Hw.
    destruct (Z.ltb_spec i k); [|lia]. destruct (Z.ltb_spec j k); [lia|].
    f_equal; lia.
Qed.

Lemma SDC_returns_square (s : Storage) (cutoff : Z) (fuel : nat) (A : Matrix F)
    (w : World RNG) :
  Storage_ok s → 1 ≤ cutoff → square (Height A) A →
  Height A ≤ Z.of_nat fuel → (1 ≤ fuel)%nat →
  ∃ A' w', SDC s fuel A cutoff w = (Ok A', w') ∧ square (Height A) A'.
Proof.
  intros Hs Hcut. revert A w.
  induction fuel as [|fuel IH]; intros A w HA Hfuel Hpos; [lia|].
  cbn [SDC]. destruct (Z.leb_spec (Height A) cutoff) as [Hbase|Hsplit].
  { eexists _, _. split; [reflexivity|].
    destruct HA as [_ HwA]. destruct (schurQR_shape A) as [Hh Hw].
    split; congruence. }
  destruct (SpectralDivide_returns s A w Hs ltac:(lia) HA)
    as (part & A1 & w1 & Hrun & HA1 & Hidx).
  erewrite M_bind_Ok by exact Hrun. cbn [PartitionDownDiagonal]. cbv beta iota.
  destruct (IH (View A1 0 0 (index part) (index part)) w1)
    as (ATL' & w2 & HrunTL & HTL); [split; reflexivity | simpl; lia | lia |].
  erewrite M_bind_Ok by exact HrunTL.
  destruct (IH (View A1 (index part) (index part) (Height A1 - index part)
                  (Width A1 - index part)) w2) as (ABR' & w3 & HrunBR & HBR).
  { destruct HA1 as [-> ->]. split; reflexivity. }
  { destruct HA1 as [-> _]. simpl. lia. }
  { lia. }
  erewrite M_bind_Ok by exact HrunBR. eexists _, _. split; [reflexivity|].
  destruct HA1 as [Hh1 Hw1].
  apply (Merge2x2_square _ _ _ _ _ (index part)); simpl; [exact HTL | lia | lia].
Qed.

(** X12.  One level of [SDC( A, cutoff )] above the cutoff, on a square
    matrix and with [cutoff >= 1]: the call returns a matrix of the shape of
    [A] in which the two off-diagonal blocks are exactly what the split of
    this level left.  The recursion visits the diagonal blocks only: the
    coupling block below the diagonal is not set to zero and the block
    above it is not updated. *)
Theorem SDC_leaves_off_diagonal_blocks (s : Storage) (cutoff : Z) (fuel : nat)
    (A : Matrix F) (w : World RNG) :
  Storage_ok s → 1 ≤ cutoff → square (Height A) A →
  cutoff < Height A → Height A ≤ Z.of_nat (Datatypes.S fuel) →
  ∃ part A1 w1 A' w',
    SpectralDivide s A w = (Ok (part, A1), w1)
    ∧ SDC s (Datatypes.S fuel) A cutoff w = (Ok A', w')
    ∧ square (Height A) A'
    ∧ (∀ i j, index part ≤ i → j < index part → entry A' i j = entry A1 i j)
    ∧ (∀ i j, i < index part → index part ≤ j → entry A' i j = entry A1 i j).
Proof.
  intros Hs Hcut HA Hsplit Hfuel.
  destruct (SpectralDivide_returns s A w Hs ltac:(lia) HA)
    as (part & A1 & w1 & Hrun & HA1 & Hidx).
  exists part, A1, w1. cbn [SDC].
  destruct (Z.leb_spec (Height A) cutoff) as [|_]; [lia|].
  erewrite M_bind_Ok by exact Hrun. cbn [PartitionDownDiagonal]. cbv beta iota.
  destruct (SDC_returns_square s cutoff fuel
              (View A1 0 0 (index part) (index part)) w1 Hs Hcut)
    as (ATL' & w2 & HrunTL & HTL); [split; reflexivity | simpl; lia | lia |].
  erewrite M_bind_Ok by exact HrunTL.
  destruct (SDC_returns_square s cutoff fuel
              (View A1 (index part) (index part) (Height A1 - index part)
                 (Width A1 - index part)) w2 Hs Hcut)
    as (ABR' & w3 & HrunBR & HBR).
  { destruct HA1 as [-> ->]. split; reflexivity. }
  { destruct HA1 as [-> _]. simpl. lia. }
  { lia. }
  erewrite M_bind_Ok by exact HrunBR. eexists _, _.
  split; [exact Hrun|]. split; [reflexivity|].
  simpl in HTL.
  destruct (Merge2x2_off_diagonal A1 ATL'
              (View A1 0 (index part) (index part) (Width A1 - index part))
              ABR' (index part) HTL) as [HBL HTR].
  split; [|split; [exact HBL | apply HTR; reflexivity]].
  destruct HA1 as [Hh1 Hw1].
  apply (Merge2x2_square _ _ _ _ _ (index part)); simpl; [exact HTL | lia | lia].
Qed.
End DriverBlocks.

Lemma SDC_leaves_off_diagonal_blocks_witness :
  ∃ part A1 w1 A' w',
    SpectralDivide (Distributed 2 3) coupled4 world0 = (Ok (part, A1), w1)
    ∧ SDC (Distributed 2 3) 4 coupled4 2 world0 = (Ok A', w')
    ∧ square (Height coupled4) A'
    ∧ (∀ i j, index part ≤ i → j < index part → entry A' i j = entry A1 i j)
    ∧ (∀ i j, i < index part → index part ≤ j → entry A' i j = entry A1 i j).
Proof.
  apply (SDC_leaves_off_diagonal_blocks (Distributed 2 3) 2 3 coupled4 world0);
    [simpl; lia | lia | split; reflexivity | simpl; lia | simpl; lia].
Defined.

(** ** The shapes of what the driver with vectors leaves *)

Section DriverVectorsShapes.
Context {F Real : Type} `{RealOps Real} `{Scalar F Real}
        `{LinAlg F Real} `{Overload F Real}
        `{!LinAlgShapes F Real} `{!SolverShapes F Real}.

(** The split with vectors leaves the explicit [Q] of its last attempt, a
    square matrix of the size of [A]. *)
Lemma SpectralDivide_vectors_returns_square s (A Q : Matrix F) w :
  Storage_ok s → 2 ≤ Height A → square (Height A) A →
  ∃ part A' Q' w',
    SpectralDivide_vectors s A Q w = (Ok (part, A', Q'), w')
    ∧ square (Height A) A' ∧ square (Height A) Q'
    ∧ 1 ≤ index part ≤ Height A - 1.
Proof.
  intros Hs Hn HA. unfold SpectralDivide_vectors.
  erewrite M_bind_Ok by apply generator_run.
  set (G := generator_of A (rng w)).
  set (w1 := mkWorld _ (calls w ++ generator_calls)).
  assert (square (Height A) G) as HG by apply generator_of_square, HA.
  destruct (RSD_outcome_holds s A G true default_maxIts default_relTol w1 Hs
              ltac:(unfold default_maxIts; lia) Hn HA HG)
    as (k & stb & wb & st & w' & part & Hk & Hr & Hp & _ & _ & Hrun & _).
  destruct (RSD_steps_invariant _ _ _ _ _ _ _ _ _ _ Hk) as (HAb & _).
  simpl in HAb.
  destruct (RSD_attempt_split s (projected G) (Height A) (OneNorm A) true
              Hs Hn (projected_square _ _ HG) stb wb st w')
    as (HA' & part' & Hp' & Hidx); [rewrite HAb; exact HA | exact Hr |].
  destruct (RSD_attempt_Ok _ _ _ _ _ _ _ _ _ Hr) as (_ & _ & _ & _ & HGst).
  exists part, (rs_A st), (rs_G st), w'.
  split; [exact Hrun|]. split; [exact HA'|]. split; [|congruence].
  rewrite HGst. unfold explicitQ.
  destruct (attempt_factor_square (projected G) (Height A) (rng wb)
              (projected_square _ _ HG)) as [Hh Hw].
  destruct (Expand_shape LOWER VERTICAL UNCONJUGATED 0
              (attempt_factor (projected G) (Height A) (rng wb)).1
              (attempt_factor (projected G) (Height A) (rng wb)).2) as [Hh' Hw'].
  split; congruence.
Qed.

Lemma stitched_shapes (A1 Q1 ATL' ABR' Z1 Z2 ATR' : Matrix F) (n k : Z) :
  square n A1 → square n Q1 →
  square k ATL' → square k Z1 → square (n - k) ABR' → square (n - k) Z2 →
  Width ATR' = n - k →
  square n (Merge2x2 ATL' ATR' (View A1 k 0 (Height A1 - k) k) ABR')
  ∧ square n (Merge1x2
                (Gemm NORMAL NORMAL fone (View Q1 0 0 (Height Q1) k) Z1)
                (Gemm NORMAL NORMAL fone
                   (View Q1 0 k (Height Q1) (Width Q1 - k)) Z2)).
Proof.
  intros [HhA HwA] [HhQ HwQ] HTL [HhZ1 HwZ1] HBR [HhZ2 HwZ2] HTR. split.
  - apply (Merge2x2_square _ _ _ _ _ k); simpl; [exact HTL | lia | exact HTR].
  - split; simpl; rewrite ?Gemm_Height, ?Gemm_Width; simpl; lia.
Qed.

(** With [cutoff >= 1], on a square matrix [A] with [n] rows, both
    overloads that form the Schur vectors return an [n x n] matrix in [A]
    and an [n x n] matrix in [Q]. *)
Lemma SDC_vectors_returns_square (r c : Z) (cutoff : Z) (fuel : nat) (A Q : Matrix F)
    (formATR : bool) (w : World RNG) :
  1 ≤ r → 1 ≤ c → 1 ≤ cutoff → square (Height A) A →
  Height A ≤ Z.of_nat fuel → (1 ≤ fuel)%nat →
  (∃ A' Q' w', SDC_vectors fuel A Q formATR cutoff w = (Ok (A', Q'), w')
               ∧ square (Height A) A' ∧ square (Height A) Q')
  ∧ (∃ A' Q' w',
       SDC_vectors_Dist r c fuel A Q formATR cutoff w = (Ok (A', Q'), w')
       ∧ square (Height A) A' ∧ square (Height A) Q').
Proof.
  intros Hr Hc Hcut. revert A Q w.
  induction fuel as [|fuel IH]; intros A Q w HA Hfuel Hpos; [lia|].
  assert (∀ A0 formATR0,
            square (Height A) A0 →
            (square (Height A) (schurQR_vectors A0 formATR0).1
             ∧ square (Height A) (schurQR_vectors A0 formATR0).2)) as Hbase.
  { intros A0 f0 [Hh0 Hw0].
    destruct (schurQR_vectors_shape A0 f0) as [[H1a H1b] [H2a H2b]].
    repeat split; congruence. }
  split.
  - cbn [SDC_vectors]. destruct (Z.leb_spec (Height A) cutoff) as [Hle|Hsplit].
    { destruct (Hbase A formATR HA) as [HA' HQ'].
      destruct (schurQR_vectors A formATR) as [A' Q'] eqn:Hsolve.
      exists A', Q', (record CallSchurQR w). auto. }
    destruct (SpectralDivide_vectors_returns_square Sequential A Q w I
                ltac:(lia) HA)
      as (part & A1 & Q1 & w1 & Hrun & HA1 & HQ1 & Hidx).
    erewrite M_bind_Ok by exact Hrun.
    cbn [PartitionDownDiagonal PartitionRight]. cbv beta iota.
    destruct (IH (View A1 0 0 (index part) (index part)) emptyMatrix w1)
      as [(ATL' & Z1 & w2 & HrunTL & HTL & HZ1) _];
      [split; reflexivity | simpl; lia | lia |].
    erewrite M_bind_Ok by exact HrunTL. cbv beta iota. rewrite M_bind_kernel.
    simpl in HTL, HZ1.
    assert (square (Height A - index part)
              (View A1 (index part) (index part) (Height A1 - index part)
                 (Width A1 - index part))) as HBRin
      by (destruct HA1 as [-> ->]; split; reflexivity).
    destruct formATR.
    + rewrite M_bind_kernel.
      destruct (IH (View A1 (index part) (index part) (Height A1 - index part)
                      (Width A1 - index part)) Z1
                  (record CallGemm (record CallGemm w2)))
        as [(ABR' & Z2 & w3 & HrunBR & HBR & HZ2) _].
      { destruct HA1 as [-> ->]. split; reflexivity. }
      { destruct HA1 as [-> _]. simpl. lia. }
      { lia. }
      erewrite M_bind_Ok by exact HrunBR. cbv beta iota.
      rewrite !M_bind_kernel. eexists _, _, _. split; [reflexivity|].
      destruct HA1 as [Hh1 Hw1]. simpl in HBR, HZ2. rewrite Hh1 in HBR, HZ2.
      apply (stitched_shapes A1 Q1 _ _ _ _ _ (Height A) (index part));
        try assumption; [split; assumption|].
      rewrite Gemm_Width. destruct HZ2 as [_ ->]. reflexivity.
    + rewrite M_bind_ret.
      destruct (IH (View A1 (index part) (index part) (Height A1 - index part)
                      (Width A1 - index part)) Z1 (record CallGemm w2))
        as [(ABR' & Z2 & w3 & HrunBR & HBR & HZ2) _].
      { destruct HA1 as [-> ->]. split; reflexivity. }
      { destruct HA1 as [-> _]. simpl. lia. }
      { lia. }
      erewrite M_bind_Ok by exact HrunBR. cbv beta iota.
      rewrite M_bind_ret, M_bind_kernel. eexists _, _, _. split; [reflexivity|].
      destruct HA1 as [Hh1 Hw1]. simpl in HBR, HZ2. rewrite Hh1 in HBR, HZ2.
      apply (stitched_shapes A1 Q1 _ _ _ _ _ (Height A) (index part));
        try assumption; [split; assumption|].
      simpl. lia.
  - cbn [SDC_vectors_Dist]. destruct (Z.leb_spec (Height A) cutoff) as [Hle|Hsplit].
    { destruct (Hbase A formATR HA) as [HA' HQ'].
      destruct (schurQR_vectors A formATR) as [A' Q'] eqn:Hsolve.
      exists A', Q', (record CallSchurQR w). auto. }
    destruct (SpectralDivide_vectors_returns_square (Distributed r c) A Q w
                (conj Hr Hc) ltac:(lia) HA)
      as (part & A1 & Q1 & w1 & Hrun & HA1 & HQ1 & Hidx).
    erewrite M_bind_Ok by exact Hrun.
    cbn [PartitionDownDiagonal PartitionRight]. cbv beta iota.
    destruct (IH (View A1 0 0 (index part) (index part)) emptyMatrix w1)
      as [_ (ATL' & Z1 & w2 & HrunTL & HTL & HZ1)];
      [split; reflexivity | simpl; lia | lia |].
    erewrite M_bind_Ok by exact HrunTL. cbv beta iota.
    destruct (IH (View A1 (index part) (index part) (Height A1 - index part)
                    (Width A1 - index part)) emptyMatrix w2)
      as [_ (ABR' & Z2 & w3 & HrunBR & HBR & HZ2)].
    { destruct HA1 as [-> ->]. split; reflexivity. }
    { destruct HA1 as [-> _]. simpl. lia. }
    { lia. }
    erewrite M_bind_Ok by exact HrunBR. cbv beta iota.
    rewrite !M_bind_kernel.
    destruct HA1 as [Hh1 Hw1]. simpl in HTL, HZ1, HBR, HZ2.
    rewrite Hh1 in HBR, HZ2.
    destruct formATR.
    + eexists _, _, _.
      split; [unfold mbind, M_bind, kernel, mret, M_ret; reflexivity|].
      apply (stitched_shapes A1 Q1 _ _ _ _ _ (Height A) (index part));
        try assumption; [split; assumption|].
      rewrite Gemm_Width. destruct HZ2 as [_ ->]. reflexivity.
    + eexists _, _, _.
      split; [unfold mbind, M_bind, kernel, mret, M_ret; reflexivity|].
      apply (stitched_shapes A1 Q1 _ _ _ _ _ (Height A) (index part));
        try assumption; [split; assumption|].
      simpl. lia.
Qed.
(** X13.  One level of [SDC( A, Q, formATR, cutoff )] above the cutoff, on
    a square matrix with [n] rows and with [cutoff >= 1], in the overload
    on [Matrix] and in the one on [DistMatrix]: the call returns an
    [n x n] matrix in [A] and an [n x n] matrix in [Q], whatever [Q] held
    at entry; the block of [A] below the diagonal is exactly what the split
    of this level left (it is not set to zero), and so is the block above
    the diagonal when [formATR] is false. *)
Theorem SDC_vectors_level (s : Storage) (cutoff : Z) (fuel : nat)
    (A Q : Matrix F) (formATR : bool) (w : World RNG) :
  Storage_ok s → 1 ≤ cutoff → square (Height A) A →
  cutoff < Height A → Height A ≤ Z.of_nat (Datatypes.S fuel) →
  ∃ part A1 Q1 w1 A' Q' w',
    SpectralDivide_vectors s A Q w = (Ok (part, A1, Q1), w1)
    ∧ SDC_vectors_on s (Datatypes.S fuel) A Q formATR cutoff w = (Ok (A', Q'), w')
    ∧ square (Height A) A' ∧ square (Height A) Q'
    ∧ (∀ i j, index part ≤ i → j < index part → entry A' i j = entry A1 i j)
    ∧ (formATR = false →
       ∀ i j, i < index part → index part ≤ j → entry A' i j = entry A1 i j).
Proof.
  intros Hs Hcut HA Hsplit Hfuel.
  destruct (SpectralDivide_vectors_returns_square s A Q w Hs ltac:(lia) HA)
    as (part & A1 & Q1 & w1 & Hrun & HA1 & HQ1 & Hidx).
  exists part, A1, Q1, w1.
  assert (∀ Z0 w0 (r c : Z), 1 ≤ r → 1 ≤ c →
            (∃ A' Q' w', SDC_vectors fuel (View A1 0 0 (index part) (index part))
                           Z0 formATR cutoff w0 = (Ok (A', Q'), w')
                         ∧ square (index part) A' ∧ square (index part) Q')
            ∧ (∃ A' Q' w', SDC_vectors_Dist r c fuel
                             (View A1 0 0 (index part) (index part))
                             Z0 formATR cutoff w0 = (Ok (A', Q'), w')
                           ∧ square (index part) A' ∧ square (index part) Q'))
    as HTLrun.
  { intros Z0 w0 r c Hr Hc.
    apply (SDC_vectors_returns_square r c cutoff fuel
             (View A1 0 0 (index part) (index part)) Z0 formATR w0);
      [exact Hr | exact Hc | exact Hcut | split; reflexivity | simpl; lia | lia]. }
  assert (∀ Z0 w0 (r c : Z), 1 ≤ r → 1 ≤ c →
            (∃ A' Q' w', SDC_vectors fuel
                           (View A1 (index part) (index part)
                              (Height A1 - index part) (Width A1 - index part))
                           Z0 formATR cutoff w0 = (Ok (A', Q'), w')
                         ∧ square (Height A - index part) A'
                         ∧ square (Height A - index part) Q')
            ∧ (∃ A' Q' w', SDC_vectors_Dist r c fuel
                             (View A1 (index part) (index part)
                                (Height A1 - index part) (Width A1 - index part))
                             Z0 formATR cutoff w0 = (Ok (A', Q'), w')
                           ∧ square (Height A - index part) A'
                           ∧ square (Height A - index part) Q'))
    as HBRrun.
  { intros Z0 w0 r c Hr Hc. destruct HA1 as [Hh1 Hw1]. rewrite Hh1, Hw1.
    apply (SDC_vectors_returns_square r c cutoff fuel
             (View A1 (index part) (index part) (Height A - index part)
                (Height A - index part)) Z0 formATR w0);
      [exact Hr | exact Hc | exact Hcut | split; reflexivity | simpl; lia | lia]. }
  assert (∀ ATL' ATR' ABR' Z1 Z2,
            square (index part) ATL' → square (index part) Z1 →
            square (Height A - index part) ABR' →
            square (Height A - index part) Z2 →
            Width ATR' = Height A - index part →
            (formATR = false →
             ATR' = View A1 0 (index part) (index part) (Width A1 - index part)) →
            let A' := Merge2x2 ATL' ATR'
                        (View A1 (index part) 0 (Height A1 - index part)
                           (index part)) ABR' in
            let Q' := Merge1x2
                        (Gemm NORMAL NORMAL fone
                           (View Q1 0 0 (Height Q1) (index part)) Z1)
                        (Gemm NORMAL NORMAL fone
                           (View Q1 0 (index part) (Height Q1)
                              (Width Q1 - index part)) Z2) in
            square (Height A) A' ∧ square (Height A) Q'
            ∧ (∀ i j, index part ≤ i → j < index part →
                      entry A' i j = entry A1 i j)
            ∧ (formATR = false →
               ∀ i j, i < index part → index part ≤ j →
                      entry A' i j = entry A1 i j)) as Hlevel.
  { intros ATL' ATR' ABR' Z1 Z2 HTL HZ1 HBR HZ2 HwTR HTR. cbv zeta.
    destruct (stitched_shapes A1 Q1 ATL' ABR' Z1 Z2 ATR' (Height A) (index part)
                HA1 HQ1 HTL HZ1 HBR HZ2 HwTR) as [HsA HsQ].
    destruct (Merge2x2_off_diagonal A1 ATL' ATR' ABR' (index part) HTL)
      as [HBL HTRkeep].
    split; [exact HsA|]. split; [exact HsQ|]. split; [exact HBL|].
    intros Hform. apply HTRkeep, HTR, Hform. }
  destruct s as [|r c]; unfold SDC_vectors_on.
  - cbn [SDC_vectors]. destruct (Z.leb_spec (Height A) cutoff) as [|_]; [lia|].
    erewrite M_bind_Ok by exact Hrun.
    cbn [PartitionDownDiagonal PartitionRight]. cbv beta iota.
    destruct (HTLrun emptyMatrix w1 1 1 ltac:(lia) ltac:(lia))
      as [(ATL' & Z1 & w2 & HrunTL & HTL & HZ1) _].
    erewrite M_bind_Ok by exact HrunTL. cbv beta iota. rewrite M_bind_kernel.
    destruct formATR.
    + rewrite M_bind_kernel.
      destruct (HBRrun Z1 (record CallGemm (record CallGemm w2)) 1 1
                  ltac:(lia) ltac:(lia))
        as [(ABR' & Z2 & w3 & HrunBR & HBR & HZ2) _].
      erewrite M_bind_Ok by exact HrunBR. cbv beta iota.
      rewrite !M_bind_kernel. eexists _, _, _.
      split; [exact Hrun|]. split; [reflexivity|].
      apply Hlevel; try assumption; [|discriminate].
      rewrite Gemm_Width. destruct HZ2 as [_ ->]. reflexivity.
    + rewrite M_bind_ret.
      destruct (HBRrun Z1 (record CallGemm w2) 1 1 ltac:(lia) ltac:(lia))
        as [(ABR' & Z2 & w3 & HrunBR & HBR & HZ2) _].
      erewrite M_bind_Ok by exact HrunBR. cbv beta iota.
      rewrite M_bind_ret, M_bind_kernel. eexists _, _, _.
      split; [exact Hrun|]. split; [reflexivity|].
      apply Hlevel; try assumption; [|reflexivity].
      destruct HA1 as [_ Hw1]. simpl. lia.
  - destruct Hs as [Hr Hc].
    cbn [SDC_vectors_Dist]. destruct (Z.leb_spec (Height A) cutoff) as [|_]; [lia|].
    erewrite M_bind_Ok by exact Hrun.
    cbn [PartitionDownDiagonal PartitionRight]. cbv beta iota.
    destruct (HTLrun emptyMatrix w1 r c Hr Hc)
      as [_ (ATL' & Z1 & w2 & HrunTL & HTL & HZ1)].
    erewrite M_bind_Ok by exact HrunTL. cbv beta iota.
    destruct (HBRrun emptyMatrix w2 r c Hr Hc)
      as [_ (ABR' & Z2 & w3 & HrunBR & HBR & HZ2)].
    erewrite M_bind_Ok by exact HrunBR. cbv beta iota.
    rewrite !M_bind_kernel.
    destruct formATR.
    + eexists _, _, _. split; [exact Hrun|].
      split; [unfold mbind, M_bind, kernel, mret, M_ret; reflexivity|].
      apply Hlevel; try assumption; [|discriminate].
      rewrite Gemm_Width. destruct HZ2 as [_ ->]. reflexivity.
    + eexists _, _, _. split; [exact Hrun|].
      split; [unfold mbind, M_bind, kernel, mret, M_ret; reflexivity|].
      apply Hlevel; try assumption; [|reflexivity].
      destruct HA1 as [_ Hw1]. simpl. lia.
Qed.
End DriverVectorsShapes.

Lemma SDC_vectors_level_witness :
  ∃ part A1 Q1 w1 A' Q' w',
    SpectralDivide_vectors (Distributed 2 3) coupled4 emptyMatrix world0
    = (Ok (part, A1, Q1), w1)
    ∧ SDC_vectors_on (Distributed 2 3) 4 coupled4 emptyMatrix false 1 world0
      = (Ok (A', Q'), w')
    ∧ square (Height coupled4) A' ∧ square (Height coupled4) Q'
    ∧ (∀ i j, index part ≤ i → j < index part → entry A' i j = entry A1 i j)
    ∧ (false = false →
       ∀ i j, i < index part → index part ≤ j → entry A' i j = entry A1 i j).
Proof.
  apply (SDC_vectors_level (Distributed 2 3) 1 3 coupled4 emptyMatrix false world0);
    [simpl; lia | lia | split; reflexivity | simpl; lia | simpl; lia].
Defined.


(** ** A matrix with one row cannot be split *)

Section OneRow.
Context {F Real : Type} `{RealOps Real} `{Scalar F Real}
        `{LinAlg F Real} `{Overload F Real} `{!LinAlgShapes F Real}.

Lemma ComputePartitionOn_one_row (s : Storage) (A : Matrix F) :
  Storage_ok s → square 1 A → ComputePartitionOn s A = Fault OutOfRange.
Proof.
  intros Hs [Hh Hw]. destruct s as [|r c]; simpl.
  - apply ComputePartition_one_row, Hh.
  - destruct Hs as [Hr Hc].
    apply (ComputePartition_Dist_one_row (mkDistMatrix A r c) 1);
      try assumption; reflexivity.
Qed.

Lemma RSD_attempt_one_row s S oneA returnQ (st : RSDState F Real) (w : World RNG) :
  Storage_ok s → square 1 S → square 1 (rs_A st) →
  (RSD_attempt s S 1 oneA returnQ st w).1 = Fault OutOfRange.
Proof.
  intros Hs HS HA. rewrite RSD_attempt_run. cbv zeta.
  rewrite ComputePartitionOn_one_row; [reflexivity | exact Hs |].
  apply transformed_square; [exact HA | apply attempt_factor_square, HS].
Qed.

Lemma RSD_loop_one_row s S oneA returnQ maxIts relTol fuel
    (st : RSDState F Real) (w : World RNG) :
  Storage_ok s → square 1 S → square 1 (rs_A st) → rs_it st < maxIts →
  (RSD_loop s S 1 oneA returnQ maxIts relTol (Datatypes.S fuel) st w).1
  = Fault OutOfRange.
Proof.
  intros Hs HS HA Hit. cbn [RSD_loop].
  destruct (Z.ltb_spec (rs_it st) maxIts); [|lia].
  pose proof (RSD_attempt_one_row s S oneA returnQ st w Hs HS HA) as Hrun.
  unfold mbind, M_bind.
  destruct (RSD_attempt s S 1 oneA returnQ st w) as [[st1|e] w1];
    simpl in Hrun |- *; [discriminate | exact Hrun].
Qed.

(** X14.  On a 1 x 1 matrix the splits do not return: for [maxIts >= 1] the
    first attempt of [RandomizedSignDivide] ends in the selector, which
    reads [colSums[0]] of an empty vector, and so does every
    [SpectralDivide], sequential or distributed. *)
Theorem split_of_one_row_faults (s : Storage) (A G Q : Matrix F)
    (returnQ : bool) (maxIts : Z) (relTol : Real) (w : World RNG) :
  Storage_ok s → 1 ≤ maxIts → square 1 A → square 1 G →
  (RandomizedSignDivide s A G returnQ maxIts relTol w).1 = Fault OutOfRange
  ∧ (SpectralDivide s A w).1 = Fault OutOfRange
  ∧ (SpectralDivide_vectors s A Q w).1 = Fault OutOfRange.
Proof.
  intros Hs Hmax HA HG.
  assert (∀ G0 returnQ0 maxIts0 relTol0 w0, 1 ≤ maxIts0 → square 1 G0 →
            (RandomizedSignDivide s A G0 returnQ0 maxIts0 relTol0 w0).1
            = Fault OutOfRange) as Hsplit.
  { intros G0 returnQ0 maxIts0 relTol0 w0 Hmax0 HG0.
    unfold RandomizedSignDivide, mbind, M_bind.
    rewrite RandomizedSignDivide_loop_unfold.
    destruct HA as [HhA HwA]. rewrite HhA.
    pose proof (RSD_loop_one_row s (projected G0) (OneNorm A) returnQ0 maxIts0
                  (effectiveTol 1 relTol0) (Z.to_nat maxIts0) (RSD_entry A G0)
                  (RSD_entry_world w0) Hs (projected_square _ _ HG0)
                  (conj HhA HwA) ltac:(simpl; lia)) as Hrun.
    destruct (RSD_loop _ _ _ _ _ _ _ _ _ _) as [[st|e] w1];
      simpl in Hrun |- *; [discriminate | congruence]. }
  split; [apply Hsplit; assumption|].
  assert (square 1 (generator_of A (rng w))) as HGen
    by apply generator_of_square, HA.
  split.
  - unfold SpectralDivide. erewrite M_bind_Ok by apply generator_run.
    unfold mbind, M_bind.
    specialize (Hsplit (generator_of A (rng w)) false default_maxIts default_relTol
                  (mkWorld (drawn_rotation (drawn_shift A (rng w)).2).2
                           (calls w ++ generator_calls))
                  ltac:(unfold default_maxIts; lia) HGen).
    destruct (RandomizedSignDivide _ _ _ _ _ _ _) as [[r|e] w1];
      simpl in Hsplit |- *; [discriminate | congruence].
  - unfold SpectralDivide_vectors. erewrite M_bind_Ok by apply generator_run.
    apply Hsplit; [unfold default_maxIts; lia | exact HGen].
Qed.

Lemma SpectralDivide_one_row s (A : Matrix F) w :
  Storage_ok s → square 1 A → ∃ w', SpectralDivide s A w = (Fault OutOfRange, w').
Proof.
  intros Hs HA.
  assert (square 1 (generator_of A (rng w))) as HGen
    by apply generator_of_square, HA.
  unfold SpectralDivide. erewrite M_bind_Ok by apply generator_run.
  unfold mbind at 1, M_bind at 1.
  unfold RandomizedSignDivide, mbind, M_bind.
  rewrite RandomizedSignDivide_loop_unfold.
  destruct HA as [HhA HwA]. rewrite HhA. unfold default_maxIts.
  match goal with
  | |- context [RSD_loop ?s ?S 1 ?o ?q ?m ?t (Datatypes.S ?f) ?st ?w0] =>
      pose proof (RSD_loop_one_row s S o q m t f st w0 Hs
                    (projected_square _ _ HGen) (conj HhA HwA)
                    ltac:(simpl; lia)) as Hrun;
      destruct (RSD_loop s S 1 o q m t (Datatypes.S f) st w0) as [[st1|e] w1]
  end; simpl in Hrun; [discriminate|].
  injection Hrun as ->. eexists. reflexivity.
Qed.
End OneRow.

Lemma split_of_one_row_faults_witness :
  (RandomizedSignDivide (Distributed 2 2) (ofRows [[5]] 1 1) (ofRows [[7]] 1 1)
     true 3 rzero world0).1 = Fault OutOfRange
  ∧ (SpectralDivide (Distributed 2 2) (ofRows [[5]] 1 1) world0).1 = Fault OutOfRange
  ∧ (SpectralDivide_vectors (Distributed 2 2) (ofRows [[5]] 1 1) emptyMatrix
       world0).1 = Fault OutOfRange.
Proof.
  apply split_of_one_row_faults;
    [simpl; lia | lia | split; reflexivity | split; reflexivity].
Defined.

(** ** The driver with a cutoff below one *)

Section CutoffBelowOne.
Context {F Real : Type} `{RealOps Real} `{Scalar F Real}
        `{LinAlg F Real} `{Overload F Real} `{!LinAlgShapes F Real}.

Lemma bind_result_Fault {X Y} (m : M RNG X) (f : X → M RNG Y) (w : World RNG) e :
  (m w).1 = Fault e → ((m ≫= f) w).1 = Fault e.
Proof.
  intros Hm. unfold mbind, M_bind.
  destruct (m w) as [[x|e'] w1]; simpl in Hm |- *; [discriminate | congruence].
Qed.

Lemma SpectralDivide_vectors_one_row s (A Q : Matrix F) w :
  Storage_ok s → square 1 A →
  (SpectralDivide_vectors s A Q w).1 = Fault OutOfRange.
Proof.
  intros Hs HA.
  assert (square 1 (generator_of A (rng w))) as HGen
    by apply generator_of_square, HA.
  unfold SpectralDivide_vectors. erewrite M_bind_Ok by apply generator_run.
  unfold RandomizedSignDivide. apply bind_result_Fault.
  rewrite RandomizedSignDivide_loop_unfold.
  destruct HA as [HhA HwA]. rewrite HhA. unfold default_maxIts.
  apply RSD_loop_one_row;
    [exact Hs | apply projected_square, HGen | split; assumption | simpl; lia].
Qed.

Lemma SDC_cutoff_faults (s : Storage) (cutoff : Z) (fuel : nat) (A : Matrix F)
    (w : World RNG) :
  Storage_ok s → cutoff < 1 → 1 ≤ Height A → square (Height A) A →
  Height A ≤ Z.of_nat fuel →
  (SDC s fuel A cutoff w).1 = Fault OutOfRange.
Proof.
  intros Hs Hcut. revert A w.
  induction fuel as [|fuel IH]; intros A w Hn HA Hfuel; [lia|].
  cbn [SDC]. destruct (Z.leb_spec (Height A) cutoff) as [|_]; [lia|].
  destruct (Z.eq_dec (Height A) 1) as [Hone|Hmore].
  - apply bind_result_Fault.
    destruct (SpectralDivide_one_row s A w Hs) as [w' ->];
      [rewrite <- Hone; exact HA | reflexivity].
  - destruct (SpectralDivide_returns s A w Hs ltac:(lia) HA)
      as (part & A1 & w1 & Hrun & HA1 & Hidx).
    erewrite M_bind_Ok by exact Hrun. cbn [PartitionDownDiagonal]. cbv beta iota.
    apply bind_result_Fault.
    apply IH; [simpl; lia | split; reflexivity | simpl; lia].
Qed.

Lemma SDC_vectors_cutoff_faults (cutoff : Z) (fuel : nat) (A Q : Matrix F)
    (formATR : bool) (w : World RNG) :
  cutoff < 1 → 1 ≤ Height A → square (Height A) A →
  Height A ≤ Z.of_nat fuel →
  (SDC_vectors fuel A Q formATR cutoff w).1 = Fault OutOfRange.
Proof.
  intros Hcut. revert A Q w.
  induction fuel as [|fuel IH]; intros A Q w Hn HA Hfuel; [lia|].
  cbn [SDC_vectors]. destruct (Z.leb_spec (Height A) cutoff) as [|_]; [lia|].
  destruct (Z.eq_dec (Height A) 1) as [Hone|Hmore].
  - apply bind_result_Fault.
    apply SpectralDivide_vectors_one_row; [exact I | rewrite <- Hone; exact HA].
  - destruct (SpectralDivide_vectors_returns Sequential A Q w I ltac:(lia) HA)
      as (part & A1 & Q1 & w1 & Hrun & HA1 & Hidx).
    erewrite M_bind_Ok by exact Hrun.
    cbn [PartitionDownDiagonal PartitionRight]. cbv beta iota.
    apply bind_result_Fault.
    apply IH; [simpl; lia | split; reflexivity | simpl; lia].
Qed.

Lemma SDC_vectors_Dist_cutoff_faults (r c : Z) (cutoff : Z) (fuel : nat)
    (A Q : Matrix F) (formATR : bool) (w : World RNG) :
  1 ≤ r → 1 ≤ c → cutoff < 1 → 1 ≤ Height A → square (Height A) A →
  Height A ≤ Z.of_nat fuel →
  (SDC_vectors_Dist r c fuel A Q formATR cutoff w).1 = Fault OutOfRange.
Proof.
  intros Hr Hc Hcut. revert A Q w.
  induction fuel as [|fuel IH]; intros A Q w Hn HA Hfuel; [lia|].
  cbn [SDC_vectors_Dist]. destruct (Z.leb_spec (Height A) cutoff) as [|_]; [lia|].
  destruct (Z.eq_dec (Height A) 1) as [Hone|Hmore].
  - apply bind_result_Fault.
    apply SpectralDivide_vectors_one_row;
      [split; assumption | rewrite <- Hone; exact HA].
  - destruct (SpectralDivide_vectors_returns (Distributed r c) A Q w
                (conj Hr Hc) ltac:(lia) HA)
      as (part & A1 & Q1 & w1 & Hrun & HA1 & Hidx).
    erewrite M_bind_Ok by exact Hrun.
    cbn [PartitionDownDiagonal PartitionRight]. cbv beta iota.
    apply bind_result_Fault.
    apply IH; [simpl; lia | split; reflexivity | simpl; lia].
Qed.

(** X15.  With [cutoff < 1] no overload of the driver returns a result on
    a square matrix with at least one row: the recursion goes down the
    top-left blocks until a block with one row is split, and that split
    reads outside the vectors of the selector. *)
Theorem SDC_cutoff_below_one (s : Storage) (cutoff : Z) (fuel : nat)
    (A Q : Matrix F) (formATR : bool) (w : World RNG) :
  Storage_ok s → cutoff < 1 → 1 ≤ Height A → square (Height A) A →
  Height A ≤ Z.of_nat fuel →
  (SDC s fuel A cutoff w).1 = Fault OutOfRange
  ∧ match s with
    | Sequential =>
        (SDC_vectors fuel A Q formATR cutoff w).1 = Fault OutOfRange
    | Distributed r c =>
        (SDC_vectors_Dist r c fuel A Q formATR cutoff w).1 = Fault OutOfRange
    end.
Proof.
  intros Hs Hcut Hn HA Hfuel.
  split; [apply SDC_cutoff_faults; assumption|].
  destruct s as [|r c].
  - apply SDC_vectors_cutoff_faults; assumption.
  - destruct Hs as [Hr Hc]. apply SDC_vectors_Dist_cutoff_faults; assumption.
Qed.
End CutoffBelowOne.

Lemma SDC_cutoff_below_one_witness :
  (SDC (Distributed 2 3) 4 coupled4 0 world0).1 = Fault OutOfRange
  ∧ (SDC_vectors_Dist 2 3 4 coupled4 emptyMatrix true 0 world0).1
    = Fault OutOfRange.
Proof.
  apply (SDC_cutoff_below_one (Distributed 2 3) 0 4 coupled4 emptyMatrix true world0);
    [simpl; lia | lia | simpl; lia | split; reflexivity | simpl; lia].
Defined.
